(** * Icon-import migration scripts of databayt/hogwarts

    A shallow embedding of the three Python scripts under [src/scripts]
    ([replace_icons.py], [replace-icons.py], [replace-lucide-icons.py]) and
    the properties of the rewrite engine they implement.

    A file's content is a Python [str], a sequence of code points; it is
    modelled as the list of its code points, each an [ascii] (the code points
    below U+0100, Latin-1).  The character classes are those of Python's [re]
    module on [str] patterns and of [str.strip]: Unicode-aware, here on the
    Latin-1 range.  The content is the [str] that [f.read()] returns and the
    [str] that [f.write] is given: the files are opened in text mode, so the
    decoding and the translation of line endings are done by [open] and are
    not part of the functions modelled here. *)

From Stdlib Require Import List Ascii String Bool Arith Lia.
Import ListNotations.

Set Implicit Arguments.

(** ** Texts and character classes *)

Definition text := list ascii.

Definition T (s : string) : text := list_ascii_of_string s.

(** The double quote and the newline, which are awkward inside literals. *)
Definition dq : ascii := "034"%char.
Definition nl : ascii := "010"%char.
Definition DQ : text := [dq].
Definition NL : text := [nl].

Definition between (lo hi n : nat) : bool := (lo <=? n) && (n <=? hi).

(** [\s] and [str.isspace]: tab, LF, VT, FF, CR, FS, GS, RS, US, space,
    and of the Latin-1 supplement NEL (U+0085) and the no-break space
    (U+00A0). *)
Definition is_space (c : ascii) : bool :=
  let n := nat_of_ascii c in
  between 9 13 n || between 28 32 n || (n =? 133) || (n =? 160).

(** [\w], which is [str.isalnum] or the underscore: the ASCII letters and
    digits and, of the Latin-1 supplement, the letters (U+00AA, U+00B5,
    U+00BA, U+00C0 to U+00FF without the signs U+00D7 and U+00F7), the
    superscript digits (U+00B2, U+00B3, U+00B9) and the fractions (U+00BC to
    U+00BE). *)
Definition is_word (c : ascii) : bool :=
  let n := nat_of_ascii c in
  between 48 57 n || between 65 90 n || between 97 122 n || (n =? 95)
  || (n =? 170) || between 178 179 n || (n =? 181) || between 185 186 n
  || between 188 190 n || between 192 214 n || between 216 246 n
  || between 248 255 n.

Definition text_eqb (a b : text) : bool :=
  if list_eq_dec ascii_dec a b then true else false.

Definition null (s : text) : bool :=
  match s with [] => true | _ => false end.

(** [s.startswith(p)], returning what follows the prefix. *)
Fixpoint strip_prefix (p s : text) : option text :=
  match p, s with
  | [], _ => Some s
  | a :: p', b :: s' => if Ascii.eqb a b then strip_prefix p' s' else None
  | _ :: _, [] => None
  end.

(** The longest prefix whose characters satisfy [p], and the rest. *)
Fixpoint span (p : ascii -> bool) (s : text) : text * text :=
  match s with
  | [] => ([], [])
  | c :: s' =>
      if p c then let (a, b) := span p s' in (c :: a, b) else ([], s)
  end.

(** [p in s] on strings. *)
Fixpoint occurs (p s : text) : bool :=
  match strip_prefix p s with
  | Some _ => true
  | None => match s with [] => false | _ :: s' => occurs p s' end
  end.

(** [s.strip()]. *)
Definition lstrip (s : text) : text := snd (span is_space s).
Definition strip (s : text) : text := rev (lstrip (rev (lstrip s))).

(** [sep.join(l)]. *)
Fixpoint join (sep : text) (l : list text) : text :=
  match l with
  | [] => []
  | [x] => x
  | x :: l' => x ++ sep ++ join sep l'
  end.

Definition last_char (m : text) (d : option ascii) : option ascii :=
  match rev m with c :: _ => Some c | [] => d end.

(** ** The leftmost, non-overlapping scan shared by [re.sub], [re.split],
       [re.search], [str.replace] and [str.split]

    A matcher is asked, at one position, for the match that starts there:
    it sees the character before the position (for [\b]) and the remaining
    text, and answers with the captured group, the matched text and the text
    after the match.  None of the patterns of the scripts matches the empty
    string. *)

Section Scan.
Variable G : Type.
Variable matcher : option ascii -> text -> option (G * text * text).

Inductive chunk : Type :=
| Lit (c : ascii)
| Hit (g : G) (m : text).

Fixpoint scan (fuel : nat) (prev : option ascii) (s : text) : list chunk :=
  match fuel with
  | 0 => []
  | S fuel' =>
      match s with
      | [] => []
      | c :: s' =>
          match matcher prev s with
          | Some (g, m, rest) => Hit g m :: scan fuel' (last_char m prev) rest
          | None => Lit c :: scan fuel' (Some c) s'
          end
      end
  end.

Definition finditer (s : text) : list chunk := scan (List.length s) None s.

Definition source (k : chunk) : text :=
  match k with Lit c => [c] | Hit _ m => m end.

Definition render (repl : G -> text -> text) (k : chunk) : text :=
  match k with Lit c => [c] | Hit g m => repl g m end.

(** [re.sub(pattern, repl, s)] *)
Definition re_sub (repl : G -> text -> text) (s : text) : text :=
  flat_map (render repl) (finditer s).

(** [re.search(pattern, s)]: the group and the whole match. *)
Fixpoint first_hit (cs : list chunk) : option (G * text) :=
  match cs with
  | [] => None
  | Lit _ :: cs' => first_hit cs'
  | Hit g m :: _ => Some (g, m)
  end.

Definition re_search (s : text) : option (G * text) := first_hit (finditer s).

(** [re.split('(' + pattern + ')', s)]: the texts between the matches at
    the even indices, the matches at the odd ones. *)
Fixpoint split_chunks (keep : bool) (acc : text) (cs : list chunk) : list text :=
  match cs with
  | [] => [rev acc]
  | Lit c :: cs' => split_chunks keep (c :: acc) cs'
  | Hit _ m :: cs' =>
      rev acc :: (if keep then [m] else []) ++ split_chunks keep [] cs'
  end.

Definition re_split_capture (s : text) : list text :=
  split_chunks true [] (finditer s).

Definition split_plain (s : text) : list text :=
  split_chunks false [] (finditer s).
End Scan.

Arguments Lit {G} c.
Arguments Hit {G} g m.

(** *** Matchers for the patterns of the scripts *)

(** A literal string, as [str.replace] and [str.split] look for it. *)
Definition m_literal (p : text) (_ : option ascii) (s : text)
  : option (unit * text * text) :=
  match strip_prefix p s with
  | Some rest => Some (tt, p, rest)
  | None => None
  end.

Definition wordy (o : option ascii) : bool :=
  match o with Some c => is_word c | None => false end.

(** [\b] between the character [prev] and the text [s]. *)
Definition at_boundary (prev : option ascii) (s : text) : bool :=
  xorb (wordy prev) (wordy (hd_error s)).

(** [r'\b' + name + r'\b'] *)
Definition m_word (name : text) (prev : option ascii) (s : text)
  : option (unit * text * text) :=
  if at_boundary prev s then
    match strip_prefix name s with
    | Some rest =>
        if at_boundary (last_char name prev) rest
        then Some (tt, name, rest) else None
    | None => None
    end
  else None.

(** [rf'<{name}(\s|/>|>)']; the group is what follows the name. *)
Definition m_tag_open (name : text) (_ : option ascii) (s : text)
  : option (text * text * text) :=
  match strip_prefix ("<"%char :: name) s with
  | Some (c :: rest) =>
      if is_space c then Some ([c], "<"%char :: name ++ [c], rest)
      else if Ascii.eqb c "/" then
        match rest with
        | ">"%char :: rest' => Some (T "/>", "<"%char :: name ++ T "/>", rest')
        | _ => None
        end
      else if Ascii.eqb c ">" then Some (T ">", "<"%char :: name ++ T ">", rest)
      else None
  | _ => None
  end.

(** [rf'</{name}>'] *)
Definition m_tag_close (name : text) : option ascii -> text -> option (unit * text * text) :=
  m_literal (T "</" ++ name ++ T ">").

Definition is_quote (c : ascii) : bool := Ascii.eqb c dq || Ascii.eqb c "'".

Definition bind {A B : Type} (o : option A) (f : A -> option B) : option B :=
  match o with Some a => f a | None => None end.

Notation "x <- e ;; k" := (bind e (fun x => k))
  (at level 61, e at next level, right associativity).

(** A greedy run of whitespace: [\s+] when [plus], [\s*] otherwise.  What
    follows it in the patterns is never whitespace, so the run is maximal. *)
Definition ws_run (plus : bool) (s : text) : option (text * text) :=
  let (w, rest) := span is_space s in
  if plus && null w then None else Some (w, rest).

Definition quote_char (s : text) : option (ascii * text) :=
  match s with
  | c :: rest => if is_quote c then Some (c, rest) else None
  | [] => None
  end.

(** The import patterns
    [import\s*\{([^}]+)\}\s*from\s*["\']lucide-react["\']]
    ([replace-icons.py], [plus = false], [semi = false]) and
    [import\s+\{([^}]+)\}\s+from\s+["\']lucide-react["\'];?]
    ([replace-lucide-icons.py], [plus = true], [semi = true]).
    The group is the text between the braces. *)
Definition m_import (plus semi : bool) (_ : option ascii) (s : text)
  : option (text * text * text) :=
  s1 <- strip_prefix (T "import") s ;;
  p1 <- ws_run plus s1 ;;
  s2 <- strip_prefix (T "{") (snd p1) ;;
  let (g, s3) := span (fun c => negb (Ascii.eqb c "}")) s2 in
  if null g then None else
  s4 <- strip_prefix (T "}") s3 ;;
  p2 <- ws_run plus s4 ;;
  s5 <- strip_prefix (T "from") (snd p2) ;;
  p3 <- ws_run plus s5 ;;
  q1 <- quote_char (snd p3) ;;
  s6 <- strip_prefix (T "lucide-react") (snd q1) ;;
  q2 <- quote_char s6 ;;
  let (tail, rest) :=
    match snd q2 with
    | ";"%char :: r => if semi then ([";"%char], r) else ([], snd q2)
    | _ => ([], snd q2)
    end in
  Some (g,
        T "import" ++ fst p1 ++ T "{" ++ g ++ T "}" ++ fst p2 ++ T "from"
          ++ fst p3 ++ [fst q1] ++ T "lucide-react" ++ [fst q2] ++ tail,
        rest).

(** [s.replace(old, new)] *)
Definition str_replace (old new s : text) : text :=
  match old with
  | [] => new ++ flat_map (fun c => c :: new) s
  | _ => re_sub (m_literal old) (fun _ _ => new) s
  end.

(** [s.split(sep)] for a non-empty separator. *)
Definition str_split (sep s : text) : list text :=
  split_plain (m_literal sep) s.

(** [re.sub(r'\b' + old + r'\b', new, s)] *)
Definition re_sub_word (old new s : text) : text :=
  re_sub (m_word old) (fun _ _ => new) s.

(** A [dict] with string keys, in insertion order. *)
Definition table := list (text * text).

Fixpoint lookup (t : table) (k : text) : option text :=
  match t with
  | [] => None
  | (k', v) :: t' => if text_eqb k' k then Some v else lookup t' k
  end.

(** [d.get(k, k)] *)
Definition get_or_self (t : table) (k : text) : text :=
  match lookup t k with Some v => v | None => k end.

Definition mem (x : text) (l : list text) : bool := existsb (text_eqb x) l.

Definition backslash : ascii := "092"%char.

(** ** [src/scripts/replace_icons.py] *)

Module Replace_icons.

(** The keys of the source are the regular expressions [r'\bName\b'];
    the table holds [Name]. *)
Definition ICON_MAPPINGS : table :=
  [ (T "AlertCircle", T "CircleAlert");
    (T "AlertTriangle", T "TriangleAlert");
    (T "CheckCircle", T "CircleCheck");
    (T "XCircle", T "CircleX");
    (T "MoreHorizontal", T "Ellipsis");
    (T "MoreVertical", T "EllipsisVertical");
    (T "Loader2", T "LoaderCircle");
    (T "Unlock", T "LockOpen") ].

Definition legacy_dq : text := T "from " ++ DQ ++ T "lucide-react" ++ DQ.
Definition target_dq : text := T "from " ++ DQ ++ T "@aliimam/icons" ++ DQ.
Definition legacy_sq : text := T "from 'lucide-react'".
Definition target_sq : text := T "from '@aliimam/icons'".

(** [content.replace(...)] twice: the import source is replaced. *)
Definition replace_imports (content : text) : text :=
  str_replace legacy_sq target_sq (str_replace legacy_dq target_dq content).

(** [for pattern, replacement in ICON_MAPPINGS.items(): content = re.sub(...)] *)
Definition replace_names (mappings : table) (content : text) : text :=
  fold_left (fun c kv => re_sub_word (fst kv) (snd kv) c) mappings content.

(** The returned flag and the content of the file afterwards (the file is
    written only when the content changed). *)
Definition process_file (content : text) : bool * text :=
  let original_content := content in
  let content := replace_imports content in
  let content := replace_names ICON_MAPPINGS content in
  if negb (text_eqb content original_content)
  then (true, content)
  else (false, original_content).

(** The verification of [main]: [re.search(pattern, content)] for some key. *)
Definition has_old_icon (content : text) : bool :=
  existsb (fun kv => match re_search (m_word (fst kv)) content with
                     | Some _ => true | None => false end) ICON_MAPPINGS.

End Replace_icons.

(** ** [src/scripts/replace-icons.py] *)

Module ReplaceIcons.

Definition ICON_MAPPINGS : table :=
  [ (T "AlertCircle", T "CircleAlert");
    (T "AlertTriangle", T "TriangleAlert");
    (T "AlertOctagon", T "OctagonAlert");
    (T "CheckCircle", T "CircleCheck");
    (T "CheckCircle2", T "CircleCheckBig");
    (T "XCircle", T "CircleX");
    (T "MoreHorizontal", T "Ellipsis");
    (T "MoreVertical", T "EllipsisVertical");
    (T "Loader2", T "LoaderCircle");
    (T "PlayCircle", T "CirclePlay");
    (T "PauseCircle", T "CirclePause");
    (T "StopCircle", T "CircleStop");
    (T "PlusCircle", T "CirclePlus");
    (T "MinusCircle", T "CircleMinus");
    (T "HelpCircle", T "CircleHelp");
    (T "CalendarIcon", T "Calendar");
    (T "ArrowUpIcon", T "ArrowUp");
    (T "ArrowDownIcon", T "ArrowDown");
    (T "InfoIcon", T "Info") ].

Definition MISSING_ICONS : list text :=
  [ T "LucideIcon"; T "BarChart"; T "BarChart3"; T "PieChart";
    T "FileBarChart"; T "GitCommit"; T "GitBranch"; T "GitFork";
    T "GitPullRequest" ].

Definition pattern := m_import false false.

Definition new_module_decl (mapped_icons : list text) : text :=
  T "import { " ++ join (T ", ") mapped_icons ++ T " } from "
    ++ DQ ++ T "@aliimam/icons" ++ DQ.

Definition legacy_decl (missing : list text) : text :=
  T "import { " ++ join (T ", ") missing ++ T " } from "
    ++ DQ ++ T "lucide-react" ++ DQ.

Definition build_import (mapped_icons missing : list text) : text :=
  new_module_decl mapped_icons ++
  match missing with
  | [] => []
  | _ => NL ++ legacy_decl missing
  end.

(** The two [re.sub] calls made for one entry of the table. *)
Definition replace_tags (old_name new_name content : text) : text :=
  re_sub (m_tag_close old_name)
    (fun _ _ => T "</" ++ new_name ++ T ">")
    (re_sub (m_tag_open old_name)
       (fun g _ => "<"%char :: new_name ++ g) content).

Definition replace_usages (icons_str content : text) : text :=
  fold_left
    (fun c kv => if occurs (fst kv) icons_str
                 then replace_tags (fst kv) (snd kv) c else c)
    ICON_MAPPINGS content.

(** [re.sub] reads its replacement argument as a template: a backslash in
    [new_import] starts an escape, which is expanded or rejected with
    [re.error].  Only the specifier text of the file can bring a backslash
    there; that case is outside this model and is reported as
    [TemplateEscape]. *)
Inductive outcome : Type :=
| Done (changed : bool) (msg : string) (file : text)
| TemplateEscape.

Definition process_file (content : text) : outcome :=
  let original_content := content in
  match re_search pattern content with
  | None => Done false "No lucide-react import found" original_content
  | Some (icons_str, _) =>
      let icons := map strip (str_split (T ",") icons_str) in
      let missing := filter (fun i => mem i MISSING_ICONS) icons in
      let aliimam_icons := filter (fun i => negb (mem i MISSING_ICONS)) icons in
      match aliimam_icons with
      | [] => Done false "All icons are missing from @aliimam/icons" original_content
      | _ =>
          let mapped_icons := map (get_or_self ICON_MAPPINGS) aliimam_icons in
          let new_import := build_import mapped_icons missing in
          if existsb (Ascii.eqb backslash) new_import then TemplateEscape else
          let content := re_sub pattern (fun _ _ => new_import) content in
          let content := replace_usages icons_str content in
          if negb (text_eqb content original_content)
          then Done true "Updated" content
          else Done false "No changes needed" original_content
      end
  end.

End ReplaceIcons.

(** ** [src/scripts/replace-lucide-icons.py] *)

Module ReplaceLucideIcons.

Definition ICON_MAPPINGS : table :=
  [ (T "AlertCircle", T "CircleAlert");
    (T "AlertTriangle", T "TriangleAlert");
    (T "CheckCircle", T "CircleCheck");
    (T "CheckCircle2", T "CircleCheck");
    (T "XCircle", T "CircleX");
    (T "MoreHorizontal", T "Ellipsis");
    (T "MoreVertical", T "EllipsisVertical");
    (T "Edit", T "Pencil");
    (T "Loader2", T "LoaderCircle");
    (T "Filter", T "ListFilter");
    (T "Home", T "House");
    (T "Unlock", T "LockOpen") ].

Definition pattern := m_import true true.

Definition extract_lucide_imports (content : text) : text * list text :=
  match re_search pattern content with
  | None => ([], [])
  | Some (imports_text, import_statement) =>
      (import_statement,
       map strip
         (filter (fun icon => negb (null (strip icon)))
            (str_split (T ",") imports_text)))
  end.

(** One specifier; [None] is the [ValueError] of unpacking
    [icon.split(' as ')] into two names. *)
Definition map_icon_name (icon : text) : option text :=
  if occurs (T " as ") icon then
    match map strip (str_split (T " as ") icon) with
    | [original; alias] =>
        Some (get_or_self ICON_MAPPINGS original ++ T " as " ++ alias)
    | _ => None
    end
  else Some (get_or_self ICON_MAPPINGS icon).

Fixpoint map_icon_names (icons : list text) : option (list text) :=
  match icons with
  | [] => Some []
  | icon :: rest =>
      m <- map_icon_name icon ;;
      ms <- map_icon_names rest ;;
      Some (m :: ms)
  end.

(** Applies [f] to the elements at even indices. *)
Fixpoint on_even (f : text -> text) (parts : list text) : list text :=
  match parts with
  | [] => []
  | [p] => [f p]
  | p :: q :: rest => f p :: q :: on_even f rest
  end.

Definition replace_names (mappings : table) (part : text) : text :=
  fold_left (fun c kv => re_sub_word (fst kv) (snd kv) c) mappings part.

Definition replace_icon_names_in_code (content : text) (mappings : table) : text :=
  let parts := re_split_capture pattern content in
  List.concat (on_even (replace_names mappings) parts).

Definition threshold : nat := 3.

Definition new_import (mapped_icons : list text) : text :=
  if List.length mapped_icons <=? threshold then
    T "import { " ++ join (T ", ") mapped_icons ++ T " } from "
      ++ DQ ++ T "@aliimam/icons" ++ DQ ++ T ";"
  else
    let icon_lines := join (T "," ++ NL ++ T "  ") mapped_icons in
    T "import {" ++ NL ++ T "  " ++ icon_lines ++ NL ++ T "} from "
      ++ DQ ++ T "@aliimam/icons" ++ DQ ++ T ";".

(** The returned flag and the content of the file afterwards.  The
    [except Exception] branch returns [False] and leaves the file as it
    was. *)
Definition process_file (original_content : text) : bool * text :=
  if negb (occurs (T "lucide-react") original_content)
  then (false, original_content)
  else
    let content := original_content in
    let (import_statement, icons) := extract_lucide_imports content in
    if null import_statement then (false, original_content) else
    match map_icon_names icons with
    | None => (false, original_content)
    | Some mapped_icons =>
        let content := str_replace import_statement (new_import mapped_icons) content in
        let content := replace_icon_names_in_code content ICON_MAPPINGS in
        if negb (text_eqb content original_content)
        then (true, content)
        else (false, original_content)
    end.

End ReplaceLucideIcons.

(** ** Vocabulary of the properties *)

(** *** Words: the maximal runs of word characters *)

Definition flush (f : text -> text) (acc : text) : text :=
  match acc with [] => [] | _ => f (rev acc) end.

(** Applies [f] to every maximal run of word characters of [rev acc ++ s],
    [acc] being the run read so far, in reverse. *)
Fixpoint map_words (f : text -> text) (acc s : text) : text :=
  match s with
  | [] => flush f acc
  | c :: s' =>
      if is_word c then map_words f (c :: acc) s'
      else flush f acc ++ c :: map_words f [] s'
  end.

Definition pending (acc : text) : list text :=
  match acc with [] => [] | _ => [rev acc] end.

Fixpoint words_from (acc s : text) : list text :=
  match s with
  | [] => pending acc
  | c :: s' =>
      if is_word c then words_from (c :: acc) s'
      else pending acc ++ words_from [] s'
  end.

(** The identifiers of a text, as [\b] delimits them. *)
Definition words (s : text) : list text := words_from [] s.

Definition swap (old new w : text) : text :=
  if text_eqb w old then new else w.

(** A non-empty run of word characters. *)
Definition is_name (w : text) : bool := negb (null w) && forallb is_word w.

Definition acc_ok (acc : text) : Prop := acc = [] \/ is_name (rev acc) = true.

(** *** Renaming by a table *)

(** What the successive substitutions of a table make of one word. *)
Definition rename (t : table) (w : text) : text :=
  fold_left (fun w kv => swap (fst kv) (snd kv) w) t w.

Definition keys (t : table) : list text := map fst t.

Definition names_ok (t : table) : bool :=
  forallb (fun kv => is_name (fst kv) && is_name (snd kv)) t.

(** No new name is itself an old name. *)
Definition targets_fresh (t : table) : bool :=
  forallb (fun kv => negb (mem (snd kv) (keys t))) t.

(** *** Matchers and overlaps *)

(** A match is a non-empty prefix of the text it is found in. *)
Definition sound {G : Type} (matcher : option ascii -> text -> option (G * text * text)) : Prop :=
  forall prev s g m rest,
    matcher prev s = Some (g, m, rest) -> s = m ++ rest /\ m <> [].

(** The two texts differ at a position that both have. *)
Fixpoint conflictb (a b : text) : bool :=
  match a, b with
  | x :: a', y :: b' => if Ascii.eqb x y then conflictb a' b' else true
  | _, _ => false
  end.

(** The non-empty suffixes. *)
Fixpoint tails (s : text) : list text :=
  match s with
  | [] => []
  | _ :: s' => s :: tails s'
  end.

(** No occurrence of [p] can overlap a copy of [r]. *)
Definition clash (p r : text) : bool :=
  forallb (fun q => conflictb q r) (tails (tl p)) && forallb (conflictb p) (tails r).

(** *** Texts within texts *)

(** The text [s] holds [k]. *)
Definition holds (k s : text) : Prop := exists a b, s = a ++ k ++ b.

(** *** Tags and their names *)

(** No [<] in the text. *)
Definition lt_free (k : text) : bool := forallb (fun c => negb (Ascii.eqb c "<")) k.

(** What [(\s|/>|>)] needs at the head of a text. *)
Definition starts_delim (r : text) : bool :=
  match r with
  | c :: r' =>
      is_space c || Ascii.eqb c ">"
      || (Ascii.eqb c "/" && match r' with d :: _ => Ascii.eqb d ">" | [] => false end)
  | [] => false
  end.

(** [p] is what follows a [<].  The name at the head of an opening tag (a
    run of word characters in front of whitespace, [/>] or [>]) or of a
    closing tag ([/], the name, [>]) becomes [f name]; any other text is left
    as it is. *)
Definition tag_rewrite (f : text -> text) (p : text) : text :=
  match p with
  | c :: p' =>
      if Ascii.eqb c "/" then
        let (n, r) := span is_word p' in
        match r with
        | d :: _ => if Ascii.eqb d ">" then c :: f n ++ r else p
        | [] => p
        end
      else
        let (n, r) := span is_word p in
        if starts_delim r then f n ++ r else p
  | [] => p
  end.

(** [U] rewrites the names of tags by [f], and nothing else: a text without
    [<] is left as it is, a text is rewritten piece by piece, cut in front of
    every [<], and in a piece only the name of the tag changes. *)
Definition rewrites_tags_by (U : text -> text) (f : text -> text) : Prop :=
  (forall a, lt_free a = true -> U a = a)
  /\ (forall a b, U (a ++ "<"%char :: b) = U a ++ U ("<"%char :: b))
  /\ (forall p, lt_free p = true -> U ("<"%char :: p) = "<"%char :: tag_rewrite f p).

(** *** Specifiers *)



(** * Properties *)

Unset Implicit Arguments.

(** ** Prefixes, spans and the scan *)

Lemma strip_prefix_app (p r : text) : strip_prefix p (p ++ r) = Some r.
Proof.
  induction p as [|a p IH]; simpl; [reflexivity|].
  now rewrite Ascii.eqb_refl.
Qed.

Lemma strip_prefix_Some (p s r : text) :
  strip_prefix p s = Some r -> s = p ++ r.
Proof.
  revert s; induction p as [|a p IH]; intros s H; simpl in *.
  - now inversion H.
  - destruct s as [|b s]; [discriminate|].
    destruct (Ascii.eqb a b) eqn:E; [|discriminate].
    apply Ascii.eqb_eq in E; subst b. f_equal. now apply IH.
Qed.

Lemma text_eqb_eq (a b : text) : text_eqb a b = true <-> a = b.
Proof.
  unfold text_eqb. destruct (list_eq_dec ascii_dec a b); split; congruence.
Qed.

Lemma text_eqb_refl (a : text) : text_eqb a a = true.
Proof. now apply text_eqb_eq. Qed.

Lemma text_eqb_neq (a b : text) : text_eqb a b = false <-> a <> b.
Proof.
  unfold text_eqb. destruct (list_eq_dec ascii_dec a b); split; congruence.
Qed.

Lemma span_app (p : ascii -> bool) (s : text) :
  s = fst (span p s) ++ snd (span p s).
Proof.
  induction s as [|c s IH]; simpl; [reflexivity|].
  destruct (p c); [|reflexivity].
  destruct (span p s); simpl in *. now f_equal.
Qed.

Lemma span_fst_all (p : ascii -> bool) (s : text) :
  forallb p (fst (span p s)) = true.
Proof.
  induction s as [|c s IH]; simpl; [reflexivity|].
  destruct (p c) eqn:E; [|reflexivity].
  destruct (span p s); simpl in *. now rewrite E.
Qed.

Lemma span_snd_head (p : ascii -> bool) (s : text) (c : ascii) (r : text) :
  snd (span p s) = c :: r -> p c = false.
Proof.
  induction s as [|d s IH]; simpl; [discriminate|].
  destruct (p d) eqn:E.
  - destruct (span p s); simpl in *. exact IH.
  - simpl. intros H. now inversion H; subst.
Qed.

Lemma span_all_app (p : ascii -> bool) (w r : text) :
  forallb p w = true ->
  span p (w ++ r) = (w ++ fst (span p r), snd (span p r)).
Proof.
  induction w as [|c w IH]; simpl; intros H.
  - now destruct (span p r).
  - apply andb_prop in H as [Hc Hw]. rewrite Hc, (IH Hw). reflexivity.
Qed.

Lemma last_char_snoc (m : text) (c : ascii) (d : option ascii) :
  last_char (m ++ [c]) d = Some c.
Proof. unfold last_char. now rewrite rev_app_distr. Qed.

Lemma last_char_wordy (m : text) (d : option ascii) :
  m <> [] -> forallb is_word m = true -> wordy (last_char m d) = true.
Proof.
  intros Hm Hw. destruct (exists_last Hm) as [m' [c ->]].
  rewrite last_char_snoc. rewrite forallb_app in Hw.
  apply andb_prop in Hw as [_ Hc]. simpl in *. now rewrite andb_true_r in Hc.
Qed.

(** ** Words: the maximal runs of word characters *)

Lemma is_name_cons (w : text) :
  is_name w = true -> exists c w', w = c :: w' /\ is_word c = true /\ forallb is_word w' = true.
Proof.
  unfold is_name. destruct w as [|c w']; simpl; [discriminate|].
  intros H. apply andb_prop in H as [Hc Hw]. now exists c, w'.
Qed.

Lemma map_words_app_word (f : text -> text) (w acc r : text) :
  forallb is_word w = true ->
  map_words f acc (w ++ r) = map_words f (rev w ++ acc) r.
Proof.
  revert acc; induction w as [|c w IH]; simpl; intros acc H; [reflexivity|].
  apply andb_prop in H as [Hc Hw]. rewrite Hc, (IH _ Hw).
  now rewrite <- app_assoc.
Qed.

Section WordSub.
Variables old new : text.
Hypothesis old_name : is_name old = true.

Let sub (fuel : nat) (prev : option ascii) (s : text) : text :=
  flat_map (render (fun (_ : unit) (_ : text) => new)) (scan (m_word old) fuel prev s).

Lemma m_word_nonword (prev : option ascii) (c : ascii) (s : text) :
  is_word c = false -> m_word old prev (c :: s) = None.
Proof.
  intros Hc. destruct (is_name_cons _ old_name) as (o & old' & -> & Ho & _).
  unfold m_word. destruct (at_boundary prev (c :: s)); [|reflexivity].
  simpl. destruct (Ascii.eqb o c) eqn:E; [|reflexivity].
  apply Ascii.eqb_eq in E. congruence.
Qed.

Lemma sub_prev_irrelevant (fuel : nat) (p q : option ascii) (s : text) :
  wordy (hd_error s) = false -> sub fuel p s = sub fuel q s.
Proof.
  intros H. destruct fuel; [reflexivity|].
  destruct s as [|c s]; [reflexivity|]. simpl in H.
  unfold sub; simpl. now rewrite !m_word_nonword.
Qed.

Lemma m_word_at_start (s : text) (prev : option ascii) :
  wordy prev = false ->
  fst (span is_word s) = old ->
  m_word old prev s = Some (tt, old, snd (span is_word s)).
Proof.
  intros Hp Hs. pose proof (span_app is_word s) as Happ. rewrite Hs in Happ.
  destruct (is_name_cons _ old_name) as (o & old' & Eo & Ho & Hold').
  unfold m_word, at_boundary. rewrite Hp.
  assert (Hhd : wordy (hd_error s) = true).
  { rewrite Happ, Eo. simpl. exact Ho. }
  rewrite Hhd. simpl.
  rewrite Happ at 1. rewrite strip_prefix_app.
  rewrite last_char_wordy.
  - destruct (snd (span is_word s)) as [|d r] eqn:E; simpl; [reflexivity|].
    now rewrite (span_snd_head _ _ _ _ E).
  - rewrite Eo; discriminate.
  - rewrite Eo; simpl. now rewrite Ho.
Qed.

Lemma sub_map_words (fuel : nat) :
  forall (s : text) (prev : option ascii) (acc : text),
    List.length s <= fuel ->
    wordy prev = negb (null acc) ->
    (acc <> [] -> rev acc ++ fst (span is_word s) <> old) ->
    rev acc ++ sub fuel prev s = map_words (swap old new) acc s.
Proof.
  induction fuel as [|fuel IH]; intros s prev acc Hlen Hprev Hacc.
  - destruct s; [|simpl in Hlen; lia]. simpl.
    destruct acc as [|a acc]; [reflexivity|]. simpl.
    unfold swap. rewrite app_nil_r in *.
    destruct (text_eqb (rev acc ++ [a]) old) eqn:E; [|reflexivity].
    apply text_eqb_eq in E. exfalso. apply Hacc; [discriminate|]. exact E.
  - destruct s as [|c s].
    + simpl. destruct acc as [|a acc]; [reflexivity|]. simpl.
      unfold swap. rewrite app_nil_r in *.
      destruct (text_eqb (rev acc ++ [a]) old) eqn:E; [|reflexivity].
      apply text_eqb_eq in E. exfalso. apply Hacc; [discriminate|]. exact E.
    + simpl in Hlen. destruct (is_word c) eqn:Hc.
      * (* a word character *)
        destruct (m_word old prev (c :: s)) as [[[g m] rest]|] eqn:Em.
        -- (* a match: the scan is at the start of a word that is [old] *)
           unfold m_word in Em.
           destruct (at_boundary prev (c :: s)) eqn:Eb; [|discriminate].
           destruct (strip_prefix old (c :: s)) as [r|] eqn:Es; [|discriminate].
           destruct (at_boundary (last_char old prev) r) eqn:Eb2; [|discriminate].
           inversion Em; subst g m rest; clear Em.
           unfold at_boundary in Eb. simpl in Eb. rewrite Hc in Eb.
           assert (Hp : wordy prev = false) by (destruct (wordy prev); [discriminate|reflexivity]).
           assert (acc = []) as ->.
           { rewrite Hp in Hprev. destruct acc; [reflexivity|discriminate]. }
           apply strip_prefix_Some in Es.
           destruct (is_name_cons _ old_name) as (o & old' & Eo & Ho & Hold').
           assert (Hwold : forallb is_word old = true) by (rewrite Eo; simpl; now rewrite Ho).
           unfold at_boundary in Eb2. rewrite last_char_wordy in Eb2;
             [|rewrite Eo; discriminate|exact Hwold].
           assert (Hr : wordy (hd_error r) = false)
             by (destruct (wordy (hd_error r)); [discriminate|reflexivity]).
           simpl rev. rewrite app_nil_l.
           unfold sub. simpl scan.
           assert (Em : m_word old prev (c :: s) = Some (tt, old, r)).
           { unfold m_word, at_boundary. simpl hd_error. simpl wordy at 2.
             rewrite Hc, Hp. simpl xorb. rewrite Es at 1. rewrite strip_prefix_app.
             rewrite last_char_wordy; [|rewrite Eo; discriminate|exact Hwold].
             now rewrite Hr. }
           rewrite Em. simpl flat_map.
           fold (sub fuel (last_char old prev) r).
           rewrite (sub_prev_irrelevant fuel (last_char old prev) None r Hr).
           assert (Hlr : List.length r <= fuel).
           { assert (L : List.length (c :: s) = List.length (old ++ r)) by now rewrite Es.
             rewrite length_app, Eo in L. simpl in L. lia. }
           pose proof (IH r None [] Hlr eq_refl) as IHr. simpl in IHr.
           rewrite IHr by congruence.
           rewrite Es, map_words_app_word by exact Hwold.
           rewrite app_nil_r.
           destruct r as [|d r']; simpl.
           ++ rewrite app_nil_r. unfold flush.
              destruct (rev old) eqn:Er.
              ** apply (f_equal (@rev ascii)) in Er. rewrite rev_involutive in Er.
                 rewrite Eo in Er. discriminate.
              ** rewrite <- Er, rev_involutive. unfold swap. now rewrite text_eqb_refl.
           ++ simpl in Hr. rewrite Hr. unfold flush.
              destruct (rev old) eqn:Er.
              ** apply (f_equal (@rev ascii)) in Er. rewrite rev_involutive in Er.
                 rewrite Eo in Er. discriminate.
              ** rewrite <- Er, rev_involutive. unfold swap. now rewrite text_eqb_refl.
        -- (* no match: the character joins the running word *)
           unfold sub. simpl scan. rewrite Em. simpl flat_map.
           fold (sub fuel (Some c) s).
           simpl map_words. rewrite Hc.
           rewrite <- (IH s (Some c) (c :: acc)).
           ++ simpl. now rewrite <- app_assoc.
           ++ lia.
           ++ simpl. exact Hc.
           ++ intros _. simpl rev. rewrite <- app_assoc. simpl.
              destruct acc as [|a acc'].
              ** simpl in Hprev. simpl. intros Heq.
                 assert (Hs : fst (span is_word (c :: s)) = old).
                 { simpl. rewrite Hc. destruct (span is_word s). exact Heq. }
                 rewrite (m_word_at_start (c :: s) prev Hprev Hs) in Em. discriminate.
              ** intros Heq. apply Hacc; [discriminate|].
                 simpl. rewrite Hc. destruct (span is_word s). exact Heq.
      * (* a separator *)
        unfold sub. simpl scan. rewrite (m_word_nonword prev c s Hc). simpl flat_map.
        fold (sub fuel (Some c) s).
        simpl map_words. rewrite Hc.
        pose proof (IH s (Some c) [] ltac:(lia)) as IHs. simpl in IHs.
        rewrite Hc in IHs. rewrite <- IHs by congruence.
        f_equal. destruct acc as [|a acc']; [reflexivity|].
        simpl. unfold swap.
        destruct (text_eqb (rev acc' ++ [a]) old) eqn:E; [|reflexivity].
        apply text_eqb_eq in E. exfalso. apply Hacc; [discriminate|].
        simpl. rewrite Hc. simpl. now rewrite app_nil_r.
Qed.

(** [re.sub(r'\bold\b', new, s)] renames the words equal to [old]. *)
Lemma re_sub_word_map_words (s : text) :
  re_sub_word old new s = map_words (swap old new) [] s.
Proof.
  unfold re_sub_word, re_sub, finditer.
  pose proof (sub_map_words (List.length s) s None [] (le_n _) eq_refl) as H.
  simpl in H. apply H. congruence.
Qed.
End WordSub.

(** ** Renaming word by word *)

Lemma is_name_rev_nonempty (w : text) : is_name w = true -> rev w <> [].
Proof.
  intros H E. apply (f_equal (@rev ascii)) in E. rewrite rev_involutive in E.
  subst w. discriminate.
Qed.

Lemma is_name_forallb (w : text) : is_name w = true -> forallb is_word w = true.
Proof. unfold is_name. intros H. now apply andb_prop in H. Qed.

Lemma flush_name (f : text -> text) (w : text) :
  is_name w = true -> flush f (rev w) = f w.
Proof.
  intros H. unfold flush. destruct (rev w) eqn:E.
  - now apply is_name_rev_nonempty in H.
  - now rewrite <- E, rev_involutive.
Qed.

(** A word followed by a separator, seen by [map_words]. *)
Lemma map_words_name_sep (g : text -> text) (w : text) (c : ascii) (x : text) :
  is_name w = true -> is_word c = false ->
  map_words g [] (w ++ c :: x) = g w ++ c :: map_words g [] x.
Proof.
  intros Hw Hc. rewrite map_words_app_word by now apply is_name_forallb.
  simpl. rewrite Hc, app_nil_r. now rewrite flush_name.
Qed.

Lemma map_words_name (g : text -> text) (w : text) :
  is_name w = true -> map_words g [] w = g w.
Proof.
  intros Hw. rewrite <- (app_nil_r w) at 1.
  rewrite map_words_app_word by now apply is_name_forallb.
  simpl. rewrite app_nil_r. now apply flush_name.
Qed.

Lemma acc_ok_cons (c : ascii) (acc : text) :
  is_word c = true -> acc_ok acc -> acc_ok (c :: acc).
Proof.
  intros Hc [->|H]; right; unfold is_name in *; simpl.
  - now rewrite Hc.
  - apply andb_prop in H as [_ H]. rewrite forallb_app, H. simpl. rewrite Hc.
    destruct (rev acc); reflexivity.
Qed.

Section Compose.
Variables f g : text -> text.
Hypothesis f_name : forall w, is_name w = true -> is_name (f w) = true.

Lemma map_words_flush (acc : text) (c : ascii) (x : text) :
  acc_ok acc -> is_word c = false ->
  map_words g [] (flush f acc ++ c :: x)
  = flush (fun w => g (f w)) acc ++ c :: map_words g [] x.
Proof.
  intros [->|Hacc] Hc.
  - simpl. now rewrite Hc.
  - unfold flush. destruct acc as [|a acc]; [discriminate|].
    apply map_words_name_sep; auto.
Qed.

Lemma map_words_compose (s : text) :
  forall acc, acc_ok acc ->
    map_words g [] (map_words f acc s) = map_words (fun w => g (f w)) acc s.
Proof.
  induction s as [|c s IH]; intros acc Hacc; simpl.
  - destruct Hacc as [->|Hacc]; [reflexivity|].
    unfold flush. destruct acc as [|a acc]; [reflexivity|].
    apply map_words_name; auto.
  - destruct (is_word c) eqn:Hc.
    + apply IH. now apply acc_ok_cons.
    + rewrite map_words_flush by assumption. f_equal. f_equal.
      apply IH. now left.
Qed.

Lemma words_from_name_sep (w : text) (c : ascii) (x : text) :
  is_name w = true -> is_word c = false ->
  words_from [] (w ++ c :: x) = w :: words_from [] x.
Proof.
  intros Hw Hc.
  assert (H : forall u acc, forallb is_word u = true ->
              words_from acc (u ++ c :: x) = pending (rev u ++ acc) ++ words_from [] x).
  { induction u as [|a u IHu]; intros acc Hu; simpl.
    - now rewrite Hc.
    - simpl in Hu. apply andb_prop in Hu as [Ha Hu]. rewrite Ha, IHu by assumption.
      now rewrite <- app_assoc. }
  rewrite H by now apply is_name_forallb.
  rewrite app_nil_r. unfold pending. destruct (rev w) eqn:E.
  - now apply is_name_rev_nonempty in Hw.
  - now rewrite <- E, rev_involutive.
Qed.

Lemma words_from_name (w : text) :
  is_name w = true -> words_from [] w = [w].
Proof.
  intros Hw.
  assert (H : forall u acc, forallb is_word u = true ->
              words_from acc u = pending (rev u ++ acc)).
  { induction u as [|a u IHu]; intros acc Hu; simpl; [reflexivity|].
    simpl in Hu. apply andb_prop in Hu as [Ha Hu]. rewrite Ha, IHu by assumption.
    now rewrite <- app_assoc. }
  rewrite H by now apply is_name_forallb.
  rewrite app_nil_r. unfold pending. destruct (rev w) eqn:E.
  - now apply is_name_rev_nonempty in Hw.
  - now rewrite <- E, rev_involutive.
Qed.

(** The words of a renamed text are the renamed words of the text. *)
Lemma words_map_words (s : text) :
  forall acc, acc_ok acc ->
    words (map_words f acc s) = map f (words_from acc s).
Proof.
  unfold words.
  induction s as [|c s IH]; intros acc Hacc; simpl.
  - destruct Hacc as [->|Hacc]; [reflexivity|].
    unfold flush, pending. destruct acc as [|a acc]; [reflexivity|].
    simpl map. apply words_from_name; auto.
  - destruct (is_word c) eqn:Hc.
    + apply IH. now apply acc_ok_cons.
    + rewrite map_app, <- (IH [] (or_introl eq_refl)).
      destruct Hacc as [->|Hacc].
      * simpl. now rewrite Hc.
      * unfold flush, pending. destruct acc as [|a acc]; [discriminate|].
        simpl map. simpl app. apply words_from_name_sep; auto.
Qed.
End Compose.

Lemma map_words_ext (f g : text -> text) (s : text) :
  (forall w, is_name w = true -> f w = g w) ->
  forall acc, acc_ok acc -> map_words f acc s = map_words g acc s.
Proof.
  intros Hfg. induction s as [|c s IH]; intros acc Hacc; simpl.
  - destruct Hacc as [->|Hacc]; [reflexivity|].
    unfold flush. destruct acc; [reflexivity|]. now apply Hfg.
  - destruct (is_word c) eqn:Hc.
    + apply IH. now apply acc_ok_cons.
    + rewrite (IH [] (or_introl eq_refl)). f_equal.
      destruct Hacc as [->|Hacc]; [reflexivity|].
      unfold flush. destruct acc; [reflexivity|]. now apply Hfg.
Qed.

Lemma words_from_names (s : text) :
  forall acc, acc_ok acc -> Forall (fun w => is_name w = true) (words_from acc s).
Proof.
  induction s as [|c s IH]; intros acc Hacc; simpl.
  - destruct Hacc as [->|Hacc]; [constructor|].
    unfold pending. destruct acc; [constructor|]. now repeat constructor.
  - destruct (is_word c) eqn:Hc.
    + apply IH. now apply acc_ok_cons.
    + apply Forall_app. split; [|apply IH; now left].
      destruct Hacc as [->|Hacc]; [constructor|].
      unfold pending. destruct acc; [constructor|]. now repeat constructor.
Qed.

Lemma map_words_id (s : text) :
  forall acc, map_words (fun w => w) acc s = rev acc ++ s.
Proof.
  induction s as [|c s IH]; intros acc; simpl.
  - rewrite app_nil_r. now destruct acc.
  - destruct (is_word c).
    + rewrite IH. simpl. now rewrite <- app_assoc.
    + rewrite IH. simpl. now destruct acc.
Qed.

(** ** Renaming by a table *)

Lemma mem_In (x : text) (l : list text) : mem x l = true <-> In x l.
Proof.
  unfold mem. rewrite existsb_exists. split.
  - intros (y & Hy & E). apply text_eqb_eq in E. now subst.
  - intros H. exists x. split; [assumption|apply text_eqb_refl].
Qed.

Lemma swap_name (old new w : text) :
  is_name new = true -> is_name w = true -> is_name (swap old new w) = true.
Proof. intros Hn Hw. unfold swap. now destruct (text_eqb w old). Qed.

Lemma rename_name (t : table) :
  names_ok t = true -> forall w, is_name w = true -> is_name (rename t w) = true.
Proof.
  induction t as [|[k v] t IH]; simpl; intros Ht w Hw; [assumption|].
  apply andb_prop in Ht as [Hkv Ht]. apply andb_prop in Hkv as [_ Hv].
  apply IH; [assumption|]. now apply swap_name.
Qed.

Lemma fold_sub_map_words (t : table) :
  names_ok t = true ->
  forall s, fold_left (fun c kv => re_sub_word (fst kv) (snd kv) c) t s
            = map_words (rename t) [] s.
Proof.
  induction t as [|[k v] t IH]; simpl; intros Ht s.
  - now rewrite map_words_id.
  - apply andb_prop in Ht as [Hkv Ht]. apply andb_prop in Hkv as [Hk Hv].
    rewrite (IH Ht), (re_sub_word_map_words k v Hk).
    rewrite map_words_compose; [reflexivity| |now left].
    intros w Hw. now apply swap_name.
Qed.

Lemma rename_cons (k v : text) (t : table) (w : text) :
  rename ((k, v) :: t) w = rename t (swap k v w).
Proof. reflexivity. Qed.

Lemma rename_not_key (t : table) (w : text) :
  ~ In w (keys t) -> rename t w = w.
Proof.
  revert w; induction t as [|[k v] t IH]; intros w Hw; [reflexivity|].
  rewrite rename_cons. simpl in Hw. unfold swap. destruct (text_eqb w k) eqn:E.
  - apply text_eqb_eq in E. subst. tauto.
  - apply IH. tauto.
Qed.

Lemma rename_cases (K : list text) (t : table) :
  (forall kv, In kv t -> ~ In (snd kv) K) ->
  forall w, ~ In (rename t w) K \/ (rename t w = w /\ ~ In w (keys t)).
Proof.
  induction t as [|[k v] t IH]; intros Ht w.
  - right. simpl. tauto.
  - assert (Ht' : forall kv, In kv t -> ~ In (snd kv) K)
      by (intros; apply Ht; simpl; tauto).
    rewrite rename_cons. unfold swap. destruct (text_eqb w k) eqn:E.
    + left. destruct (IH Ht' v) as [H|[H _]]; [assumption|].
      rewrite H. apply (Ht (k, v)). simpl. tauto.
    + apply text_eqb_neq in E. destruct (IH Ht' w) as [H|[H1 H2]]; [now left|].
      right. split; [assumption|]. simpl. intros [H|H]; [congruence|tauto].
Qed.

(** After the substitutions no word is an old name. *)
Lemma rename_fresh (t : table) (w : text) :
  targets_fresh t = true -> ~ In (rename t w) (keys t).
Proof.
  intros Ht.
  assert (H : forall kv, In kv t -> ~ In (snd kv) (keys t)).
  { intros kv Hkv. unfold targets_fresh in Ht. rewrite forallb_forall in Ht.
    specialize (Ht kv Hkv). rewrite <- mem_In. now destruct (mem (snd kv) (keys t)). }
  destruct (rename_cases (keys t) t H w) as [H1|[H1 H2]]; [assumption|].
  now rewrite H1.
Qed.

Lemma rename_idem (t : table) (w : text) :
  targets_fresh t = true -> rename t (rename t w) = rename t w.
Proof. intros Ht. apply rename_not_key. now apply rename_fresh. Qed.

(** The text after the substitutions holds no old name as a word. *)
Lemma renamed_words_fresh (t : table) (s : text) (k : text) :
  names_ok t = true -> targets_fresh t = true -> In k (keys t) ->
  ~ In k (words (map_words (rename t) [] s)).
Proof.
  intros Hn Hf Hk Hin.
  rewrite words_map_words in Hin; [|now apply rename_name|now left].
  apply in_map_iff in Hin as (w & Hw & _). subst k.
  now apply (rename_fresh t w Hf).
Qed.

Lemma renamed_twice (t : table) (s : text) :
  names_ok t = true -> targets_fresh t = true ->
  map_words (rename t) [] (map_words (rename t) [] s) = map_words (rename t) [] s.
Proof.
  intros Hn Hf. rewrite map_words_compose; [|now apply rename_name|now left].
  apply map_words_ext; [|now left].
  intros w _. now apply rename_idem.
Qed.

(** A text none of whose words is an old name is left as it is. *)
Lemma rename_words_unchanged (t : table) (s : text) :
  (forall k, In k (keys t) -> ~ In k (words s)) ->
  map_words (rename t) [] s = s.
Proof.
  intros H.
  assert (G : forall s acc, acc_ok acc ->
            (forall k, In k (keys t) -> ~ In k (words_from acc s)) ->
            map_words (rename t) acc s = rev acc ++ s).
  { clear s H. induction s as [|c s IH]; intros acc Hacc H; simpl in *.
    - rewrite app_nil_r. unfold flush. destruct acc as [|a acc]; [reflexivity|].
      apply rename_not_key. intros Hk. apply (H _ Hk). simpl. now left.
    - destruct (is_word c) eqn:Hc.
      + rewrite IH; [simpl; now rewrite <- app_assoc|now apply acc_ok_cons|assumption].
      + rewrite (IH []); [|now left|intros k Hk Hin; apply (H k Hk); apply in_or_app; now right].
        simpl. f_equal. unfold flush. destruct acc as [|a acc]; [reflexivity|].
        apply rename_not_key. intros Hk. apply (H _ Hk). apply in_or_app. left. simpl. now left. }
  apply (G s []); [now left|assumption].
Qed.

(** ** The scan: its source, its fuel, its literal positions *)

Section ScanFacts.
Variable G : Type.
Variable matcher : option ascii -> text -> option (G * text * text).

Hypothesis matcher_sound : sound matcher.

Lemma sound_shorter prev s g m rest :
  matcher prev s = Some (g, m, rest) -> List.length rest < List.length s.
Proof.
  intros H. destruct (matcher_sound _ _ _ _ _ H) as [-> Hm].
  rewrite length_app. destruct m; [congruence|simpl; lia].
Qed.

(** The chunks of a scan spell the text: the scan never stops early. *)
Lemma scan_source (fuel : nat) :
  forall s prev, List.length s <= fuel ->
    flat_map (@source G) (scan matcher fuel prev s) = s.
Proof.
  induction fuel as [|fuel IH]; intros s prev Hlen.
  - destruct s; [reflexivity|simpl in Hlen; lia].
  - destruct s as [|c s]; [reflexivity|]. simpl.
    destruct (matcher prev (c :: s)) as [[[g m] rest]|] eqn:E.
    + pose proof (sound_shorter _ _ _ _ _ E) as Hs.
      destruct (matcher_sound _ _ _ _ _ E) as [Happ _].
      simpl. rewrite IH by (simpl in *; lia). now rewrite Happ.
    + simpl. rewrite IH by (simpl in Hlen; lia). reflexivity.
Qed.

Lemma scan_fuel (f1 : nat) :
  forall f2 s prev, List.length s <= f1 -> List.length s <= f2 ->
    scan matcher f1 prev s = scan matcher f2 prev s.
Proof.
  induction f1 as [|f1 IH]; intros f2 s prev H1 H2.
  - destruct s; [|simpl in H1; lia]. now destruct f2.
  - destruct f2 as [|f2]; [destruct s; [reflexivity|simpl in H2; lia]|].
    destruct s as [|c s]; [reflexivity|]. simpl.
    destruct (matcher prev (c :: s)) as [[[g m] rest]|] eqn:E.
    + pose proof (sound_shorter _ _ _ _ _ E) as Hs.
      f_equal. apply IH; simpl in *; lia.
    + f_equal. apply IH; simpl in *; lia.
Qed.

(** Where the scan copies a character, the pattern did not match. *)
Lemma scan_lit_nomatch (fuel : nat) :
  forall s prev cs1 c cs2, List.length s <= fuel ->
    scan matcher fuel prev s = cs1 ++ Lit c :: cs2 ->
    exists prev', matcher prev' (c :: flat_map (@source G) cs2) = None.
Proof.
  induction fuel as [|fuel IH]; intros s prev cs1 c cs2 Hlen Hs.
  - simpl in Hs. destruct cs1; discriminate.
  - destruct s as [|c0 s]; [destruct cs1; discriminate|]. simpl in Hs.
    destruct (matcher prev (c0 :: s)) as [[[g m] rest]|] eqn:E.
    + pose proof (sound_shorter _ _ _ _ _ E) as Hsh.
      destruct cs1 as [|k cs1]; [discriminate|]. inversion Hs; subst k.
      eapply IH; [|eassumption]. simpl in *; lia.
    + destruct cs1 as [|k cs1].
      * inversion Hs; subst c0. exists prev.
        rewrite scan_source by (simpl in Hlen; lia). exact E.
      * inversion Hs; subst k. eapply IH; [|eassumption]. simpl in Hlen; lia.
Qed.
End ScanFacts.

Lemma m_literal_sound (p : text) : p <> [] -> sound (m_literal p).
Proof.
  intros Hp prev s g m rest H. unfold m_literal in H.
  destruct (strip_prefix p s) eqn:E; [|discriminate].
  inversion H; subst. split; [now apply strip_prefix_Some|assumption].
Qed.

Lemma m_word_sound (name : text) : name <> [] -> sound (m_word name).
Proof.
  intros Hp prev s g m rest H. unfold m_word in H.
  destruct (at_boundary prev s); [|discriminate].
  destruct (strip_prefix name s) as [r|] eqn:E; [|discriminate].
  destruct (at_boundary (last_char name prev) r); [|discriminate].
  inversion H; subst. split; [now apply strip_prefix_Some|assumption].
Qed.

(** ** Occurrences of a literal in a text where matches were replaced *)

Lemma conflictb_strip (a b x : text) :
  conflictb a b = true -> strip_prefix a (b ++ x) = None.
Proof.
  revert b; induction a as [|c a IH]; intros [|d b] H; simpl in *; try discriminate.
  destruct (Ascii.eqb c d); [now apply IH|reflexivity].
Qed.

Lemma occurs_app_cases (p u x : text) :
  occurs p (u ++ x) = true ->
  (exists u', In u' (tails u) /\ strip_prefix p (u' ++ x) <> None) \/ occurs p x = true.
Proof.
  induction u as [|a u IH]; intros H; [now right|].
  simpl app in H. simpl occurs in H.
  destruct (strip_prefix p (a :: u ++ x)) eqn:E.
  - left. exists (a :: u). split; [now left|]. simpl app. now rewrite E.
  - destruct (IH H) as [(u' & Hu' & Hs)|Hr]; [|now right].
    left. exists u'. split; [now right|assumption].
Qed.

Lemma occurs_intro (p a b : text) : occurs p (a ++ p ++ b) = true.
Proof.
  induction a as [|c a IH]; simpl app.
  - destruct (p ++ b) eqn:E; simpl; rewrite <- E, strip_prefix_app; reflexivity.
  - simpl. now destruct (strip_prefix p (c :: a ++ p ++ b)).
Qed.

Lemma occurs_false_cons (p : text) (c : ascii) (s : text) :
  occurs p (c :: s) = false -> strip_prefix p (c :: s) = None /\ occurs p s = false.
Proof. simpl. destruct (strip_prefix p (c :: s)); [discriminate|tauto]. Qed.

Section Overlap.
Variable G : Type.
Variables p r : text.
Hypothesis p_r_clash : clash p r = true.

Let out (cs : list (chunk G)) : text := flat_map (render (fun _ _ => r)) cs.

(** A piece of [p] read in the output is read from copied characters. *)
Lemma window (q : text) :
  (forall q', In q' (tails q) -> conflictb q' r = true) ->
  forall cs x, strip_prefix q (out cs) = Some x ->
    exists cs', cs = map Lit q ++ cs' /\ x = out cs'.
Proof.
  induction q as [|a q IH]; intros Hq cs x H.
  - exists cs. simpl in *. now inversion H.
  - destruct cs as [|[c|g m] cs].
    + simpl in H. discriminate.
    + change (out (Lit c :: cs)) with (c :: out cs) in H. simpl in H.
      destruct (Ascii.eqb a c) eqn:E; [|discriminate].
      apply Ascii.eqb_eq in E; subst c.
      destruct (IH (fun q' Hq' => Hq q' (or_intror Hq')) cs x H) as (cs' & -> & ->).
      now exists cs'.
    + change (out (Hit g m :: cs)) with (r ++ out cs) in H.
      rewrite (conflictb_strip (a :: q) r (out cs)) in H; [discriminate|].
      apply Hq. now left.
Qed.

(** Every occurrence of [p] in the output lies in copied characters. *)
Lemma occurs_out (cs : list (chunk G)) :
  occurs p (out cs) = true -> exists cs1 cs2, cs = cs1 ++ map Lit p ++ cs2.
Proof.
  apply andb_prop in p_r_clash as [Hq Hu].
  rewrite forallb_forall in Hq, Hu.
  induction cs as [|[c|g m] cs IH]; intros H.
  - simpl in H. destruct p; [now exists [], []|discriminate].
  - change (out (Lit c :: cs)) with (c :: out cs) in H. simpl occurs in H.
    destruct (strip_prefix p (c :: out cs)) as [x|] eqn:E.
    + destruct p as [|a q]; [now exists [], (Lit c :: cs)|].
      simpl in E. destruct (Ascii.eqb a c) eqn:Ea; [|discriminate].
      apply Ascii.eqb_eq in Ea; subst c.
      destruct (window q (fun q' Hq' => Hq q' Hq') cs x E) as (cs' & -> & _).
      now exists [], cs'.
    + destruct (IH H) as (cs1 & cs2 & ->). now exists (Lit c :: cs1), cs2.
  - change (out (Hit g m :: cs)) with (r ++ out cs) in H.
    destruct (occurs_app_cases p r (out cs) H) as [(u' & Hu' & Hs)|Hr].
    + exfalso. apply Hs. apply conflictb_strip. now apply Hu.
    + destruct (IH Hr) as (cs1 & cs2 & ->). now exists (Hit g m :: cs1), cs2.
Qed.

Variable matcher : option ascii -> text -> option (G * text * text).
Hypothesis matcher_sound : sound matcher.

(** Replacing the matches by [r] brings no occurrence of [p]. *)
Lemma re_sub_no_new_occurrence (s : text) :
  occurs p s = false -> occurs p (re_sub matcher (fun _ _ => r) s) = false.
Proof.
  intros H. destruct (occurs p (re_sub _ _ s)) eqn:E; [|reflexivity].
  apply occurs_out in E as (cs1 & cs2 & E).
  pose proof (scan_source G matcher matcher_sound (List.length s) s None (le_n _)) as Hs.
  fold (finditer matcher s) in Hs. rewrite E in Hs.
  rewrite !flat_map_app in Hs.
  assert (Hp : flat_map (@source G) (map Lit p) = p).
  { clear. induction p as [|a q IH]; simpl; [reflexivity|now rewrite IH]. }
  rewrite Hp in Hs. rewrite <- Hs, occurs_intro in H. discriminate.
Qed.
End Overlap.

(** [s.replace(p, r)] leaves no [p] when no occurrence of [p] can overlap [r]. *)
Lemma str_replace_kills (p r s : text) :
  p <> [] -> clash p r = true -> occurs p (str_replace p r s) = false.
Proof.
  intros Hp Hc. unfold str_replace. destruct p as [|a q] eqn:Ep; [congruence|].
  rewrite <- Ep in *.
  destruct (occurs p (re_sub _ _ s)) eqn:E; [|reflexivity].
  apply (occurs_out unit p r Hc) in E as (cs1 & cs2 & E).
  rewrite Ep in E at 2. simpl in E.
  destruct (scan_lit_nomatch unit (m_literal p) (m_literal_sound p Hp)
              (List.length s) s None cs1 a (map Lit q ++ cs2) (le_n _) E) as [prev' Hn].
  unfold m_literal in Hn. rewrite flat_map_app in Hn.
  assert (Hq : flat_map (@source unit) (map Lit q) = q).
  { clear. induction q as [|b q IH]; simpl; [reflexivity|now rewrite IH]. }
  rewrite Hq in Hn. change (a :: q ++ flat_map (@source unit) cs2) with ((a :: q) ++ flat_map (@source unit) cs2) in Hn.
  rewrite <- Ep, strip_prefix_app in Hn. discriminate.
Qed.

Lemma str_replace_no_new_occurrence (p old new s : text) :
  old <> [] -> clash p new = true ->
  occurs p s = false -> occurs p (str_replace old new s) = false.
Proof.
  intros Ho Hc H. unfold str_replace. destruct old as [|a q] eqn:E; [congruence|].
  rewrite <- E. apply re_sub_no_new_occurrence; auto.
  apply m_literal_sound. congruence.
Qed.

(** [s.replace(p, r)] is [s] when [p] does not occur in [s]. *)
Lemma str_replace_absent (p r s : text) :
  p <> [] -> occurs p s = false -> str_replace p r s = s.
Proof.
  intros Hp H. unfold str_replace. destruct p as [|a q] eqn:Ep; [congruence|].
  rewrite <- Ep in *. unfold re_sub, finditer.
  generalize (@None ascii) as prev.
  induction s as [|c s IH]; intros prev; [reflexivity|].
  apply occurs_false_cons in H as [H1 H2].
  simpl. unfold m_literal at 1. rewrite H1. simpl. now rewrite IH.
Qed.

Lemma re_sub_word_no_new_occurrence (p old new s : text) :
  old <> [] -> clash p new = true ->
  occurs p s = false -> occurs p (re_sub_word old new s) = false.
Proof.
  intros Ho Hc H. unfold re_sub_word.
  apply re_sub_no_new_occurrence; auto. now apply m_word_sound.
Qed.

Lemma fold_sub_no_new_occurrence (p : text) (t : table) :
  forallb (fun kv => negb (null (fst kv)) && clash p (snd kv)) t = true ->
  forall s, occurs p s = false ->
    occurs p (fold_left (fun c kv => re_sub_word (fst kv) (snd kv) c) t s) = false.
Proof.
  induction t as [|[k v] t IH]; simpl; intros Ht s Hs; [assumption|].
  apply andb_prop in Ht as [Hkv Ht]. apply andb_prop in Hkv as [Hk Hv].
  apply IH; [assumption|].
  apply re_sub_word_no_new_occurrence; auto.
  intros ->. discriminate.
Qed.

(** ** [replace_icons.py]: what one run makes of a file *)

Module Replace_icons_facts.
Import Replace_icons.

Lemma names : names_ok ICON_MAPPINGS = true.
Proof. vm_compute. reflexivity. Qed.

Lemma fresh : targets_fresh ICON_MAPPINGS = true.
Proof. vm_compute. reflexivity. Qed.

Lemma replace_names_map_words (s : text) :
  replace_names ICON_MAPPINGS s = map_words (rename ICON_MAPPINGS) [] s.
Proof. apply fold_sub_map_words. exact names. Qed.

Lemma process_file_content (content : text) :
  snd (process_file content) = replace_names ICON_MAPPINGS (replace_imports content).
Proof.
  unfold process_file; cbv zeta.
  destruct (text_eqb (replace_names ICON_MAPPINGS (replace_imports content)) content) eqn:E;
    cbn [negb snd]; [|reflexivity].
  apply text_eqb_eq in E. rewrite E. reflexivity.
Qed.

Lemma process_file_flag (content : text) :
  fst (process_file content) = negb (text_eqb (snd (process_file content)) content).
Proof.
  unfold process_file; cbv zeta.
  destruct (text_eqb (replace_names ICON_MAPPINGS (replace_imports content)) content) eqn:E;
    cbn [negb snd fst]; [rewrite text_eqb_refl|rewrite E]; reflexivity.
Qed.

(** The import source no longer occurs after a run. *)
Lemma legacy_gone (content : text) :
  let out := snd (process_file content) in
  occurs legacy_dq out = false /\ occurs legacy_sq out = false.
Proof.
  cbv zeta. rewrite process_file_content. unfold replace_names, replace_imports. split.
  - apply fold_sub_no_new_occurrence; [vm_compute; reflexivity|].
    apply str_replace_no_new_occurrence; [discriminate|vm_compute; reflexivity|].
    apply str_replace_kills; [discriminate|vm_compute; reflexivity].
  - apply fold_sub_no_new_occurrence; [vm_compute; reflexivity|].
    apply str_replace_kills; [discriminate|vm_compute; reflexivity].
Qed.

(** A second run finds nothing to do. *)
Lemma process_file_twice (content : text) :
  process_file (snd (process_file content)) = (false, snd (process_file content)).
Proof.
  destruct (legacy_gone content) as [Hd Hs].
  set (out := snd (process_file content)) in *.
  assert (Hi : replace_imports out = out).
  { unfold replace_imports.
    rewrite (str_replace_absent legacy_dq target_dq out) by (discriminate || assumption).
    apply str_replace_absent; [discriminate|assumption]. }
  assert (Hn : replace_names ICON_MAPPINGS out = out).
  { unfold out at 2. rewrite process_file_content.
    unfold out. rewrite process_file_content.
    rewrite !replace_names_map_words. apply renamed_twice; [exact names|exact fresh]. }
  unfold process_file; cbv zeta. rewrite Hi, Hn, text_eqb_refl. reflexivity.
Qed.
End Replace_icons_facts.

(** ** [replace-lucide-icons.py]: the usage rewriter word by word *)

Module ReplaceLucideIcons_facts.
Import ReplaceLucideIcons.

Lemma lucide_names : names_ok ICON_MAPPINGS = true.
Proof. vm_compute. reflexivity. Qed.

Lemma lucide_fresh : targets_fresh ICON_MAPPINGS = true.
Proof. vm_compute. reflexivity. Qed.

Lemma on_even_ext (f g : text -> text) (parts : list text) :
  (forall p, f p = g p) -> on_even f parts = on_even g parts.
Proof.
  intros H. revert parts.
  fix IH 1. intros [|p [|q rest]]; simpl; [reflexivity|now rewrite H|].
  now rewrite H, IH.
Qed.

Lemma part_map_words (part : text) :
  replace_names ICON_MAPPINGS part = map_words (rename ICON_MAPPINGS) [] part.
Proof. apply fold_sub_map_words. exact lucide_names. Qed.

Lemma in_code_map_words (content : text) :
  replace_icon_names_in_code content ICON_MAPPINGS
  = List.concat (on_even (map_words (rename ICON_MAPPINGS) [])
                   (re_split_capture pattern content)).
Proof.
  unfold replace_icon_names_in_code; cbv zeta. f_equal.
  apply on_even_ext. exact part_map_words.
Qed.

End ReplaceLucideIcons_facts.

Lemma table_forall (P : text -> text -> bool) (t : table) :
  forallb (fun kv => P (fst kv) (snd kv)) t = true ->
  forall k v, In (k, v) t -> P k v = true.
Proof.
  intros H k v Hin. rewrite forallb_forall in H. exact (H (k, v) Hin).
Qed.

Lemma in_keys (t : table) (k v : text) : In (k, v) t -> In k (keys t).
Proof. intros H. unfold keys. apply in_map_iff. now exists (k, v). Qed.

(** * The claims *)

(** ** A file with one legacy import declaration *)

Definition one_import : text :=
  T "import { Edit, Home as H } from 'lucide-react';" ++ NL
    ++ T "<Edit className='Edit' /> <H />".

(** ** C3: identifiers that merely contain a mapped symbol *)

Definition abutting_import : text :=
  T "import { Home } from 'lucide-react';" ++ NL
    ++ T "Editimport { Edit } from 'lucide-react';".

Definition abutting_import_after : text :=
  T "import { House } from " ++ DQ ++ T "@aliimam/icons" ++ DQ ++ T ";" ++ NL
    ++ T "Pencilimport { Edit } from 'lucide-react';".

(** C3 at its failing input: [replace_icon_names_in_code] applies [\b] to the
    pieces that [re.split] cuts at the legacy import declarations, so the
    identifier [Editimport], cut after [Edit], is renamed to [Pencilimport]. *)
Lemma C3_identifier_cut_by_split :
  ReplaceLucideIcons.process_file abutting_import = (true, abutting_import_after)
  /\ In (T "Editimport") (words abutting_import)
  /\ words abutting_import_after
     = [T "import"; T "House"; T "from"; T "aliimam"; T "icons";
        T "Pencilimport"; T "Edit"; T "from"; T "lucide"; T "react"].
Proof.
  split; [vm_compute; reflexivity|]. split; [|vm_compute; reflexivity].
  vm_compute. tauto.
Qed.

(** What does hold of the substitutions themselves: within one text, a word
    that is not an old name of the table stays where it is. *)
Lemma other_words_kept (t : table) (s w : text) (i : nat) :
  names_ok t = true -> ~ In w (keys t) ->
  nth_error (words s) i = Some w ->
  nth_error (words (fold_left (fun c kv => re_sub_word (fst kv) (snd kv) c) t s)) i = Some w.
Proof.
  intros Hn Hw Hi. rewrite fold_sub_map_words by assumption.
  rewrite words_map_words; [|now apply rename_name|now left].
  fold (words s). rewrite nth_error_map, Hi. simpl. f_equal.
  now apply rename_not_key.
Qed.

(** ** Splitting and stripping names *)

Lemma word_not_space (c : ascii) : is_word c = true -> is_space c = false.
Proof.
  destruct c as [[] [] [] [] [] [] [] []]; vm_compute; congruence.
Qed.

Lemma span_none (p : ascii -> bool) (s : text) :
  forallb (fun c => negb (p c)) (firstn 1 s) = true -> span p s = ([], s).
Proof.
  destruct s as [|c s]; simpl; [reflexivity|].
  destruct (p c); [discriminate|reflexivity].
Qed.



Lemma tails_In_suffix (s q : text) :
  In q (tails s) -> exists a c q', q = c :: q' /\ s = a ++ q.
Proof.
  induction s as [|x s IH]; simpl; [tauto|]. intros [<-|H].
  - now exists [], x, s.
  - destruct (IH H) as (a & c & q' & -> & ->). now exists (x :: a), c, q'.
Qed.

Lemma tails_word_first (w q : text) :
  forallb is_word w = true -> In q (tails w) ->
  exists c q', q = c :: q' /\ is_word c = true.
Proof.
  intros Hw Hq. destruct (tails_In_suffix w q Hq) as (a & c & q' & -> & ->).
  rewrite forallb_app in Hw. apply andb_prop in Hw as [_ Hw]. simpl in Hw.
  apply andb_prop in Hw as [Hc _]. now exists c, q'.
Qed.

Section ScanLits.
Variable G : Type.
Variable matcher : option ascii -> text -> option (G * text * text).

Lemma scan_nil (fuel : nat) (prev : option ascii) : scan matcher fuel prev [] = [].
Proof. now destruct fuel. Qed.

(** Characters at which the pattern does not match are copied. *)
Lemma scan_lits (w rest : text) :
  (forall q, In q (tails w) -> forall prev, matcher prev (q ++ rest) = None) ->
  forall fuel prev, List.length (w ++ rest) <= fuel ->
    exists fuel' prev', List.length rest <= fuel' /\
      scan matcher fuel prev (w ++ rest) = map Lit w ++ scan matcher fuel' prev' rest.
Proof.
  induction w as [|c w IH]; intros Hq fuel prev Hlen.
  - now exists fuel, prev.
  - destruct fuel as [|fuel]; [simpl in Hlen; lia|].
    simpl app. simpl scan.
    pose proof (Hq (c :: w) (or_introl eq_refl) prev) as Hm. simpl app in Hm. rewrite Hm.
    destruct (IH (fun q H => Hq q (or_intror H)) fuel (Some c)) as (f' & p' & Hf & E).
    { simpl in Hlen. lia. }
    exists f', p'. split; [assumption|]. simpl. now rewrite E.
Qed.

Lemma split_chunks_lits (keep : bool) (w acc : text) (cs : list (chunk G)) :
  split_chunks keep acc (map Lit w ++ cs) = split_chunks keep (rev w ++ acc) cs.
Proof.
  revert acc; induction w as [|c w IH]; intros acc; simpl; [reflexivity|].
  rewrite IH. now rewrite <- app_assoc.
Qed.
End ScanLits.

(** [(a + sep + b).split(sep)] when [sep] occurs nowhere else. *)
Lemma str_split_once (sep a b : text) :
  sep <> [] ->
  (forall q, In q (tails a) -> strip_prefix sep (q ++ sep ++ b) = None) ->
  (forall q, In q (tails b) -> strip_prefix sep q = None) ->
  str_split sep (a ++ sep ++ b) = [a; b].
Proof.
  intros Hsep Ha Hb. unfold str_split, split_plain, finditer.
  destruct (scan_lits unit (m_literal sep) a (sep ++ b)) with
    (fuel := List.length (a ++ sep ++ b)) (prev := @None ascii)
    as (f1 & p1 & Hf1 & E1); [|apply le_n|].
  { intros q Hq prev. unfold m_literal. now rewrite (Ha q Hq). }
  rewrite E1, split_chunks_lits. clear E1.
  destruct f1 as [|f1].
  { rewrite length_app in Hf1. destruct sep; [congruence|simpl in Hf1; lia]. }
  destruct (sep ++ b) as [|c r] eqn:Esb.
  { destruct sep; [congruence|discriminate]. }
  simpl scan. rewrite <- Esb. unfold m_literal at 1. rewrite strip_prefix_app.
  simpl split_chunks.
  destruct (scan_lits unit (m_literal sep) b []) with
    (fuel := f1) (prev := last_char sep p1) as (f2 & p2 & _ & E2).
  { intros q Hq prev. unfold m_literal. rewrite app_nil_r. now rewrite (Hb q Hq). }
  { rewrite app_nil_r. assert (L : List.length (sep ++ b) = List.length (c :: r)) by now rewrite Esb.
    rewrite length_app in L. simpl in Hf1, L.
    destruct sep; [congruence|simpl in L; lia]. }
  rewrite app_nil_r in E2. rewrite E2, scan_nil.
  rewrite split_chunks_lits. simpl.
  now rewrite !app_nil_r, !rev_involutive.
Qed.

Lemma str_split_names (sep a b : text) (c : ascii) (sep' : text) :
  sep = c :: sep' -> is_word c = false ->
  forallb is_word a = true -> forallb is_word b = true ->
  str_split sep (a ++ sep ++ b) = [a; b].
Proof.
  intros -> Hc Ha Hb. apply str_split_once; [discriminate| |].
  - intros q Hq. destruct (tails_word_first a q Ha Hq) as (x & q' & -> & Hx).
    simpl. destruct (Ascii.eqb c x) eqn:E; [|reflexivity].
    apply Ascii.eqb_eq in E. congruence.
  - intros q Hq. destruct (tails_word_first b q Hb Hq) as (x & q' & -> & Hx).
    simpl. destruct (Ascii.eqb c x) eqn:E; [|reflexivity].
    apply Ascii.eqb_eq in E. congruence.
Qed.

Lemma lookup_not_key (t : table) (k : text) :
  ~ In k (keys t) -> lookup t k = None.
Proof.
  induction t as [|[k' v] t IH]; simpl; intros H; [reflexivity|].
  destruct (text_eqb k' k) eqn:E.
  - apply text_eqb_eq in E. tauto.
  - apply IH. tauto.
Qed.

Lemma keys_are_names (t : table) (k : text) :
  names_ok t = true -> In k (keys t) -> is_name k = true.
Proof.
  intros Hn Hk. unfold keys in Hk. apply in_map_iff in Hk as ([k' v] & <- & Hin).
  unfold names_ok in Hn. rewrite forallb_forall in Hn.
  specialize (Hn _ Hin). simpl in *. now apply andb_prop in Hn.
Qed.


(** ** Aliased specifiers in [replace-lucide-icons.py] *)

Module Alias.
Import ReplaceLucideIcons.


End Alias.

(** ** The import patterns *)

Lemma ws_run_app (plus : bool) (s w rest : text) :
  ws_run plus s = Some (w, rest) -> s = w ++ rest.
Proof.
  unfold ws_run. pose proof (span_app is_space s) as H.
  destruct (span is_space s) as [a b]. simpl in H.
  destruct (plus && null a); [discriminate|]. intros E. now inversion E; subst.
Qed.

Lemma quote_char_app (s : text) (c : ascii) (rest : text) :
  quote_char s = Some (c, rest) -> s = c :: rest.
Proof.
  unfold quote_char. destruct s as [|d r]; [discriminate|].
  destruct (is_quote d); [|discriminate]. intros E. now inversion E.
Qed.

Lemma m_import_sound (plus semi : bool) : sound (m_import plus semi).
Proof.
  intros prev s g m rest H. unfold m_import in H.
  destruct (strip_prefix (T "import") s) as [s1|] eqn:E1; [|discriminate].
  cbn [bind] in H.
  destruct (ws_run plus s1) as [[w1 r1]|] eqn:E2; [|discriminate].
  cbn [bind fst snd] in H.
  destruct (strip_prefix (T "{") r1) as [s2|] eqn:E3; [|discriminate].
  cbn [bind] in H.
  pose proof (span_app (fun c => negb (Ascii.eqb c "}")) s2) as E4.
  destruct (span (fun c => negb (Ascii.eqb c "}")) s2) as [g' s3]. cbn [fst snd] in E4.
  destruct (null g'); [discriminate|].
  destruct (strip_prefix (T "}") s3) as [s4|] eqn:E5; [|discriminate].
  cbn [bind] in H.
  destruct (ws_run plus s4) as [[w2 r2]|] eqn:E6; [|discriminate].
  cbn [bind fst snd] in H.
  destruct (strip_prefix (T "from") r2) as [s5|] eqn:E7; [|discriminate].
  cbn [bind] in H.
  destruct (ws_run plus s5) as [[w3 r3]|] eqn:E8; [|discriminate].
  cbn [bind fst snd] in H.
  destruct (quote_char r3) as [[q1 r4]|] eqn:E9; [|discriminate].
  cbn [bind fst snd] in H.
  destruct (strip_prefix (T "lucide-react") r4) as [s6|] eqn:E10; [|discriminate].
  cbn [bind] in H.
  destruct (quote_char s6) as [[q2 r5]|] eqn:E11; [|discriminate].
  cbn [bind fst snd] in H.
  apply strip_prefix_Some in E1, E3, E5, E7, E10.
  apply ws_run_app in E2, E6, E8. apply quote_char_app in E9, E11.
  assert (Hs : s = (T "import" ++ w1 ++ T "{" ++ g' ++ T "}" ++ w2 ++ T "from"
                     ++ w3 ++ [q1] ++ T "lucide-react" ++ [q2]) ++ r5).
  { subst. rewrite <- !app_assoc. reflexivity. }
  assert (Hfin : forall tail rest',
             r5 = tail ++ rest' ->
             s = (T "import" ++ w1 ++ T "{" ++ g' ++ T "}" ++ w2 ++ T "from" ++ w3 ++ [q1]
                    ++ T "lucide-react" ++ [q2] ++ tail) ++ rest'
             /\ T "import" ++ w1 ++ T "{" ++ g' ++ T "}" ++ w2 ++ T "from" ++ w3 ++ [q1]
                    ++ T "lucide-react" ++ [q2] ++ tail <> []).
  { intros tail rest' ->. split; [|discriminate].
    rewrite Hs. rewrite <- !app_assoc. reflexivity. }
  destruct r5 as [|c r].
  - injection H as <- <- <-. now apply Hfin.
  - destruct (Ascii.eqb c ";") eqn:Ec.
    + apply Ascii.eqb_eq in Ec; subst c.
      destruct semi; injection H as <- <- <-; now apply Hfin.
    + assert (H' : Some (g',
        T "import" ++ w1 ++ T "{" ++ g' ++ T "}" ++ w2 ++ T "from" ++ w3 ++ [q1]
          ++ T "lucide-react" ++ [q2] ++ [], c :: r) = Some (g, m, rest)).
      { destruct c as [[] [] [] [] [] [] [] []]; try exact H; discriminate. }
      injection H' as <- <- <-. now apply Hfin.
Qed.

Section SplitJoin.
Variable G : Type.
Variable matcher : option ascii -> text -> option (G * text * text).
Hypothesis matcher_sound : sound matcher.

Lemma split_chunks_concat (cs : list (chunk G)) :
  forall acc, List.concat (split_chunks true acc cs) = rev acc ++ flat_map (@source G) cs.
Proof.
  induction cs as [|[c|g m] cs IH]; intros acc; simpl.
  - now rewrite !app_nil_r.
  - rewrite IH. simpl. now rewrite <- app_assoc.
  - now rewrite IH.
Qed.

(** [''.join(re.split('(' + pattern + ')', s))] is [s]. *)
Lemma re_split_join (s : text) :
  List.concat (re_split_capture matcher s) = s.
Proof.
  unfold re_split_capture, finditer. rewrite split_chunks_concat. simpl.
  now apply scan_source.
Qed.
End SplitJoin.

(** ** Pieces and entries that change nothing *)

Lemma on_even_id (f : text -> text) (parts : list text) :
  (forall p, In p parts -> f p = p) -> ReplaceLucideIcons.on_even f parts = parts.
Proof.
  revert parts. fix IH 1. intros [|p [|q rest]] H; simpl; [reflexivity| |].
  - rewrite H; [reflexivity|now left].
  - rewrite H by now left. rewrite IH; [reflexivity|].
    intros p' Hp'. apply H. right. now right.
Qed.

(** ** C7: a new name that is already in the file *)

Definition name_taken : text :=
  T "import { Edit } from 'lucide-react';" ++ NL
    ++ T "const Pencil = draw();" ++ NL ++ T "<Edit onClick={Pencil} />".

Definition name_taken_after : text :=
  T "import { Pencil } from " ++ DQ ++ T "@aliimam/icons" ++ DQ ++ T ";" ++ NL
    ++ T "const Pencil = draw();" ++ NL ++ T "<Pencil onClick={Pencil} />".

(** C7, as stated, fails: neither [replace_icons.py] nor
    [replace-lucide-icons.py] looks for a conflict.  A file that already has
    a symbol [Pencil] of its own has its [Edit] renamed to [Pencil] all the
    same and is reported as modified. *)
Lemma C7_conflict_not_detected :
  ReplaceLucideIcons.process_file name_taken = (true, name_taken_after)
  /\ In (T "Pencil") (words name_taken)
  /\ lookup ReplaceLucideIcons.ICON_MAPPINGS (T "Edit") = Some (T "Pencil").
Proof.
  split; [vm_compute; reflexivity|]. split; [|vm_compute; reflexivity].
  vm_compute. tauto.
Qed.

Lemma merged_words (t : table) (old new s : text) (i : nat) :
  names_ok t = true -> targets_fresh t = true ->
  In (old, new) t -> rename t old = new ->
  nth_error (words s) i = Some old \/ nth_error (words s) i = Some new ->
  nth_error (words (fold_left (fun c kv => re_sub_word (fst kv) (snd kv) c) t s)) i
  = Some new.
Proof.
  intros Hn Hf Hin Hr Hi. rewrite fold_sub_map_words by assumption.
  rewrite words_map_words; [|now apply rename_name|now left].
  fold (words s). rewrite nth_error_map.
  destruct Hi as [-> | ->]; simpl; f_equal; [assumption|].
  apply rename_not_key. intros Hk.
  unfold targets_fresh in Hf. rewrite forallb_forall in Hf.
  specialize (Hf (old, new) Hin). simpl in Hf.
  apply mem_In in Hk. rewrite Hk in Hf. discriminate.
Qed.

Lemma lucide_process_file_flag (content : text) :
  fst (ReplaceLucideIcons.process_file content)
  = negb (text_eqb (snd (ReplaceLucideIcons.process_file content)) content).
Proof.
  unfold ReplaceLucideIcons.process_file.
  destruct (negb (occurs (T "lucide-react") content));
    [cbn [fst snd]; now rewrite text_eqb_refl|].
  destruct (ReplaceLucideIcons.extract_lucide_imports content) as [stmt icons].
  destruct (null stmt); [cbn [fst snd]; now rewrite text_eqb_refl|].
  destruct (ReplaceLucideIcons.map_icon_names icons) as [mapped|];
    [|cbn [fst snd]; now rewrite text_eqb_refl].
  match goal with |- context [text_eqb ?a content] => destruct (text_eqb a content) eqn:E end;
    cbn [negb fst snd]; [now rewrite text_eqb_refl|now rewrite E].
Qed.

(** C7 (amended): [replace_icons.py] and [replace-lucide-icons.py] detect no
    conflict and report none.  For every entry [old -> new] of the table, a
    word of the text that is [old] and a word that already is [new] are both
    [new] after the substitutions, and what [process_file] returns is only
    whether the text changed. *)
Theorem C7_names_merged_silently :
  (forall old new part i,
      In (old, new) ReplaceLucideIcons.ICON_MAPPINGS ->
      nth_error (words part) i = Some old \/ nth_error (words part) i = Some new ->
      nth_error (words (ReplaceLucideIcons.replace_names
                          ReplaceLucideIcons.ICON_MAPPINGS part)) i = Some new)
  /\ (forall old new content i,
         In (old, new) Replace_icons.ICON_MAPPINGS ->
         nth_error (words content) i = Some old \/ nth_error (words content) i = Some new ->
         nth_error (words (Replace_icons.replace_names
                             Replace_icons.ICON_MAPPINGS content)) i = Some new)
  /\ (forall content,
         fst (ReplaceLucideIcons.process_file content)
         = negb (text_eqb (snd (ReplaceLucideIcons.process_file content)) content))
  /\ (forall content,
         fst (Replace_icons.process_file content)
         = negb (text_eqb (snd (Replace_icons.process_file content)) content)).
Proof.
  split; [|split; [|split]].
  - intros old new part i Hin Hi. unfold ReplaceLucideIcons.replace_names.
    apply (merged_words _ old new);
      [exact ReplaceLucideIcons_facts.lucide_names
      |exact ReplaceLucideIcons_facts.lucide_fresh|assumption| |assumption].
    apply text_eqb_eq.
    apply (table_forall (fun k v => text_eqb (rename ReplaceLucideIcons.ICON_MAPPINGS k) v)
             ReplaceLucideIcons.ICON_MAPPINGS); [vm_compute; reflexivity|assumption].
  - intros old new content i Hin Hi. unfold Replace_icons.replace_names.
    apply (merged_words _ old new);
      [exact Replace_icons_facts.names|exact Replace_icons_facts.fresh|assumption| |assumption].
    apply text_eqb_eq.
    apply (table_forall (fun k v => text_eqb (rename Replace_icons.ICON_MAPPINGS k) v)
             Replace_icons.ICON_MAPPINGS); [vm_compute; reflexivity|assumption].
  - exact lucide_process_file_flag.
  - exact Replace_icons_facts.process_file_flag.
Qed.

(** ** C8: one line or one specifier per line *)

(** [s.split('\n')] *)
Fixpoint lines_from (acc s : text) : list text :=
  match s with
  | [] => [rev acc]
  | c :: s' =>
      if Ascii.eqb c nl then rev acc :: lines_from [] s'
      else lines_from (c :: acc) s'
  end.

Definition lines (s : text) : list text := lines_from [] s.

Definition no_nl (s : text) : bool := forallb (fun c => negb (Ascii.eqb c nl)) s.

(** One specifier per line, two spaces in front, a comma after all but the
    last. *)
Fixpoint specifier_lines (icons : list text) : list text :=
  match icons with
  | [] => []
  | [i] => [T "  " ++ i]
  | i :: rest => (T "  " ++ i ++ T ",") :: specifier_lines rest
  end.

Lemma lines_from_app (a : text) :
  no_nl a = true -> forall acc s, lines_from acc (a ++ s) = lines_from (rev a ++ acc) s.
Proof.
  induction a as [|c a IH]; intros H acc s; [reflexivity|].
  simpl in H. apply andb_prop in H as [Hc Ha]. simpl.
  destruct (Ascii.eqb c nl); [discriminate|].
  rewrite (IH Ha). now rewrite <- app_assoc.
Qed.

Lemma lines_single (a : text) : no_nl a = true -> lines a = [a].
Proof.
  intros H. unfold lines. rewrite <- (app_nil_r a) at 1.
  rewrite lines_from_app by assumption. simpl. now rewrite app_nil_r, rev_involutive.
Qed.

Lemma lines_cut (a s : text) :
  no_nl a = true -> lines (a ++ nl :: s) = a :: lines s.
Proof.
  intros H. unfold lines. rewrite lines_from_app by assumption. simpl.
  now rewrite app_nil_r, rev_involutive.
Qed.

Lemma no_nl_app (a b : text) : no_nl (a ++ b) = no_nl a && no_nl b.
Proof. apply forallb_app. Qed.

Lemma no_nl_join (sep : text) (l : list text) :
  no_nl sep = true -> forallb no_nl l = true -> no_nl (join sep l) = true.
Proof.
  intros Hs. induction l as [|x l IH]; intros H; [reflexivity|].
  simpl in H. apply andb_prop in H as [Hx Hl].
  destruct l as [|y l]; [exact Hx|].
  change (join sep (x :: y :: l)) with (x ++ sep ++ join sep (y :: l)).
  now rewrite !no_nl_app, Hx, Hs, IH.
Qed.

Lemma lines_specifiers (tail : text) (icons : list text) :
  icons <> [] -> forallb no_nl icons = true ->
  lines (T "  " ++ join (T "," ++ NL ++ T "  ") icons ++ NL ++ tail)
  = specifier_lines icons ++ lines tail.
Proof.
  induction icons as [|i icons IH]; intros Hne H; [congruence|].
  simpl in H. apply andb_prop in H as [Hi Hr].
  destruct icons as [|j icons].
  - simpl join. simpl specifier_lines.
    rewrite (app_assoc (T "  ") i). change (NL ++ tail) with (nl :: tail).
    rewrite lines_cut; [reflexivity|]. now rewrite no_nl_app, Hi.
  - assert (Hcut : T "  " ++ join (T "," ++ NL ++ T "  ") (i :: j :: icons) ++ NL ++ tail
                  = (T "  " ++ i ++ T ",") ++ nl
                      :: (T "  " ++ join (T "," ++ NL ++ T "  ") (j :: icons) ++ NL ++ tail)).
    { change (join (T "," ++ NL ++ T "  ") (i :: j :: icons))
        with (i ++ (T "," ++ NL ++ T "  ") ++ join (T "," ++ NL ++ T "  ") (j :: icons)).
      generalize (join (T "," ++ NL ++ T "  ") (j :: icons)) as rest. intros rest.
      simpl. f_equal. f_equal. rewrite <- !app_assoc. reflexivity. }
    rewrite Hcut, lines_cut by (now rewrite !no_nl_app, Hi).
    rewrite (IH ltac:(discriminate) Hr). reflexivity.
Qed.

Definition four_icons : text := T "import { Sun, Moon, Star, Heart } from 'lucide-react'".

Definition four_icons_after : text :=
  T "import { Sun, Moon, Star, Heart } from " ++ DQ ++ T "@aliimam/icons" ++ DQ.

(** C8, as stated, fails on [replace-icons.py]: its declaration is one line
    whatever the number of specifiers, here four. *)
Lemma C8_four_on_one_line :
  ReplaceIcons.process_file four_icons = ReplaceIcons.Done true "Updated" four_icons_after
  /\ lines four_icons_after = [four_icons_after]
  /\ ReplaceLucideIcons.threshold = 3.
Proof. split; [vm_compute; reflexivity|]. split; vm_compute; reflexivity. Qed.

(** C8 (amended): for specifiers that hold no line break, the declaration
    of [replace-lucide-icons.py] is one line for at most [threshold] = 3
    specifiers and, for more, one specifier per line, each behind two spaces,
    between [import {] and the closing line.  The declaration of
    [replace-icons.py] is one line whatever their number. *)
Theorem C8_threshold_layout (mapped : list text) :
  forallb no_nl mapped = true ->
  (List.length mapped <= ReplaceLucideIcons.threshold ->
   lines (ReplaceLucideIcons.new_import mapped)
   = [T "import { " ++ join (T ", ") mapped ++ T " } from "
        ++ DQ ++ T "@aliimam/icons" ++ DQ ++ T ";"])
  /\ (ReplaceLucideIcons.threshold < List.length mapped ->
      lines (ReplaceLucideIcons.new_import mapped)
      = T "import {" :: specifier_lines mapped
          ++ [T "} from " ++ DQ ++ T "@aliimam/icons" ++ DQ ++ T ";"])
  /\ lines (ReplaceIcons.new_module_decl mapped) = [ReplaceIcons.new_module_decl mapped].
Proof.
  intros H.
  assert (Hj : no_nl (join (T ", ") mapped) = true) by (apply no_nl_join; auto).
  split; [|split].
  - intros Hlen. unfold ReplaceLucideIcons.new_import.
    apply Nat.leb_le in Hlen. rewrite Hlen.
    apply lines_single. now rewrite !no_nl_app, Hj.
  - intros Hlen. unfold ReplaceLucideIcons.new_import.
    apply Nat.leb_gt in Hlen. rewrite Hlen. cbv zeta.
    change (T "import {" ++ NL ++ T "  " ++ join (T "," ++ NL ++ T "  ") mapped ++ NL
              ++ T "} from " ++ DQ ++ T "@aliimam/icons" ++ DQ ++ T ";")
      with (T "import {" ++ nl :: (T "  " ++ join (T "," ++ NL ++ T "  ") mapped ++ NL
              ++ (T "} from " ++ DQ ++ T "@aliimam/icons" ++ DQ ++ T ";"))).
    rewrite lines_cut by reflexivity. f_equal.
    rewrite lines_specifiers; [|intros ->; apply Nat.leb_gt in Hlen; simpl in Hlen; lia|assumption].
    f_equal.
  - unfold ReplaceIcons.new_module_decl. apply lines_single.
    now rewrite !no_nl_app, Hj.
Qed.

Lemma C8_threshold_layout_witness :
  lines (ReplaceLucideIcons.new_import [T "Sun"; T "Moon"; T "Star"])
  = [T "import { Sun, Moon, Star } from " ++ DQ ++ T "@aliimam/icons" ++ DQ ++ T ";"]
  /\ lines (ReplaceLucideIcons.new_import [T "Sun"; T "Moon"; T "Star"; T "Heart"])
     = [T "import {"; T "  Sun,"; T "  Moon,"; T "  Star,"; T "  Heart";
        T "} from " ++ DQ ++ T "@aliimam/icons" ++ DQ ++ T ";"].
Proof.
  split.
  - apply (proj1 (C8_threshold_layout [T "Sun"; T "Moon"; T "Star"] eq_refl)).
    apply le_n.
  - apply (proj1 (proj2 (C8_threshold_layout [T "Sun"; T "Moon"; T "Star"; T "Heart"] eq_refl))).
    apply le_n.
Defined.

(** ** C9: the specifier list of the import *)

Definition trailing_comma : text := T "import { Sun, Moon, } from 'lucide-react'".

Definition trailing_comma_after : text :=
  T "import { Sun, Moon,  } from " ++ DQ ++ T "@aliimam/icons" ++ DQ.

(** C9 at its failing input: [replace-icons.py] keeps the empty piece that
    [split(',')] yields after a trailing comma; the empty specifier goes
    through the mapping and is joined into the new declaration. *)
Lemma C9_empty_specifier_kept :
  re_search ReplaceIcons.pattern trailing_comma
  = Some (T " Sun, Moon, ", trailing_comma)
  /\ map strip (str_split (T ",") (T " Sun, Moon, ")) = [T "Sun"; T "Moon"; []]
  /\ ReplaceIcons.process_file trailing_comma
     = ReplaceIcons.Done true "Updated" trailing_comma_after.
Proof. split; [vm_compute; reflexivity|]. split; vm_compute; reflexivity. Qed.

(** The sibling [extract_lucide_imports] of [replace-lucide-icons.py] drops
    the empty pieces: no specifier it returns is empty. *)
Lemma extract_no_empty_specifier (content : text) :
  ~ In [] (snd (ReplaceLucideIcons.extract_lucide_imports content)).
Proof.
  unfold ReplaceLucideIcons.extract_lucide_imports.
  destruct (re_search ReplaceLucideIcons.pattern content) as [[imports_text stmt]|];
    [|simpl; tauto].
  cbn [snd]. intros H. apply in_map_iff in H as (icon & E & Hin).
  apply filter_In in Hin as [_ Hf]. rewrite E in Hf. discriminate.
Qed.

(** ** Texts that a substitution cannot touch *)

(** No match holds [c0] after its first character. *)
Definition tail_free {G : Type}
  (matcher : option ascii -> text -> option (G * text * text)) (c0 : ascii) : Prop :=
  forall prev s g c mt rest, matcher prev s = Some (g, c :: mt, rest) -> ~ In c0 mt.

(** No match starts inside [k]. *)
Definition no_start {G : Type}
  (matcher : option ascii -> text -> option (G * text * text)) (k : text) : Prop :=
  forall q, In q (tails k) -> forall prev b, matcher prev (q ++ b) = None.

Lemma app_split_notin (c0 : ascii) (m a t r : text) :
  a ++ c0 :: t = m ++ r -> ~ In c0 m ->
  exists a2, a = m ++ a2 /\ r = a2 ++ c0 :: t.
Proof.
  revert a; induction m as [|y m IH]; intros a E Hn.
  - exists a. simpl in E. now split.
  - destruct a as [|x a]; simpl in E.
    + inversion E; subst. exfalso. apply Hn. now left.
    + inversion E; subst. destruct (IH a H1) as (a2 & -> & ->).
      * intros Hin. apply Hn. now right.
      * now exists a2.
Qed.

Lemma flat_map_lits (G : Type) (f : chunk G -> text) (w : text) :
  (forall c, f (Lit c) = [c]) -> flat_map f (map Lit w) = w.
Proof.
  intros H. induction w as [|c w IH]; simpl; [reflexivity|]. now rewrite H, IH.
Qed.

Section Kernel.
Variable G : Type.
Variable matcher : option ascii -> text -> option (G * text * text).
Hypothesis matcher_sound : sound matcher.
Variable c0 : ascii.
Variable k' : text.
Hypothesis matcher_tail_free : tail_free matcher c0.
Hypothesis matcher_no_start : no_start matcher (c0 :: k').

(** The characters of the kernel are copied by the scan. *)
Lemma scan_kernel (fuel : nat) :
  forall a b prev, List.length (a ++ (c0 :: k') ++ b) <= fuel ->
    exists cs1 cs2,
      scan matcher fuel prev (a ++ (c0 :: k') ++ b) = cs1 ++ map Lit (c0 :: k') ++ cs2.
Proof.
  induction fuel as [|fuel IH]; intros a b prev Hlen.
  - rewrite length_app in Hlen. simpl in Hlen. lia.
  - destruct a as [|x a].
    + destruct (scan_lits G matcher (c0 :: k') b) with (fuel := S fuel) (prev := prev)
        as (f' & p' & _ & E).
      * intros q Hq prev'. now apply matcher_no_start.
      * exact Hlen.
      * exists [], (scan matcher f' p' b). exact E.
    + simpl app. simpl scan.
      destruct (matcher prev (x :: a ++ c0 :: k' ++ b)) as [[[g m] rest]|] eqn:E.
      * destruct (matcher_sound _ _ _ _ _ E) as [Hs Hm].
        destruct m as [|y m]; [congruence|]. simpl in Hs. inversion Hs; subst y.
        destruct (app_split_notin c0 m a (k' ++ b) rest H1) as (a2 & -> & ->).
        { eapply matcher_tail_free. exact E. }
        destruct (IH a2 b (last_char (x :: m) prev)) as (cs1 & cs2 & E').
        { clear -Hlen. simpl in Hlen |- *.
          repeat (rewrite length_app in Hlen; simpl in Hlen).
          repeat (rewrite length_app; simpl). lia. }
        exists (Hit g (x :: m) :: cs1), cs2. simpl in E'. simpl. now rewrite E'.
      * destruct (IH a b (Some x)) as (cs1 & cs2 & E').
        { clear -Hlen. simpl in Hlen |- *. lia. }
        exists (Lit x :: cs1), cs2. simpl in E'. simpl. now rewrite E'.
Qed.

(** A substitution keeps the kernel where it is held. *)
Lemma re_sub_holds (repl : G -> text -> text) (s : text) :
  holds (c0 :: k') s -> holds (c0 :: k') (re_sub matcher repl s).
Proof.
  intros (a & b & ->). unfold re_sub, finditer.
  destruct (scan_kernel (List.length (a ++ (c0 :: k') ++ b)) a b None (le_n _))
    as (cs1 & cs2 & ->).
  rewrite !flat_map_app, flat_map_lits by reflexivity.
  now exists (flat_map (render repl) cs1), (flat_map (render repl) cs2).
Qed.
End Kernel.

(** ** The tag patterns of [replace-icons.py] *)

(** What [(\s|/>|>)] captures. *)
Definition is_delim (g : text) : Prop :=
  (exists c, g = [c] /\ is_space c = true) \/ g = T "/>" \/ g = T ">".

(** A character that no tag match holds after its [<]. *)
Definition inert (c : ascii) : bool :=
  negb (is_word c) && negb (is_space c) && negb (Ascii.eqb c "/") && negb (Ascii.eqb c ">").

Lemma word_not_mark (c : ascii) :
  is_word c = true ->
  Ascii.eqb c "/" = false /\ Ascii.eqb c ">" = false /\ Ascii.eqb c "<" = false.
Proof.
  destruct c as [[] [] [] [] [] [] [] []]; vm_compute; intros H;
    repeat split; congruence.
Qed.

Lemma m_tag_open_shape (name : text) prev s g m rest :
  m_tag_open name prev s = Some (g, m, rest) ->
  m = "<"%char :: name ++ g /\ s = m ++ rest /\ is_delim g.
Proof.
  unfold m_tag_open.
  destruct (strip_prefix ("<"%char :: name) s) as [[|c r]|] eqn:E; try discriminate.
  apply strip_prefix_Some in E.
  destruct (is_space c) eqn:Hs.
  - intros H; injection H as <- <- <-. split; [reflexivity|]. split.
    + rewrite E. simpl. now rewrite <- app_assoc.
    + left. now exists c.
  - destruct (Ascii.eqb c "/") eqn:Hc.
    + apply Ascii.eqb_eq in Hc; subst c.
      destruct r as [|d r]; [discriminate|].
      destruct (Ascii.eqb d ">") eqn:Hd.
      * apply Ascii.eqb_eq in Hd; subst d. intros H; injection H as <- <- <-.
        split; [reflexivity|]. split; [|right; now left].
        rewrite E. simpl. now rewrite <- app_assoc.
      * intros H. exfalso.
        destruct d as [[] [] [] [] [] [] [] []]; try discriminate H; discriminate Hd.
    + destruct (Ascii.eqb c ">") eqn:Hd; [|discriminate].
      apply Ascii.eqb_eq in Hd; subst c. intros H; injection H as <- <- <-.
      split; [reflexivity|]. split; [|right; now right].
      rewrite E. simpl. now rewrite <- app_assoc.
Qed.

Lemma m_tag_open_sound (name : text) : sound (m_tag_open name).
Proof.
  intros prev s g m rest H.
  destruct (m_tag_open_shape name prev s g m rest H) as (-> & -> & _).
  split; [reflexivity|discriminate].
Qed.

Lemma m_tag_close_sound (name : text) : sound (m_tag_close name).
Proof. apply m_literal_sound. discriminate. Qed.

Lemma inert_facts (c : ascii) :
  inert c = true ->
  is_word c = false /\ is_space c = false /\ c <> "/"%char /\ c <> ">"%char.
Proof.
  unfold inert. intros H.
  apply andb_prop in H as [H H4]. apply andb_prop in H as [H H3].
  apply andb_prop in H as [H1 H2].
  repeat split.
  - now destruct (is_word c).
  - now destruct (is_space c).
  - intros ->. discriminate.
  - intros ->. discriminate.
Qed.

Lemma name_without (c0 : ascii) (name : text) :
  is_word c0 = false -> forallb is_word name = true -> ~ In c0 name.
Proof.
  intros H0 Hn Hin. rewrite forallb_forall in Hn. specialize (Hn c0 Hin). congruence.
Qed.

Lemma delim_without (c0 : ascii) (g : text) :
  inert c0 = true -> is_delim g -> ~ In c0 g.
Proof.
  intros Hi Hg Hin. destruct (inert_facts c0 Hi) as (_ & Hs & H1 & H2).
  destruct Hg as [(c & -> & Hc)|[-> | ->]]; simpl in Hin.
  - destruct Hin as [->|[]]. congruence.
  - destruct Hin as [E|[E|[]]]; congruence.
  - destruct Hin as [E|[]]; congruence.
Qed.

Lemma m_tag_open_tail_free (name : text) (c0 : ascii) :
  is_name name = true -> inert c0 = true -> tail_free (m_tag_open name) c0.
Proof.
  intros Hn Hi prev s g c mt rest H.
  destruct (m_tag_open_shape name prev s g _ rest H) as (E & _ & Hg).
  injection E as _ ->. intros Hin. apply in_app_or in Hin as [Hin|Hin].
  - revert Hin. apply name_without; [apply (inert_facts c0 Hi)|now apply is_name_forallb].
  - revert Hin. now apply delim_without.
Qed.

Lemma m_tag_close_tail_free (name : text) (c0 : ascii) :
  is_name name = true -> inert c0 = true -> tail_free (m_tag_close name) c0.
Proof.
  intros Hn Hi prev s g c mt rest H. unfold m_tag_close, m_literal in H.
  destruct (strip_prefix (T "</" ++ name ++ T ">") s); [|discriminate].
  injection H as _ _ <- _. destruct (inert_facts c0 Hi) as (Hw & _ & H1 & H2).
  simpl. intros [E|Hin]; [congruence|].
  apply in_app_or in Hin as [Hin|[E|[]]]; [|congruence].
  revert Hin. apply name_without; [assumption|now apply is_name_forallb].
Qed.

Lemma tags_need_lt (name : text) (c : ascii) (t : text) prev :
  Ascii.eqb c "<" = false ->
  m_tag_open name prev (c :: t) = None /\ m_tag_close name prev (c :: t) = None.
Proof.
  intros H. rewrite Ascii.eqb_sym in H. split.
  - unfold m_tag_open.
    change (strip_prefix ("<"%char :: name) (c :: t))
      with (if Ascii.eqb "<" c then strip_prefix name t else None).
    now rewrite H.
  - unfold m_tag_close, m_literal.
    change (strip_prefix (T "</" ++ name ++ T ">") (c :: t))
      with (if Ascii.eqb "<" c then strip_prefix ("/"%char :: name ++ T ">") t else None).
    now rewrite H.
Qed.

Lemma lt_free_no_start (name k : text) :
  lt_free k = true ->
  no_start (m_tag_open name) k /\ no_start (m_tag_close name) k.
Proof.
  intros Hk.
  assert (H : forall q, In q (tails k) -> exists c q', q = c :: q' /\ Ascii.eqb c "<" = false).
  { intros q Hq. destruct (tails_In_suffix k q Hq) as (a & c & q' & -> & ->).
    unfold lt_free in Hk. rewrite forallb_app in Hk. apply andb_prop in Hk as [_ Hk].
    simpl in Hk. apply andb_prop in Hk as [Hc _]. exists c, q'. split; [reflexivity|].
    now destruct (Ascii.eqb c "<"). }
  split; intros q Hq prev b; destruct (H q Hq) as (c & q' & -> & Hc);
    now apply tags_need_lt.
Qed.

Lemma no_start_cons (G : Type)
  (matcher : option ascii -> text -> option (G * text * text)) (c : ascii) (k : text) :
  (forall prev b, matcher prev ((c :: k) ++ b) = None) ->
  no_start matcher k -> no_start matcher (c :: k).
Proof.
  intros H0 Hk q [<-|Hq] prev b; [apply H0|now apply Hk].
Qed.

Lemma replace_tags_holds (key new : text) (c0 : ascii) (k' s : text) :
  is_name key = true -> inert c0 = true ->
  no_start (m_tag_open key) (c0 :: k') -> no_start (m_tag_close key) (c0 :: k') ->
  holds (c0 :: k') s -> holds (c0 :: k') (ReplaceIcons.replace_tags key new s).
Proof.
  intros Hn Hi Ho Hc H. unfold ReplaceIcons.replace_tags.
  apply re_sub_holds.
  - apply m_tag_close_sound.
  - now apply m_tag_close_tail_free.
  - assumption.
  - apply re_sub_holds; [apply m_tag_open_sound|now apply m_tag_open_tail_free| |]; assumption.
Qed.

Lemma fold_tags_holds (icons_str : text) (c0 : ascii) (k' : text) (t : table) :
  names_ok t = true -> inert c0 = true ->
  (forall key, In key (keys t) ->
     no_start (m_tag_open key) (c0 :: k') /\ no_start (m_tag_close key) (c0 :: k')) ->
  forall s, holds (c0 :: k') s ->
    holds (c0 :: k')
      (fold_left (fun c kv => if occurs (fst kv) icons_str
                              then ReplaceIcons.replace_tags (fst kv) (snd kv) c else c) t s).
Proof.
  intros Hn Hi. induction t as [|[key new] t IH]; intros Hk s Hs; [assumption|].
  simpl in Hn. apply andb_prop in Hn as [Hkn Hn]. apply andb_prop in Hkn as [Hkey _].
  simpl. apply IH.
  - assumption.
  - intros key' Hin. apply Hk. now right.
  - destruct (occurs key icons_str); [|assumption].
    destruct (Hk key (or_introl eq_refl)) as [Ho Hc].
    now apply replace_tags_holds.
Qed.

(** Comparing a name of the table with the name at a tag. *)
Lemma name_prefix_eq (key : text) :
  forall e t r,
    forallb is_word key = true -> forallb is_word e = true ->
    wordy (hd_error t) = false ->
    strip_prefix key (e ++ t) = Some r -> wordy (hd_error r) = false ->
    key = e.
Proof.
  induction key as [|k key IH]; intros e t r Hk He Ht Hs Hr.
  - simpl in Hs. injection Hs as <-. destruct e as [|x e]; [reflexivity|].
    simpl in He, Hr. apply andb_prop in He as [Hx _]. congruence.
  - simpl in Hk. apply andb_prop in Hk as [Hk0 Hk].
    destruct e as [|x e].
    + simpl in Hs. destruct t as [|c t]; [discriminate|].
      destruct (Ascii.eqb k c) eqn:E; [|discriminate].
      apply Ascii.eqb_eq in E. subst c. simpl in Ht. congruence.
    + simpl in Hs, He. apply andb_prop in He as [_ He].
      destruct (Ascii.eqb k x) eqn:E; [|discriminate].
      apply Ascii.eqb_eq in E. subst x. f_equal. now apply (IH e t r).
Qed.

Lemma strip_prefix_app_l (p1 p2 s : text) :
  strip_prefix (p1 ++ p2) s = bind (strip_prefix p1 s) (strip_prefix p2).
Proof.
  revert s; induction p1 as [|a p1 IH]; intros s; simpl.
  - reflexivity.
  - destruct s as [|b s]; [reflexivity|]. destruct (Ascii.eqb a b); [apply IH|reflexivity].
Qed.

Lemma delim_head (g b : text) : is_delim g -> wordy (hd_error (g ++ b)) = false.
Proof.
  intros [(c & -> & Hc)|[-> | ->]]; simpl; try reflexivity.
  destruct (is_word c) eqn:E; [|reflexivity].
  apply word_not_space in E. congruence.
Qed.

Lemma delim_lt_free (g : text) : is_delim g -> lt_free g = true.
Proof.
  intros [(c & -> & Hc)|[-> | ->]]; try reflexivity.
  unfold lt_free. simpl. destruct (Ascii.eqb c "<") eqn:E; [|reflexivity].
  apply Ascii.eqb_eq in E. subst c. discriminate.
Qed.

Lemma name_lt_free (e : text) : forallb is_word e = true -> lt_free e = true.
Proof.
  intros H. unfold lt_free. rewrite forallb_forall in *. intros c Hc.
  destruct (word_not_mark c (H c Hc)) as (_ & _ & E). now rewrite E.
Qed.

(** An opening tag of another name is no match of the patterns of [key]. *)
Lemma open_tag_no_start (key e g : text) :
  is_name key = true -> is_name e = true -> key <> e -> is_delim g ->
  no_start (m_tag_open key) ("<"%char :: e ++ g)
  /\ no_start (m_tag_close key) ("<"%char :: e ++ g).
Proof.
  intros Hk He Hne Hg.
  assert (Hfree : lt_free (e ++ g) = true).
  { unfold lt_free. rewrite forallb_app.
    fold (lt_free e). fold (lt_free g).
    rewrite name_lt_free by now apply is_name_forallb. now rewrite delim_lt_free. }
  destruct (lt_free_no_start key (e ++ g) Hfree) as [Ho Hc].
  split; apply no_start_cons; try assumption; intros prev b.
  - unfold m_tag_open.
    change (strip_prefix ("<"%char :: key) (("<"%char :: e ++ g) ++ b))
      with (strip_prefix key ((e ++ g) ++ b)).
    rewrite <- app_assoc.
    destruct (strip_prefix key (e ++ g ++ b)) as [[|c r]|] eqn:E; try reflexivity.
    destruct (is_word c) eqn:Hc'.
    + rewrite (word_not_space c Hc').
      destruct (word_not_mark c Hc') as (-> & -> & _). reflexivity.
    + exfalso. apply Hne.
      apply (name_prefix_eq key e (g ++ b) (c :: r)); auto using is_name_forallb.
      now apply delim_head.
  - unfold m_tag_close, m_literal.
    destruct (is_name_cons e He) as (x & e' & -> & Hx & _).
    change (strip_prefix (T "</" ++ key ++ T ">") (("<"%char :: (x :: e') ++ g) ++ b))
      with (if Ascii.eqb "/" x then strip_prefix (key ++ T ">") ((e' ++ g) ++ b) else None).
    destruct (word_not_mark x Hx) as (E & _ & _).
    rewrite Ascii.eqb_sym in E. now rewrite E.
Qed.

(** A closing tag of another name is no match of the patterns of [key]. *)
Lemma close_tag_no_start (key e : text) :
  is_name key = true -> is_name e = true -> key <> e ->
  no_start (m_tag_open key) (T "</" ++ e ++ T ">")
  /\ no_start (m_tag_close key) (T "</" ++ e ++ T ">").
Proof.
  intros Hk He Hne.
  assert (Hfree : lt_free ("/"%char :: e ++ T ">") = true).
  { unfold lt_free. simpl. rewrite forallb_app. fold (lt_free e).
    now rewrite name_lt_free by now apply is_name_forallb. }
  destruct (lt_free_no_start key _ Hfree) as [Ho Hc].
  change (T "</" ++ e ++ T ">") with ("<"%char :: "/"%char :: e ++ T ">").
  split; apply no_start_cons; try assumption; intros prev b.
  - unfold m_tag_open.
    destruct (is_name_cons key Hk) as (x & key' & -> & Hx & _).
    change (strip_prefix ("<"%char :: x :: key') (("<"%char :: "/"%char :: e ++ T ">") ++ b))
      with (if Ascii.eqb x "/" then strip_prefix key' ((e ++ T ">") ++ b) else None).
    destruct (word_not_mark x Hx) as (-> & _ & _). reflexivity.
  - unfold m_tag_close, m_literal.
    change (strip_prefix (T "</" ++ key ++ T ">") (("<"%char :: "/"%char :: e ++ T ">") ++ b))
      with (strip_prefix (key ++ T ">") ((e ++ T ">") ++ b)).
    rewrite strip_prefix_app_l, <- app_assoc.
    destruct (strip_prefix key (e ++ T ">" ++ b)) as [r|] eqn:E; [|reflexivity].
    cbn [bind]. destruct (strip_prefix (T ">") r) as [r'|] eqn:E'; [|reflexivity].
    exfalso. apply Hne. apply strip_prefix_Some in E'. subst r.
    apply (name_prefix_eq key e (T ">" ++ b) (T ">" ++ r')); auto using is_name_forallb.
Qed.

(** ** [replace-icons.py]: one run *)

(** The specifiers of the import, as [process_file] splits them. *)
Definition specifiers (icons_str : text) : list text :=
  map strip (str_split (T ",") icons_str).

Definition excluded (icons_str : text) : list text :=
  filter (fun i => mem i ReplaceIcons.MISSING_ICONS) (specifiers icons_str).

Definition migratable (icons_str : text) : list text :=
  filter (fun i => negb (mem i ReplaceIcons.MISSING_ICONS)) (specifiers icons_str).

(** The text that [process_file] substitutes for the import statements. *)
Definition import_for (icons_str : text) : text :=
  ReplaceIcons.build_import
    (map (get_or_self ReplaceIcons.ICON_MAPPINGS) (migratable icons_str))
    (excluded icons_str).

(** What a run that rewrites returns, given the rewritten text. *)
Definition report (content rewritten : text) : ReplaceIcons.outcome :=
  if text_eqb rewritten content
  then ReplaceIcons.Done false "No changes needed" content
  else ReplaceIcons.Done true "Updated" rewritten.

Lemma first_hit_split (G : Type) (cs : list (chunk G)) (g : G) (m : text) :
  first_hit cs = Some (g, m) ->
  exists pre cs', cs = map Lit pre ++ Hit g m :: cs'.
Proof.
  induction cs as [|[c|g' m'] cs IH]; simpl; intros H; [discriminate| |].
  - destruct (IH H) as (pre & cs' & ->). now exists (c :: pre), cs'.
  - injection H as -> ->. now exists [], cs.
Qed.

Lemma replace_icons_run (content icons_str stmt : text) :
  re_search ReplaceIcons.pattern content = Some (icons_str, stmt) ->
  migratable icons_str <> [] ->
  existsb (Ascii.eqb backslash) (import_for icons_str) = false ->
  ReplaceIcons.process_file content
  = report content
      (ReplaceIcons.replace_usages icons_str
         (re_sub ReplaceIcons.pattern (fun _ _ => import_for icons_str) content)).
Proof.
  intros Hs Hm Hb. unfold ReplaceIcons.process_file. rewrite Hs. cbv zeta.
  fold (specifiers icons_str). fold (migratable icons_str). fold (excluded icons_str).
  destruct (migratable icons_str) as [|i l] eqn:E; [congruence|].
  rewrite <- E. fold (import_for icons_str). rewrite Hb.
  unfold report.
  destruct (text_eqb (ReplaceIcons.replace_usages icons_str
              (re_sub ReplaceIcons.pattern (fun _ _ => import_for icons_str) content))
              content); reflexivity.
Qed.

(** ** [replace-icons.py]: the declaration that stays on the legacy module *)

Lemma forallb_join (p : ascii -> bool) (sep : text) (l : list text) :
  forallb p sep = true -> forallb (forallb p) l = true -> forallb p (join sep l) = true.
Proof.
  intros Hs. induction l as [|x l IH]; intros H; [reflexivity|].
  simpl in H. apply andb_prop in H as [Hx Hl].
  destruct l as [|y l]; [exact Hx|].
  change (join sep (x :: y :: l)) with (x ++ sep ++ join sep (y :: l)).
  now rewrite !forallb_app, Hx, Hs, IH.
Qed.

Lemma excluded_spec (icons_str e : text) :
  In e (excluded icons_str)
  <-> In e (specifiers icons_str) /\ In e ReplaceIcons.MISSING_ICONS.
Proof.
  unfold excluded. rewrite filter_In, mem_In. tauto.
Qed.

Lemma missing_are_names (e : text) :
  In e ReplaceIcons.MISSING_ICONS ->
  is_name e = true /\ ~ In e (keys ReplaceIcons.ICON_MAPPINGS).
Proof.
  intros H.
  assert (Hall : forallb (fun e => is_name e && negb (mem e (keys ReplaceIcons.ICON_MAPPINGS)))
                   ReplaceIcons.MISSING_ICONS = true) by (vm_compute; reflexivity).
  rewrite forallb_forall in Hall. specialize (Hall e H).
  apply andb_prop in Hall as [Hn Hk]. split; [assumption|].
  rewrite <- mem_In. now destruct (mem e (keys ReplaceIcons.ICON_MAPPINGS)).
Qed.

Lemma replace_icons_names : names_ok ReplaceIcons.ICON_MAPPINGS = true.
Proof. vm_compute. reflexivity. Qed.

(** The end of the new declaration followed by the legacy declaration. *)
Definition residual (icons_str : text) : text :=
  T "} from " ++ DQ ++ T "@aliimam/icons" ++ DQ ++ NL
    ++ ReplaceIcons.legacy_decl (excluded icons_str).

Lemma residual_lt_free (icons_str : text) : lt_free (residual icons_str) = true.
Proof.
  unfold residual, ReplaceIcons.legacy_decl, lt_free.
  rewrite !forallb_app.
  assert (Hj : forallb (fun c => negb (Ascii.eqb c "<"))
                 (join (T ", ") (excluded icons_str)) = true).
  { apply forallb_join; [reflexivity|]. rewrite forallb_forall. intros e He.
    apply excluded_spec in He as [_ He].
    apply name_lt_free, is_name_forallb. now apply missing_are_names. }
  rewrite Hj. reflexivity.
Qed.

Lemma import_for_holds_residual (icons_str : text) :
  excluded icons_str <> [] -> holds (residual icons_str) (import_for icons_str).
Proof.
  intros He. unfold import_for, ReplaceIcons.build_import, ReplaceIcons.new_module_decl.
  destruct (excluded icons_str) as [|e l] eqn:E; [congruence|]. rewrite <- E.
  exists (T "import { "
            ++ join (T ", ") (map (get_or_self ReplaceIcons.ICON_MAPPINGS) (migratable icons_str))
            ++ T " "), [].
  unfold residual. rewrite <- !app_assoc, app_nil_r. reflexivity.
Qed.

Lemma holds_in_context (k s a b : text) : holds k s -> holds k (a ++ s ++ b).
Proof.
  intros (x & y & ->). exists (a ++ x), (y ++ b). now rewrite <- !app_assoc.
Qed.

Lemma replace_usages_holds (icons_str : text) (c0 : ascii) (k' s : text) :
  inert c0 = true ->
  (forall key, In key (keys ReplaceIcons.ICON_MAPPINGS) ->
     no_start (m_tag_open key) (c0 :: k') /\ no_start (m_tag_close key) (c0 :: k')) ->
  holds (c0 :: k') s -> holds (c0 :: k') (ReplaceIcons.replace_usages icons_str s).
Proof.
  intros Hi Hk Hs. unfold ReplaceIcons.replace_usages.
  apply fold_tags_holds; [exact replace_icons_names|assumption|assumption|assumption].
Qed.

(** * Further properties of the scripts *)

(** ** The matches of a scan *)

Section ScanHits.
Variable G : Type.
Variable matcher : option ascii -> text -> option (G * text * text).

(** Every match of a scan is an answer of the matcher. *)
Lemma scan_hits (fuel : nat) :
  forall s prev,
    Forall (fun k => match k with
                     | Lit _ => True
                     | Hit g m => exists p t rest, matcher p t = Some (g, m, rest)
                     end) (scan matcher fuel prev s).
Proof.
  induction fuel as [|fuel IH]; intros s prev; [constructor|].
  destruct s as [|c s]; [constructor|]. simpl.
  destruct (matcher prev (c :: s)) as [[[g m] rest]|] eqn:E.
  - constructor; [|apply IH]. now exists prev, (c :: s), rest.
  - constructor; [exact I|apply IH].
Qed.
End ScanHits.

Lemma m_word_match (name : text) prev s g m rest :
  m_word name prev s = Some (g, m, rest) -> m = name.
Proof.
  unfold m_word. destruct (at_boundary prev s); [|discriminate].
  destruct (strip_prefix name s) as [r|]; [|discriminate].
  destruct (at_boundary (last_char name prev) r); [|discriminate].
  intros H. now injection H as _ <- _.
Qed.

Section NoHit.
Variable k : text.
Variable x : ascii.

Let longer (cs : list (chunk unit)) : text :=
  flat_map (render (fun _ _ => k ++ [x])) cs.

Lemma longer_length (cs : list (chunk unit)) :
  Forall (fun c => match c with Lit _ => True | Hit _ m => m = k end) cs ->
  List.length (flat_map (@source unit) cs) <= List.length (longer cs).
Proof.
  unfold longer.
  induction 1 as [|[c|g m] cs Hc _ IH]; [apply le_n| |].
  - simpl. lia.
  - subst m. cbn [flat_map source render].
    rewrite !length_app. cbn [List.length]. lia.
Qed.

(** Replacing every match by a longer text changes the text unless there
    is no match. *)
Lemma same_text_no_hit (cs : list (chunk unit)) :
  Forall (fun c => match c with Lit _ => True | Hit _ m => m = k end) cs ->
  longer cs = flat_map (@source unit) cs -> first_hit cs = None.
Proof.
  induction 1 as [|[c|g m] cs Hc Hcs IH]; intros E; [reflexivity| |].
  - simpl in *. apply IH. now injection E.
  - exfalso. subst m. pose proof (longer_length cs Hcs) as L.
    apply (f_equal (@List.length ascii)) in E. unfold longer in *.
    cbn [flat_map source render] in E.
    rewrite !length_app in E. cbn [List.length] in E. lia.
Qed.
End NoHit.

(** [re.search(r'\bname\b', s)] finds nothing when no word of [s] is [name]. *)
Lemma re_search_word_absent (name s : text) :
  is_name name = true -> ~ In name (words s) -> re_search (m_word name) s = None.
Proof.
  intros Hn Hw. unfold re_search.
  apply (same_text_no_hit name "x"%char).
  - unfold finditer.
    eapply Forall_impl; [|apply scan_hits]. intros [c|g m]; [trivial|].
    intros (p & t & rest & H). now apply m_word_match in H.
  - fold (re_sub (m_word name) (fun _ _ => name ++ ["x"%char]) s).
    fold (re_sub_word name (name ++ ["x"%char]) s).
    rewrite re_sub_word_map_words by assumption.
    unfold finditer. rewrite scan_source;
      [|apply m_word_sound; intros ->; discriminate|apply le_n].
    change (swap name (name ++ ["x"%char])) with (rename [(name, name ++ ["x"%char])]).
    apply rename_words_unchanged. intros k' [<-|[]]. assumption.
Qed.

Lemma existsb_none (A : Type) (f : A -> bool) (l : list A) :
  (forall a, In a l -> f a = false) -> existsb f l = false.
Proof.
  induction l as [|a l IH]; intros H; [reflexivity|]. simpl.
  rewrite (H a (or_introl eq_refl)). apply IH. intros b Hb. apply H. now right.
Qed.

Lemma has_old_icon_processed (content : text) :
  Replace_icons.has_old_icon (snd (Replace_icons.process_file content)) = false.
Proof.
  unfold Replace_icons.has_old_icon. apply existsb_none. intros [k v] Hin.
  cbn [fst].
  rewrite re_search_word_absent; [reflexivity| |].
  - apply (keys_are_names Replace_icons.ICON_MAPPINGS); [exact Replace_icons_facts.names|].
    eapply in_keys; eassumption.
  - rewrite Replace_icons_facts.process_file_content,
      Replace_icons_facts.replace_names_map_words.
    apply renamed_words_fresh;
      [exact Replace_icons_facts.names|exact Replace_icons_facts.fresh|].
    eapply in_keys; eassumption.
Qed.

(** X1: the verification of [replace_icons.py] ([main], the [re.search] of
    every pattern of the table) finds no old icon name in a file that
    [process_file] has handled. *)
Theorem processed_file_passes_verification (content : text) :
  Replace_icons.has_old_icon (snd (Replace_icons.process_file content)) = false.
Proof. exact (has_old_icon_processed content). Qed.

(** X2: after [process_file] of [replace_icons.py] the text holds neither
    [from "lucide-react"] nor [from 'lucide-react']: both replacements are
    complete and the icon renaming brings neither back. *)
Theorem legacy_source_replaced (content : text) :
  occurs Replace_icons.legacy_dq (snd (Replace_icons.process_file content)) = false
  /\ occurs Replace_icons.legacy_sq (snd (Replace_icons.process_file content)) = false.
Proof. exact (Replace_icons_facts.legacy_gone content). Qed.

Lemma rename_lookup (K : list text) (t : table) :
  (forall kv, In kv t -> ~ In (snd kv) K) ->
  (forall k, In k (keys t) -> In k K) ->
  forall w, rename t w = get_or_self t w.
Proof.
  induction t as [|[k v] t IH]; intros Hv Hk w; [reflexivity|].
  rewrite rename_cons. unfold get_or_self, swap. simpl lookup.
  destruct (text_eqb w k) eqn:E.
  - apply text_eqb_eq in E. subst w. rewrite text_eqb_refl.
    apply rename_not_key. intros Hin.
    apply (Hv (k, v) (or_introl eq_refl)). apply Hk. now right.
  - assert (E' : text_eqb k w = false).
    { apply text_eqb_neq. apply text_eqb_neq in E. congruence. }
    rewrite E'. apply IH.
    + intros kv Hin. apply Hv. now right.
    + intros k' Hin. apply Hk. now right.
Qed.

Lemma rename_is_get (t : table) (w : text) :
  targets_fresh t = true -> rename t w = get_or_self t w.
Proof.
  intros Hf. apply (rename_lookup (keys t)); [|trivial].
  intros kv Hin. unfold targets_fresh in Hf. rewrite forallb_forall in Hf.
  specialize (Hf kv Hin). rewrite <- mem_In. now destruct (mem (snd kv) (keys t)).
Qed.

Lemma fold_sub_words (t : table) (s : text) :
  names_ok t = true -> targets_fresh t = true ->
  words (fold_left (fun c kv => re_sub_word (fst kv) (snd kv) c) t s)
  = map (get_or_self t) (words s).
Proof.
  intros Hn Hf. rewrite fold_sub_map_words by assumption.
  rewrite words_map_words; [|now apply rename_name|now left].
  apply map_ext. intros w. now apply rename_is_get.
Qed.

(** X3: in [replace_icons.py] and [replace-lucide-icons.py] the successive
    [re.sub] calls of the table act as one simultaneous renaming: the words
    of the result are the words of the text, in order, each [w] replaced by
    [ICON_MAPPINGS.get(w, w)].  No substitution feeds another, and no word is
    added, dropped or merged. *)
Theorem substitutions_rename_simultaneously (s : text) :
  words (Replace_icons.replace_names Replace_icons.ICON_MAPPINGS s)
  = map (get_or_self Replace_icons.ICON_MAPPINGS) (words s)
  /\ words (ReplaceLucideIcons.replace_names ReplaceLucideIcons.ICON_MAPPINGS s)
     = map (get_or_self ReplaceLucideIcons.ICON_MAPPINGS) (words s).
Proof.
  split.
  - apply fold_sub_words; [exact Replace_icons_facts.names|exact Replace_icons_facts.fresh].
  - apply fold_sub_words;
      [exact ReplaceLucideIcons_facts.lucide_names|exact ReplaceLucideIcons_facts.lucide_fresh].
Qed.

(** ** [extract_lucide_imports] *)

Lemma m_import_names_module (plus semi : bool) prev s g m rest :
  m_import plus semi prev s = Some (g, m, rest) ->
  exists a b, m = a ++ T "lucide-react" ++ b.
Proof.
  intros H. unfold m_import in H.
  destruct (strip_prefix (T "import") s) as [s1|]; [|discriminate].
  cbn [bind] in H.
  destruct (ws_run plus s1) as [[w1 r1]|]; [|discriminate].
  cbn [bind fst snd] in H.
  destruct (strip_prefix (T "{") r1) as [s2|]; [|discriminate].
  cbn [bind] in H.
  destruct (span (fun c => negb (Ascii.eqb c "}")) s2) as [g' s3].
  destruct (null g'); [discriminate|].
  destruct (strip_prefix (T "}") s3) as [s4|]; [|discriminate].
  cbn [bind] in H.
  destruct (ws_run plus s4) as [[w2 r2]|]; [|discriminate].
  cbn [bind fst snd] in H.
  destruct (strip_prefix (T "from") r2) as [s5|]; [|discriminate].
  cbn [bind] in H.
  destruct (ws_run plus s5) as [[w3 r3]|]; [|discriminate].
  cbn [bind fst snd] in H.
  destruct (quote_char r3) as [[q1 r4]|]; [|discriminate].
  cbn [bind fst snd] in H.
  destruct (strip_prefix (T "lucide-react") r4) as [s6|]; [|discriminate].
  cbn [bind] in H.
  destruct (quote_char s6) as [[q2 r5]|]; [|discriminate].
  cbn [bind fst snd] in H.
  assert (Hfin : forall tail,
             exists a b,
               T "import" ++ w1 ++ T "{" ++ g' ++ T "}" ++ w2 ++ T "from" ++ w3 ++ [q1]
                 ++ T "lucide-react" ++ [q2] ++ tail
               = a ++ T "lucide-react" ++ b).
  { intros tail.
    exists (T "import" ++ w1 ++ T "{" ++ g' ++ T "}" ++ w2 ++ T "from" ++ w3 ++ [q1]),
      ([q2] ++ tail).
    rewrite <- !app_assoc. reflexivity. }
  destruct r5 as [|c r].
  - injection H as _ <- _. apply Hfin.
  - destruct (Ascii.eqb c ";") eqn:Ec.
    + apply Ascii.eqb_eq in Ec; subst c.
      destruct semi; injection H as _ <- _; apply Hfin.
    + assert (H' : Some (g',
        T "import" ++ w1 ++ T "{" ++ g' ++ T "}" ++ w2 ++ T "from" ++ w3 ++ [q1]
          ++ T "lucide-react" ++ [q2] ++ [], c :: r) = Some (g, m, rest)).
      { destruct c as [[] [] [] [] [] [] [] []]; try exact H; discriminate. }
      injection H' as _ <- _. apply Hfin.
Qed.

(** What [re.search] finds is a part of the text, and an answer of the
    matcher. *)
Lemma re_search_found (G : Type)
  (matcher : option ascii -> text -> option (G * text * text)) (s : text) g m :
  sound matcher -> re_search matcher s = Some (g, m) ->
  (exists pre post, s = pre ++ m ++ post)
  /\ exists p t rest, matcher p t = Some (g, m, rest).
Proof.
  intros Hsound H. unfold re_search in H.
  destruct (first_hit_split _ _ _ _ H) as (pre & cs' & E). split.
  - exists pre, (flat_map (@source G) cs').
    pose proof (scan_source G matcher Hsound (List.length s) s None (le_n _)) as Hs.
    fold (finditer matcher s) in Hs. rewrite E, flat_map_app in Hs.
    rewrite flat_map_lits in Hs by reflexivity. now rewrite <- Hs.
  - pose proof (scan_hits G matcher (List.length s) s None) as Hh.
    fold (finditer matcher s) in Hh. rewrite E in Hh.
    apply Forall_app in Hh as [_ Hh]. now inversion Hh.
Qed.

Lemma lstrip_fixed (s : text) :
  (forall c r, s = c :: r -> is_space c = false) -> lstrip s = s.
Proof.
  intros H. unfold lstrip. destruct s as [|c r]; [reflexivity|].
  simpl. now rewrite (H c r eq_refl).
Qed.

Lemma lstrip_head (s : text) (c : ascii) (r : text) :
  lstrip s = c :: r -> is_space c = false.
Proof. unfold lstrip. apply span_snd_head. Qed.

Lemma lstrip_suffix (s : text) : exists w, s = w ++ lstrip s.
Proof. exists (fst (span is_space s)). apply span_app. Qed.

(** [strip] leaves nothing to strip. *)
Lemma strip_idem (s : text) : strip (strip s) = strip s.
Proof.
  unfold strip. set (u := lstrip s). set (v := lstrip (rev u)).
  assert (Hv : lstrip v = v).
  { apply lstrip_fixed. intros c r E. apply (lstrip_head (rev u) c r). exact E. }
  assert (Hr : lstrip (rev v) = rev v).
  { apply lstrip_fixed. intros c r E.
    destruct (lstrip_suffix (rev u)) as (w & Hw). fold v in Hw.
    apply (f_equal (@rev ascii)) in Hw. rewrite rev_involutive, rev_app_distr, E in Hw.
    apply (lstrip_head s c (r ++ rev w)). fold u. now rewrite Hw. }
  now rewrite Hr, rev_involutive, Hv.
Qed.

(** X4: what [extract_lucide_imports] returns for a text with a legacy
    import: the statement is a part of the text as it stands (so
    [content.replace] finds it), the text holds [lucide-react] (the guard of
    [process_file] lets it through), and every specifier is non-empty and
    has no whitespace left to strip. *)
Theorem extract_lucide_imports_found (content stmt : text) (icons : list text) :
  ReplaceLucideIcons.extract_lucide_imports content = (stmt, icons) ->
  stmt <> [] ->
  (exists pre post, content = pre ++ stmt ++ post)
  /\ occurs (T "lucide-react") content = true
  /\ Forall (fun icon => icon <> [] /\ strip icon = icon) icons.
Proof.
  unfold ReplaceLucideIcons.extract_lucide_imports. intros H Hne.
  destruct (re_search ReplaceLucideIcons.pattern content) as [[imports_text st]|] eqn:E.
  - injection H as -> <-.
    destruct (re_search_found _ _ _ _ _ (m_import_sound true true) E)
      as ((pre & post & Hc) & (p & t & rest & Hm)).
    split; [now exists pre, post|]. split.
    + destruct (m_import_names_module _ _ _ _ _ _ _ Hm) as (a & b & Hs).
      rewrite Hc, Hs, <- !app_assoc, app_assoc. apply occurs_intro.
    + apply Forall_forall. intros icon Hin.
      apply in_map_iff in Hin as (raw & <- & Hraw).
      apply filter_In in Hraw as [_ Hraw]. split.
      * intros E'. rewrite E' in Hraw. discriminate.
      * apply strip_idem.
  - injection H as <- _. congruence.
Qed.

Lemma extract_lucide_imports_found_witness :
  (exists pre post, one_import = pre ++ T "import { Edit, Home as H } from 'lucide-react';" ++ post)
  /\ occurs (T "lucide-react") one_import = true
  /\ Forall (fun icon => icon <> [] /\ strip icon = icon) [T "Edit"; T "Home as H"].
Proof.
  apply (extract_lucide_imports_found one_import
           (T "import { Edit, Home as H } from 'lucide-react';")
           [T "Edit"; T "Home as H"]).
  - vm_compute. reflexivity.
  - discriminate.
Defined.

(** ** [map_icon_names] *)

(** X5: without an alias form among the specifiers, [map_icon_names] cannot
    raise: it is [ICON_MAPPINGS.get(icon, icon)] on every specifier, in
    order. *)
Theorem map_icon_names_plain (icons : list text) :
  (forall icon, In icon icons -> occurs (T " as ") icon = false) ->
  ReplaceLucideIcons.map_icon_names icons
  = Some (map (get_or_self ReplaceLucideIcons.ICON_MAPPINGS) icons).
Proof.
  induction icons as [|icon icons IH]; intros H; [reflexivity|].
  cbn [ReplaceLucideIcons.map_icon_names map].
  unfold ReplaceLucideIcons.map_icon_name at 1.
  rewrite (H icon (or_introl eq_refl)). cbn [bind].
  rewrite IH by (intros i Hi; apply H; now right). reflexivity.
Qed.

Lemma map_icon_names_plain_witness :
  ReplaceLucideIcons.map_icon_names [T "Edit"; T "Clock"; T "Home"]
  = Some [T "Pencil"; T "Clock"; T "House"].
Proof.
  apply (map_icon_names_plain [T "Edit"; T "Clock"; T "Home"]).
  intros icon [<-|[<-|[<-|[]]]]; vm_compute; reflexivity.
Defined.

Lemma scan_literal_prev (p : text) (fuel : nat) :
  forall s prev prev',
    scan (m_literal p) fuel prev s = scan (m_literal p) fuel prev' s.
Proof.
  induction fuel as [|fuel IH]; intros s prev prev'; [reflexivity|].
  destruct s as [|c s]; [reflexivity|]. simpl.
  change (m_literal p prev' (c :: s)) with (m_literal p prev (c :: s)).
  destruct (m_literal p prev (c :: s)) as [[[g m] rest]|].
  - f_equal. apply IH.
  - reflexivity.
Qed.

(** [(a + sep + rest).split(sep)] when [sep] does not start inside [a]. *)
Lemma str_split_cons (sep a rest : text) :
  sep <> [] ->
  (forall q, In q (tails a) -> strip_prefix sep (q ++ sep ++ rest) = None) ->
  str_split sep (a ++ sep ++ rest) = a :: str_split sep rest.
Proof.
  intros Hsep Ha. unfold str_split, split_plain, finditer.
  destruct (scan_lits unit (m_literal sep) a (sep ++ rest)) with
    (fuel := List.length (a ++ sep ++ rest)) (prev := @None ascii)
    as (f1 & p1 & Hf1 & E1); [|apply le_n|].
  { intros q Hq prev. unfold m_literal. now rewrite (Ha q Hq). }
  rewrite E1, split_chunks_lits. clear E1.
  assert (Hlen : List.length rest < f1).
  { rewrite length_app in Hf1. destruct sep; [congruence|simpl in Hf1; lia]. }
  destruct f1 as [|f1]; [lia|].
  destruct (sep ++ rest) as [|c r] eqn:Esr.
  { destruct sep; [congruence|discriminate]. }
  simpl scan. rewrite <- Esr. unfold m_literal at 1. rewrite strip_prefix_app.
  simpl split_chunks. rewrite app_nil_r, rev_involutive. f_equal.
  rewrite (scan_literal_prev sep f1 rest _ None).
  rewrite (scan_fuel unit (m_literal sep) (m_literal_sound sep Hsep)
             f1 (List.length rest) rest None); [reflexivity|lia|apply le_n].
Qed.

Lemma map_icon_name_two_aliases (x y z : text) :
  is_name x = true -> is_name y = true -> is_name z = true ->
  ReplaceLucideIcons.map_icon_name (x ++ T " as " ++ y ++ T " as " ++ z) = None.
Proof.
  intros Hx Hy Hz. unfold ReplaceLucideIcons.map_icon_name.
  rewrite (occurs_intro (T " as ") x (y ++ T " as " ++ z)).
  rewrite str_split_cons; [|discriminate|].
  - rewrite (str_split_names (T " as ") y z " "%char (T "as "));
      [reflexivity|reflexivity|reflexivity|now apply is_name_forallb|now apply is_name_forallb].
  - intros q Hq.
    destruct (tails_word_first x q (is_name_forallb x Hx) Hq) as (c & q' & -> & Hc).
    change (strip_prefix (T " as ") ((c :: q') ++ T " as " ++ y ++ T " as " ++ z))
      with (if Ascii.eqb " " c then strip_prefix (T "as ") (q' ++ T " as " ++ y ++ T " as " ++ z)
            else None).
    destruct (Ascii.eqb " " c) eqn:E; [|reflexivity].
    apply Ascii.eqb_eq in E. subst c. discriminate.
Qed.

Lemma map_icon_names_fail (icon : text) (icons : list text) :
  In icon icons -> ReplaceLucideIcons.map_icon_name icon = None ->
  ReplaceLucideIcons.map_icon_names icons = None.
Proof.
  induction icons as [|i icons IH]; intros Hin Hn; [destruct Hin|].
  cbn [ReplaceLucideIcons.map_icon_names].
  destruct Hin as [->|Hin].
  - now rewrite Hn.
  - destruct (ReplaceLucideIcons.map_icon_name i); [|reflexivity].
    cbn [bind]. now rewrite (IH Hin Hn).
Qed.

(** X6: a specifier with two aliases, [X as Y as Z], raises the
    [ValueError] of the unpacking in [map_icon_names]; [process_file] catches
    it, returns [False] and leaves the file as it was, whatever else the
    import holds. *)
Theorem two_aliases_leave_file (content stmt : text) (icons : list text) (x y z : text) :
  ReplaceLucideIcons.extract_lucide_imports content = (stmt, icons) ->
  is_name x = true -> is_name y = true -> is_name z = true ->
  In (x ++ T " as " ++ y ++ T " as " ++ z) icons ->
  ReplaceLucideIcons.map_icon_names icons = None
  /\ ReplaceLucideIcons.process_file content = (false, content).
Proof.
  intros He Hx Hy Hz Hin.
  assert (Hn : ReplaceLucideIcons.map_icon_names icons = None).
  { apply (map_icon_names_fail _ _ Hin). now apply map_icon_name_two_aliases. }
  split; [exact Hn|].
  unfold ReplaceLucideIcons.process_file. rewrite He, Hn.
  destruct (negb (occurs (T "lucide-react") content)); [reflexivity|].
  destruct (null stmt); reflexivity.
Qed.

Definition two_aliases : text :=
  T "import { Edit, Sun as Day as Light } from 'lucide-react';" ++ NL ++ T "<Edit />".

Lemma two_aliases_leave_file_witness :
  ReplaceLucideIcons.map_icon_names [T "Edit"; T "Sun as Day as Light"] = None
  /\ ReplaceLucideIcons.process_file two_aliases = (false, two_aliases).
Proof.
  apply (two_aliases_leave_file two_aliases
           (T "import { Edit, Sun as Day as Light } from 'lucide-react';")
           [T "Edit"; T "Sun as Day as Light"] (T "Sun") (T "Day") (T "Light")).
  - vm_compute. reflexivity.
  - reflexivity.
  - reflexivity.
  - reflexivity.
  - right. left. reflexivity.
Defined.

(** ** The substitutions, once more *)

(** The characters of a text that are no word characters. *)
Definition separators (s : text) : text := filter (fun c => negb (is_word c)) s.

Lemma separators_name (w : text) : forallb is_word w = true -> separators w = [].
Proof.
  induction w as [|c w IH]; intros H; [reflexivity|].
  simpl in H. apply andb_prop in H as [Hc Hw]. unfold separators. simpl.
  rewrite Hc. now apply IH.
Qed.

Lemma separators_map_words (f : text -> text) (s : text) :
  (forall w, is_name w = true -> is_name (f w) = true) ->
  forall acc, acc_ok acc -> separators (map_words f acc s) = separators s.
Proof.
  intros Hf. induction s as [|c s IH]; intros acc Hacc.
  - simpl. destruct Hacc as [->|Hacc]; [reflexivity|].
    unfold flush. destruct acc as [|a acc]; [reflexivity|].
    apply separators_name, is_name_forallb, Hf, Hacc.
  - cbn [map_words]. destruct (is_word c) eqn:Hc.
    + rewrite IH by now apply acc_ok_cons.
      unfold separators. simpl. now rewrite Hc.
    + unfold separators. rewrite filter_app. fold (separators (flush f acc)).
      assert (Hfl : separators (flush f acc) = []).
      { destruct Hacc as [->|Hacc]; [reflexivity|].
        unfold flush. destruct acc as [|a acc]; [reflexivity|].
        apply separators_name, is_name_forallb, Hf, Hacc. }
      rewrite Hfl. simpl. rewrite Hc. simpl. f_equal.
      apply (IH []). now left.
Qed.

(** X8: the substitutions of [replace_icons.py] and
    [replace-lucide-icons.py] touch word characters only: whitespace,
    punctuation, quotes and every other character that is no letter, digit
    or underscore are in the result as they are in the text. *)
Theorem substitutions_keep_separators (s : text) :
  separators (Replace_icons.replace_names Replace_icons.ICON_MAPPINGS s) = separators s
  /\ separators (ReplaceLucideIcons.replace_names ReplaceLucideIcons.ICON_MAPPINGS s)
     = separators s.
Proof.
  split.
  - rewrite Replace_icons_facts.replace_names_map_words.
    apply separators_map_words; [|now left].
    apply rename_name. exact Replace_icons_facts.names.
  - rewrite ReplaceLucideIcons_facts.part_map_words.
    apply separators_map_words; [|now left].
    apply rename_name. exact ReplaceLucideIcons_facts.lucide_names.
Qed.

(** X9: applying the table a second time changes nothing, in both scripts:
    no new name of the table is an old name. *)
Theorem substitutions_idempotent (s : text) :
  Replace_icons.replace_names Replace_icons.ICON_MAPPINGS
    (Replace_icons.replace_names Replace_icons.ICON_MAPPINGS s)
  = Replace_icons.replace_names Replace_icons.ICON_MAPPINGS s
  /\ ReplaceLucideIcons.replace_names ReplaceLucideIcons.ICON_MAPPINGS
       (ReplaceLucideIcons.replace_names ReplaceLucideIcons.ICON_MAPPINGS s)
     = ReplaceLucideIcons.replace_names ReplaceLucideIcons.ICON_MAPPINGS s.
Proof.
  split.
  - rewrite !Replace_icons_facts.replace_names_map_words.
    apply renamed_twice; [exact Replace_icons_facts.names|exact Replace_icons_facts.fresh].
  - rewrite !ReplaceLucideIcons_facts.part_map_words.
    apply renamed_twice;
      [exact ReplaceLucideIcons_facts.lucide_names|exact ReplaceLucideIcons_facts.lucide_fresh].
Qed.

(** ** Occurrences after a substitution whose replacement varies *)

Section OverlapVarying.
Variable G : Type.
Variable repl : G -> text -> text.

(** Every match is replaced by a text that no occurrence of [p] can
    overlap. *)
Definition hits_clash (p : text) (cs : list (chunk G)) : Prop :=
  Forall (fun k => match k with
                   | Lit _ => True
                   | Hit g m => clash p (repl g m) = true
                   end) cs.

Let out (cs : list (chunk G)) : text := flat_map (render repl) cs.

Lemma window_varying (q : text) :
  forall cs x,
    Forall (fun k => match k with
                     | Lit _ => True
                     | Hit g m => forall q', In q' (tails q) -> conflictb q' (repl g m) = true
                     end) cs ->
    strip_prefix q (out cs) = Some x ->
    exists cs', cs = map Lit q ++ cs'.
Proof.
  induction q as [|a q IH]; intros cs x Hcs H.
  - now exists cs.
  - destruct cs as [|[c|g m] cs].
    + simpl in H. discriminate.
    + change (out (Lit c :: cs)) with (c :: out cs) in H. simpl in H.
      destruct (Ascii.eqb a c) eqn:E; [|discriminate].
      apply Ascii.eqb_eq in E; subst c. inversion Hcs as [|k0 cs0 Hk Hrest]; subst.
      destruct (IH cs x) as (cs' & ->); [|assumption|now exists cs'].
      eapply Forall_impl; [|exact Hrest]. intros [c|g m]; [trivial|].
      intros Hc q' Hq'. apply Hc. now right.
    + change (out (Hit g m :: cs)) with (repl g m ++ out cs) in H.
      inversion Hcs as [|k0 cs0 Hk Hrest]; subst.
      rewrite (conflictb_strip (a :: q) (repl g m) (out cs)) in H; [discriminate|].
      apply Hk. now left.
Qed.

Lemma occurs_out_varying (p : text) (cs : list (chunk G)) :
  hits_clash p cs -> occurs p (out cs) = true ->
  exists cs1 cs2, cs = cs1 ++ map Lit p ++ cs2.
Proof.
  induction cs as [|[c|g m] cs IH]; intros Hcs H.
  - simpl in H. destruct p; [now exists [], []|discriminate].
  - inversion Hcs as [|k0 cs0 Hk Hrest]; subst.
    change (out (Lit c :: cs)) with (c :: out cs) in H. simpl occurs in H.
    destruct (strip_prefix p (c :: out cs)) as [x|] eqn:E.
    + destruct p as [|a q]; [now exists [], (Lit c :: cs)|].
      simpl in E. destruct (Ascii.eqb a c) eqn:Ea; [|discriminate].
      apply Ascii.eqb_eq in Ea; subst c.
      destruct (window_varying q cs x) as (cs' & ->); [|assumption|now exists [], cs'].
      eapply Forall_impl; [|exact Hrest]. intros [c|g m]; [trivial|].
      intros Hc q' Hq'. apply andb_prop in Hc as [Ha _].
      rewrite forallb_forall in Ha. now apply Ha.
    + destruct (IH Hrest H) as (cs1 & cs2 & ->). now exists (Lit c :: cs1), cs2.
  - inversion Hcs as [|k0 cs0 Hk Hrest]; subst.
    change (out (Hit g m :: cs)) with (repl g m ++ out cs) in H.
    destruct (occurs_app_cases p (repl g m) (out cs) H) as [(u' & Hu' & Hs)|Hr].
    + exfalso. apply Hs. apply conflictb_strip.
      apply andb_prop in Hk as [_ Hu]. rewrite forallb_forall in Hu. now apply Hu.
    + destruct (IH Hrest Hr) as (cs1 & cs2 & ->). now exists (Hit g m :: cs1), cs2.
Qed.

Variable matcher : option ascii -> text -> option (G * text * text).
Hypothesis matcher_sound : sound matcher.

Lemma finditer_hits_clash (p s : text) :
  (forall prev t g m rest, matcher prev t = Some (g, m, rest) -> clash p (repl g m) = true) ->
  hits_clash p (finditer matcher s).
Proof.
  intros Hc. unfold hits_clash, finditer. eapply Forall_impl; [|apply scan_hits].
  intros [c|g m]; [trivial|]. intros (pr & t & rest & H). eapply Hc, H.
Qed.

(** The substitution brings no occurrence of [p]. *)
Lemma re_sub_varying_no_new (p s : text) :
  (forall prev t g m rest, matcher prev t = Some (g, m, rest) -> clash p (repl g m) = true) ->
  occurs p s = false -> occurs p (re_sub matcher repl s) = false.
Proof.
  intros Hc H. destruct (occurs p (re_sub matcher repl s)) eqn:E; [|reflexivity].
  apply occurs_out_varying in E as (cs1 & cs2 & E); [|now apply finditer_hits_clash].
  pose proof (scan_source G matcher matcher_sound (List.length s) s None (le_n _)) as Hs.
  fold (finditer matcher s) in Hs. rewrite E in Hs.
  rewrite !flat_map_app, flat_map_lits in Hs by reflexivity.
  rewrite <- Hs, occurs_intro in H. discriminate.
Qed.

(** The substitution leaves no occurrence of [p] when the pattern matches
    wherever [p] starts. *)
Lemma re_sub_varying_kills (p s : text) :
  (forall prev t g m rest, matcher prev t = Some (g, m, rest) -> clash p (repl g m) = true) ->
  p <> [] ->
  (forall prev rest, matcher prev (p ++ rest) <> None) ->
  occurs p (re_sub matcher repl s) = false.
Proof.
  intros Hc Hp Hfire. destruct (occurs p (re_sub matcher repl s)) eqn:E; [|reflexivity].
  apply occurs_out_varying in E as (cs1 & cs2 & E); [|now apply finditer_hits_clash].
  destruct p as [|a q]; [congruence|]. simpl in E.
  destruct (scan_lit_nomatch G matcher matcher_sound (List.length s) s None
              cs1 a (map Lit q ++ cs2) (le_n _) E) as [prev' Hn].
  rewrite flat_map_app, flat_map_lits in Hn by reflexivity.
  exfalso. apply (Hfire prev' (flat_map (@source G) cs2)). exact Hn.
Qed.
End OverlapVarying.

(** ** The tags that [replace-icons.py] rewrites *)

Lemma conflictb_heads (c d : ascii) (a b : text) :
  c <> d -> conflictb (c :: a) (d :: b) = true.
Proof.
  intros H. simpl. destruct (Ascii.eqb c d) eqn:E; [|reflexivity].
  apply Ascii.eqb_eq in E. contradiction.
Qed.

Lemma names_conflict (key : text) :
  forall new g g',
    forallb is_word key = true -> forallb is_word new = true -> key <> new ->
    g <> [] -> wordy (hd_error g) = false ->
    g' <> [] -> wordy (hd_error g') = false ->
    conflictb (key ++ g) (new ++ g') = true.
Proof.
  induction key as [|k key IH]; intros new g g' Hk Hn Hne Hg Hgw Hg' Hgw'.
  - destruct new as [|n new]; [congruence|].
    destruct g as [|d g]; [congruence|]. simpl in Hgw, Hn.
    apply andb_prop in Hn as [Hn _]. apply conflictb_heads. congruence.
  - simpl in Hk. apply andb_prop in Hk as [Hk0 Hk].
    destruct new as [|n new].
    + destruct g' as [|d g']; [congruence|]. simpl in Hgw'.
      apply conflictb_heads. congruence.
    + simpl in Hn. apply andb_prop in Hn as [_ Hn]. simpl.
      destruct (Ascii.eqb k n) eqn:E; [|reflexivity].
      apply Ascii.eqb_eq in E. subst n. apply IH; auto. congruence.
Qed.

Lemma lt_free_tails (p' q : text) :
  lt_free p' = true -> In q (tails p') ->
  exists c q', q = c :: q' /\ c <> "<"%char.
Proof.
  intros Hp Hq. destruct (tails_In_suffix p' q Hq) as (a & c & q' & -> & ->).
  unfold lt_free in Hp. rewrite forallb_app in Hp. apply andb_prop in Hp as [_ Hp].
  simpl in Hp. apply andb_prop in Hp as [Hc _]. exists c, q'. split; [reflexivity|].
  intros ->. discriminate.
Qed.

(** Two texts that start with [<], hold no other [<] and differ where both
    go on cannot overlap. *)
Lemma clash_lt (p' r' : text) :
  lt_free p' = true -> lt_free r' = true -> conflictb p' r' = true ->
  clash ("<"%char :: p') ("<"%char :: r') = true.
Proof.
  intros Hp Hr Hc. unfold clash. apply andb_true_intro. split.
  - apply forallb_forall. intros q Hq. simpl tl in Hq.
    destruct (lt_free_tails p' q Hp Hq) as (c & q' & -> & Hne).
    now apply conflictb_heads.
  - apply forallb_forall. intros u [<-|Hu].
    + simpl. exact Hc.
    + destruct (lt_free_tails r' u Hr Hu) as (c & u' & -> & Hne).
      apply conflictb_heads. congruence.
Qed.

Lemma delim_nonempty (g : text) : is_delim g -> g <> [].
Proof. intros [(c & -> & _)|[-> | ->]]; discriminate. Qed.

Lemma delim_head_nonword (g : text) : is_delim g -> wordy (hd_error g) = false.
Proof. intros H. rewrite <- (app_nil_r g). now apply delim_head. Qed.

Section TagClash.
Variables key v : text.
Hypothesis key_name : is_name key = true.
Hypothesis v_name : is_name v = true.
Hypothesis key_not_v : key <> v.

Lemma lt_free_name_delim (n g : text) :
  is_name n = true -> is_delim g -> lt_free (n ++ g) = true.
Proof.
  intros Hn Hg. unfold lt_free. rewrite forallb_app.
  fold (lt_free n). fold (lt_free g).
  rewrite name_lt_free by now apply is_name_forallb. now rewrite delim_lt_free.
Qed.

Lemma lt_free_slash_name (n : text) :
  is_name n = true -> lt_free ("/"%char :: n ++ T ">") = true.
Proof.
  intros Hn. unfold lt_free. simpl. rewrite forallb_app. fold (lt_free n).
  now rewrite name_lt_free by now apply is_name_forallb.
Qed.

Lemma clash_open_open (g g' : text) :
  is_delim g -> is_delim g' ->
  clash ("<"%char :: key ++ g) ("<"%char :: v ++ g') = true.
Proof.
  intros Hg Hg'. apply clash_lt; try now apply lt_free_name_delim.
  apply names_conflict; auto using is_name_forallb, delim_nonempty, delim_head_nonword.
Qed.

Lemma clash_open_close (g : text) :
  is_delim g -> clash ("<"%char :: key ++ g) ("<"%char :: "/"%char :: v ++ T ">") = true.
Proof.
  intros Hg. apply clash_lt;
    [now apply lt_free_name_delim|now apply lt_free_slash_name|].
  destruct (is_name_cons key key_name) as (k & key' & -> & Hk & _).
  apply conflictb_heads. intros ->. discriminate.
Qed.

Lemma clash_close_open (g' : text) :
  is_delim g' -> clash ("<"%char :: "/"%char :: key ++ T ">") ("<"%char :: v ++ g') = true.
Proof.
  intros Hg. apply clash_lt;
    [now apply lt_free_slash_name|now apply lt_free_name_delim|].
  destruct (is_name_cons v v_name) as (k & v' & -> & Hk & _).
  apply conflictb_heads. intros <-. discriminate.
Qed.

Lemma clash_close_close :
  clash ("<"%char :: "/"%char :: key ++ T ">") ("<"%char :: "/"%char :: v ++ T ">") = true.
Proof.
  apply clash_lt; [now apply lt_free_slash_name|now apply lt_free_slash_name|].
  simpl. apply names_conflict; auto using is_name_forallb; discriminate.
Qed.
End TagClash.

Lemma m_tag_open_fires (key g rest : text) prev :
  is_delim g -> m_tag_open key prev (("<"%char :: key ++ g) ++ rest) <> None.
Proof.
  intros Hg. unfold m_tag_open.
  replace (("<"%char :: key ++ g) ++ rest) with (("<"%char :: key) ++ g ++ rest)
    by (simpl; now rewrite <- app_assoc).
  rewrite strip_prefix_app.
  destruct Hg as [(c & -> & Hc)|[-> | ->]].
  - simpl. rewrite Hc. discriminate.
  - simpl. discriminate.
  - simpl. discriminate.
Qed.

Lemma m_tag_close_fires (key rest : text) prev :
  m_tag_close key prev ((T "</" ++ key ++ T ">") ++ rest) <> None.
Proof.
  unfold m_tag_close, m_literal. rewrite strip_prefix_app. discriminate.
Qed.

(** One entry of the table, applied to a text without [p], brings no [p]. *)
Lemma replace_tags_no_new (p k v s : text) :
  (forall g', is_delim g' -> clash p ("<"%char :: v ++ g') = true) ->
  clash p ("<"%char :: "/"%char :: v ++ T ">") = true ->
  occurs p s = false -> occurs p (ReplaceIcons.replace_tags k v s) = false.
Proof.
  intros Ho Hc H. unfold ReplaceIcons.replace_tags.
  apply (re_sub_no_new_occurrence unit p (T "</" ++ v ++ T ">") Hc
           (m_tag_close k) (m_tag_close_sound k)).
  apply re_sub_varying_no_new; [apply m_tag_open_sound| |assumption].
  intros prev t g m rest Hm. apply Ho.
  now destruct (m_tag_open_shape k prev t g m rest Hm) as (_ & _ & Hg).
Qed.

Lemma replace_tags_kills_open (key new g s : text) :
  is_name key = true -> is_name new = true -> key <> new -> is_delim g ->
  occurs ("<"%char :: key ++ g) (ReplaceIcons.replace_tags key new s) = false.
Proof.
  intros Hk Hn Hne Hg. unfold ReplaceIcons.replace_tags.
  apply (re_sub_no_new_occurrence unit _ (T "</" ++ new ++ T ">")
           (clash_open_close key new Hk Hn Hne g Hg)
           (m_tag_close key) (m_tag_close_sound key)).
  apply re_sub_varying_kills.
  - apply m_tag_open_sound.
  - intros prev t g' m rest Hm.
    destruct (m_tag_open_shape key prev t g' m rest Hm) as (_ & _ & Hg').
    now apply clash_open_open.
  - discriminate.
  - intros prev rest. now apply m_tag_open_fires.
Qed.

Lemma replace_tags_kills_close (key new s : text) :
  is_name key = true -> is_name new = true -> key <> new ->
  occurs (T "</" ++ key ++ T ">") (ReplaceIcons.replace_tags key new s) = false.
Proof.
  intros Hk Hn Hne. unfold ReplaceIcons.replace_tags.
  apply re_sub_varying_kills.
  - apply m_tag_close_sound.
  - intros prev t g' m rest Hm. now apply (clash_close_close key new).
  - discriminate.
  - intros prev rest. apply m_tag_close_fires.
Qed.

Section TagsGone.
Variables icons_str key p : text.
Hypothesis key_name : is_name key = true.
Hypothesis p_kept :
  forall k v s, is_name v = true -> key <> v ->
    occurs p s = false -> occurs p (ReplaceIcons.replace_tags k v s) = false.
Hypothesis p_killed :
  forall new s, is_name new = true -> key <> new ->
    occurs p (ReplaceIcons.replace_tags key new s) = false.

Let step (c : text) (kv : text * text) : text :=
  if occurs (fst kv) icons_str
  then ReplaceIcons.replace_tags (fst kv) (snd kv) c else c.

Lemma fold_tags_keep (t : table) :
  names_ok t = true -> (forall kv, In kv t -> key <> snd kv) ->
  forall s, occurs p s = false -> occurs p (fold_left step t s) = false.
Proof.
  induction t as [|[k v] t IH]; intros Hn Hv s Hs; [assumption|].
  simpl in Hn. apply andb_prop in Hn as [Hkv Hn]. apply andb_prop in Hkv as [_ Hvn].
  simpl. apply IH; [assumption|intros kv Hin; apply Hv; now right|].
  unfold step. cbn [fst snd]. destruct (occurs k icons_str); [|assumption].
  apply p_kept; [assumption|apply (Hv (k, v)); now left|assumption].
Qed.

Lemma fold_tags_kill (t : table) (new : text) :
  names_ok t = true -> (forall kv, In kv t -> key <> snd kv) ->
  lookup t key = Some new -> occurs key icons_str = true ->
  forall s, occurs p (fold_left step t s) = false.
Proof.
  induction t as [|[k v] t IH]; intros Hn Hv Hl Hg s; [discriminate|].
  simpl in Hn. apply andb_prop in Hn as [Hkv Hn]. apply andb_prop in Hkv as [_ Hvn].
  simpl in Hl. simpl fold_left.
  destruct (text_eqb k key) eqn:E.
  - apply text_eqb_eq in E. subst k. injection Hl as ->.
    apply fold_tags_keep; [assumption|intros kv Hin; apply Hv; now right|].
    unfold step. cbn [fst snd]. rewrite Hg.
    apply p_killed; [assumption|apply (Hv (key, new)); now left].
  - apply IH; [assumption|intros kv Hin; apply Hv; now right|assumption|assumption].
Qed.
End TagsGone.

Lemma lookup_In (t : table) (k v : text) : lookup t k = Some v -> In (k, v) t.
Proof.
  induction t as [|[k' v'] t IH]; simpl; [discriminate|].
  destruct (text_eqb k' k) eqn:E.
  - apply text_eqb_eq in E. intros H. injection H as ->. subst. now left.
  - intros H. right. now apply IH.
Qed.

(** X10: the usage rewriter of [replace-icons.py] leaves no tag of an old
    name that the specifier text of the import mentions: for an entry
    [key -> new] of the table whose [key] occurs in [icons_str], the result
    holds no [<key] followed by whitespace, [/>] or [>], and no [</key>]. *)
Theorem old_tags_rewritten (icons_str s key new g : text) :
  lookup ReplaceIcons.ICON_MAPPINGS key = Some new ->
  occurs key icons_str = true ->
  is_delim g ->
  occurs ("<"%char :: key ++ g) (ReplaceIcons.replace_usages icons_str s) = false
  /\ occurs (T "</" ++ key ++ T ">") (ReplaceIcons.replace_usages icons_str s) = false.
Proof.
  intros Hl Ho Hg.
  pose proof (lookup_In _ _ _ Hl) as Hin.
  assert (Hk : is_name key = true).
  { apply (keys_are_names ReplaceIcons.ICON_MAPPINGS); [exact replace_icons_names|].
    eapply in_keys; eassumption. }
  assert (Hv : forall kv, In kv ReplaceIcons.ICON_MAPPINGS -> key <> snd kv).
  { intros kv Hkv E.
    assert (Hf : targets_fresh ReplaceIcons.ICON_MAPPINGS = true) by (vm_compute; reflexivity).
    unfold targets_fresh in Hf. rewrite forallb_forall in Hf. specialize (Hf kv Hkv).
    rewrite <- E in Hf.
    assert (Hm : mem key (keys ReplaceIcons.ICON_MAPPINGS) = true).
    { apply mem_In. eapply in_keys; eassumption. }
    rewrite Hm in Hf. discriminate. }
  unfold ReplaceIcons.replace_usages. split.
  - apply (fold_tags_kill icons_str key ("<"%char :: key ++ g)) with (new := new);
      try assumption; [| |exact replace_icons_names].
    + intros k v s' Hvn Hne Hs'. apply replace_tags_no_new; try assumption.
      * intros g' Hg'. now apply clash_open_open.
      * now apply clash_open_close.
    + intros new' s' Hn' Hne. now apply replace_tags_kills_open.
  - apply (fold_tags_kill icons_str key (T "</" ++ key ++ T ">")) with (new := new);
      try assumption; [| |exact replace_icons_names].
    + intros k v s' Hvn Hne Hs'. apply replace_tags_no_new; try assumption.
      * intros g' Hg'. now apply (clash_close_open key v).
      * now apply (clash_close_close key v).
    + intros new' s' Hn' Hne. now apply replace_tags_kills_close.
Qed.

Lemma old_tags_rewritten_witness :
  occurs (T "<AlertCircle ")
    (ReplaceIcons.replace_usages (T " AlertCircle, Home ")
       (T "<AlertCircle className='x' /> </AlertCircle>")) = false
  /\ occurs (T "</AlertCircle>")
       (ReplaceIcons.replace_usages (T " AlertCircle, Home ")
          (T "<AlertCircle className='x' /> </AlertCircle>")) = false.
Proof.
  apply (old_tags_rewritten (T " AlertCircle, Home ")
           (T "<AlertCircle className='x' /> </AlertCircle>")
           (T "AlertCircle") (T "CircleAlert") (T " ")).
  - reflexivity.
  - reflexivity.
  - left. exists " "%char. split; reflexivity.
Defined.

(** ** [main] of [replace_icons.py]

    The directory tree is modelled by what [main] reads of it: for every
    module directory of [MODULES] that exists, the contents of the files that
    [rglob('*.tsx')] and [rglob('*.ts')] yield, in the order they are
    yielded.  Only regular files that can be read are in the model. *)

Record module_files : Type := {
  tsx_files : list text;
  ts_files : list text
}.

(** One iteration of a [for file_path in ...] loop of the update: the
    counter and the files written so far. *)
Definition visit (st : nat * list text) (file : text) : nat * list text :=
  let (count, done) := st in
  let (changed, file') := Replace_icons.process_file file in
  (if changed then S count else count, done ++ [file']).

(** The body of the loop over [MODULES]: the module's count and its files
    afterwards. *)
Definition update_module (m : module_files) : nat * module_files :=
  let (count1, tsx') := fold_left visit (tsx_files m) (0, @nil text) in
  let (count2, ts') := fold_left visit (ts_files m) (count1, @nil text) in
  (count2, {| tsx_files := tsx'; ts_files := ts' |}).

(** The first loop of [main]: [total_files] and the tree afterwards. *)
Definition main_update (tree : list module_files) : nat * list module_files :=
  fold_left (fun (st : nat * list module_files) (m : module_files) =>
               let (total_files, done) := st in
               let (count, m') := update_module m in
               (total_files + count, done ++ [m']))
    tree (0, @nil module_files).

(** The second loop of [main]: [(old_imports, old_icons)], counted over the
    [.tsx] files. *)
Definition main_verify (tree : list module_files) : nat * nat :=
  fold_left (fun (st : nat * nat) (m : module_files) =>
               fold_left (fun (st : nat * nat) (content : text) =>
                            let (old_imports, old_icons) := st in
                            ((if occurs (T "lucide-react") content
                              then S old_imports else old_imports),
                             (if Replace_icons.has_old_icon content
                              then S old_icons else old_icons)))
                 (tsx_files m) st)
    tree (0, 0).

Definition processed (file : text) : text := snd (Replace_icons.process_file file).

Definition changed_count (files : list text) : nat :=
  List.length (filter (fun f => fst (Replace_icons.process_file f)) files).

Lemma visit_fold (files : list text) :
  forall count done,
    fold_left visit files (count, done)
    = (count + changed_count files, done ++ map processed files).
Proof.
  induction files as [|f files IH]; intros count done.
  - unfold changed_count. simpl. now rewrite Nat.add_0_r, app_nil_r.
  - cbn [fold_left]. unfold visit at 2.
    destruct (Replace_icons.process_file f) as [changed f'] eqn:E.
    rewrite IH. unfold changed_count, processed. cbn [filter map]. rewrite E. cbn [fst snd].
    rewrite <- app_assoc. destruct changed; cbn [List.length app]; f_equal; lia.
Qed.

Lemma update_module_spec (m : module_files) :
  update_module m
  = (changed_count (tsx_files m) + changed_count (ts_files m),
     {| tsx_files := map processed (tsx_files m);
        ts_files := map processed (ts_files m) |}).
Proof.
  unfold update_module. rewrite visit_fold. cbn [app Nat.add].
  rewrite visit_fold. reflexivity.
Qed.

Definition processed_module (m : module_files) : module_files :=
  {| tsx_files := map processed (tsx_files m); ts_files := map processed (ts_files m) |}.

Lemma main_update_tree (tree : list module_files) :
  snd (main_update tree) = map processed_module tree.
Proof.
  unfold main_update.
  assert (H : forall total done,
             snd (fold_left (fun (st : nat * list module_files) (m : module_files) =>
                               let (total_files, done) := st in
                               let (count, m') := update_module m in
                               (total_files + count, done ++ [m']))
                    tree (total, done))
             = done ++ map processed_module tree).
  { induction tree as [|m tree IH]; intros total done.
    - simpl. now rewrite app_nil_r.
    - cbn [fold_left]. rewrite update_module_spec, IH.
      cbn [map]. now rewrite <- app_assoc. }
  apply H.
Qed.

Lemma changed_count_processed (files : list text) :
  changed_count (map processed files) = 0.
Proof.
  unfold changed_count. induction files as [|f files IH]; [reflexivity|].
  cbn [map filter]. unfold processed at 1.
  rewrite Replace_icons_facts.process_file_twice. exact IH.
Qed.

Lemma processed_twice (files : list text) :
  map processed (map processed files) = map processed files.
Proof.
  rewrite map_map. apply map_ext. intros f. unfold processed.
  now rewrite Replace_icons_facts.process_file_twice.
Qed.

(** X11: a second run of the update loop of [main] over the tree that a
    first run has left reports [Total files updated: 0] and leaves every
    file as it is. *)
Theorem main_second_run_updates_nothing (tree : list module_files) :
  main_update (snd (main_update tree)) = (0, snd (main_update tree)).
Proof.
  rewrite main_update_tree.
  assert (Hfix : Forall (fun m => update_module m = (0, m)) (map processed_module tree)).
  { apply Forall_forall. intros m Hm. apply in_map_iff in Hm as (m0 & <- & _).
    rewrite update_module_spec. unfold processed_module. cbn [tsx_files ts_files].
    now rewrite !changed_count_processed, !processed_twice. }
  revert Hfix. generalize (map processed_module tree) as l. intros l Hl.
  unfold main_update.
  assert (H : forall done,
             fold_left (fun (st : nat * list module_files) (m : module_files) =>
                          let (total_files, done) := st in
                          let (count, m') := update_module m in
                          (total_files + count, done ++ [m']))
               l (0, done) = (0, done ++ l)).
  { induction Hl as [|m l Hm _ IH]; intros done.
    - simpl. now rewrite app_nil_r.
    - cbn [fold_left]. rewrite Hm. cbn [Nat.add]. rewrite IH.
      now rewrite <- app_assoc. }
  apply (H []).
Qed.

Lemma verify_fold_icons (files : list text) :
  (forall f, In f files -> Replace_icons.has_old_icon f = false) ->
  forall st,
    snd (fold_left (fun (st : nat * nat) (content : text) =>
                      let (old_imports, old_icons) := st in
                      ((if occurs (T "lucide-react") content
                        then S old_imports else old_imports),
                       (if Replace_icons.has_old_icon content
                        then S old_icons else old_icons)))
           files st) = snd st.
Proof.
  induction files as [|f files IH]; intros H [a b]; [reflexivity|].
  cbn [fold_left]. rewrite IH by (intros f' Hf'; apply H; now right).
  cbn [snd]. now rewrite (H f (or_introl eq_refl)).
Qed.

(** X12: after the update loop of [main], its verification counts no file
    with an old icon name: [Files with old icon names: 0], whatever the
    tree. *)
Theorem main_verification_counts_no_old_icon (tree : list module_files) :
  snd (main_verify (snd (main_update tree))) = 0.
Proof.
  rewrite main_update_tree. unfold main_verify.
  assert (H : forall l st,
             snd (fold_left
                    (fun (st : nat * nat) (m : module_files) =>
                       fold_left (fun (st : nat * nat) (content : text) =>
                                    let (old_imports, old_icons) := st in
                                    ((if occurs (T "lucide-react") content
                                      then S old_imports else old_imports),
                                     (if Replace_icons.has_old_icon content
                                      then S old_icons else old_icons)))
                         (tsx_files m) st)
                    (map processed_module l) st) = snd st).
  { induction l as [|m l IH]; intros st; [reflexivity|].
    cbn [map fold_left]. rewrite IH. apply verify_fold_icons.
    intros f Hf. unfold processed_module in Hf. cbn [tsx_files] in Hf.
    apply in_map_iff in Hf as (f0 & <- & _).
    apply has_old_icon_processed. }
  apply (H tree (0, 0)).
Qed.

(** All the files that the update loop visits. *)
Definition all_files (tree : list module_files) : list text :=
  flat_map (fun m => tsx_files m ++ ts_files m) tree.

Lemma changed_count_differs (files : list text) :
  changed_count files
  = List.length (filter (fun f => negb (text_eqb (processed f) f)) files).
Proof.
  unfold changed_count. f_equal. apply filter_ext. intros f.
  apply Replace_icons_facts.process_file_flag.
Qed.

(** X13: [total_files], the number that [main] reports as updated, is the
    number of visited files whose content differs after the run; it is at
    most the number of files visited. *)
Theorem main_counts_changed_files (tree : list module_files) :
  fst (main_update tree)
  = List.length (filter (fun f => negb (text_eqb (processed f) f)) (all_files tree))
  /\ fst (main_update tree) <= List.length (all_files tree).
Proof.
  assert (H : forall l total done,
             fst (fold_left (fun (st : nat * list module_files) (m : module_files) =>
                               let (total_files, done) := st in
                               let (count, m') := update_module m in
                               (total_files + count, done ++ [m']))
                    l (total, done))
             = total + List.length (filter (fun f => negb (text_eqb (processed f) f))
                                      (all_files l))).
  { induction l as [|m l IH]; intros total done.
    - simpl. lia.
    - cbn [fold_left]. rewrite update_module_spec, IH.
      unfold all_files. cbn [flat_map]. fold (all_files l).
      rewrite !filter_app, !length_app, !changed_count_differs. lia. }
  unfold main_update. rewrite H. cbn [Nat.add]. split; [reflexivity|].
  apply filter_length_le.
Qed.

(** ** [find_tsx_files] of [replace-lucide-icons.py] *)

(** [s.endswith(suffix)] *)
Definition endswith (suffix s : text) : bool :=
  match strip_prefix (rev suffix) (rev s) with Some _ => true | None => false end.

(** The test of [find_tsx_files] on a file name:
    [filename.endswith(('.tsx', '.ts')) and not filename.endswith('.test.tsx')]. *)
Definition selected (filename : text) : bool :=
  (endswith (T ".tsx") filename || endswith (T ".ts") filename)
  && negb (endswith (T ".test.tsx") filename).

Lemma strip_prefix_common (a b c : text) :
  strip_prefix (a ++ b) (a ++ c) = strip_prefix b c.
Proof.
  induction a as [|x a IH]; [reflexivity|]. simpl. now rewrite Ascii.eqb_refl.
Qed.

Lemma endswith_app (suffix stem : text) : endswith suffix (stem ++ suffix) = true.
Proof. unfold endswith. now rewrite rev_app_distr, strip_prefix_app. Qed.

(** X14: which file names [find_tsx_files] takes.  Every name ending in
    [.ts] is taken, the tests [*.test.ts] among them; a name ending in [.tsx]
    is taken unless what precedes ends in [.test]. *)
Theorem selected_file_names (stem : text) :
  selected (stem ++ T ".ts") = true
  /\ selected (stem ++ T ".tsx") = negb (endswith (T ".test") stem).
Proof.
  unfold selected. split.
  - rewrite (endswith_app (T ".ts") stem), orb_true_r.
    unfold endswith. rewrite rev_app_distr. reflexivity.
  - rewrite (endswith_app (T ".tsx") stem). cbn [orb andb]. f_equal.
    unfold endswith. rewrite rev_app_distr.
    change (rev (T ".test.tsx")) with (rev (T ".tsx") ++ rev (T ".test")).
    now rewrite strip_prefix_common.
Qed.

(** ** The flag that [process_file] returns *)

(** X15: in the three scripts [process_file] reports a modification exactly
    when the content of the file afterwards differs from the content it
    read: a file reported as not modified is left as it was, on every path
    (no legacy import, nothing to migrate, a failed alias, nothing
    changed). *)
Theorem reported_change_is_real (content : text) :
  fst (Replace_icons.process_file content)
  = negb (text_eqb (snd (Replace_icons.process_file content)) content)
  /\ fst (ReplaceLucideIcons.process_file content)
     = negb (text_eqb (snd (ReplaceLucideIcons.process_file content)) content)
  /\ match ReplaceIcons.process_file content with
     | ReplaceIcons.Done changed _ file => changed = negb (text_eqb file content)
     | ReplaceIcons.TemplateEscape => True
     end.
Proof.
  split; [apply Replace_icons_facts.process_file_flag|]. split.
  - unfold ReplaceLucideIcons.process_file.
    destruct (negb (occurs (T "lucide-react") content));
      [cbn [fst snd]; now rewrite text_eqb_refl|].
    destruct (ReplaceLucideIcons.extract_lucide_imports content) as [stmt icons].
    destruct (null stmt); [cbn [fst snd]; now rewrite text_eqb_refl|].
    destruct (ReplaceLucideIcons.map_icon_names icons) as [mapped|];
      [|cbn [fst snd]; now rewrite text_eqb_refl].
    cbv zeta.
    destruct (text_eqb _ content) eqn:E; cbn [negb fst snd];
      [now rewrite text_eqb_refl|now rewrite E].
  - unfold ReplaceIcons.process_file. cbv zeta.
    destruct (re_search ReplaceIcons.pattern content) as [[icons_str m]|];
      [|now rewrite text_eqb_refl].
    destruct (filter _ (map strip (str_split (T ",") icons_str))) as [|a l];
      [now rewrite text_eqb_refl|].
    destruct (existsb _ _); [exact I|].
    destruct (text_eqb _ content) eqn:E; cbn [negb];
      [now rewrite text_eqb_refl|now rewrite E].
Qed.

(** * The scripts on a whole file *)

(** ** Scans that never read across a mark *)

Section CutScan.
Variable G : Type.
Variable matcher : option ascii -> text -> option (G * text * text).
Variable c0 : ascii.
Hypothesis matcher_sound : sound matcher.
Hypothesis matcher_prev : forall p q s, matcher p s = matcher q s.
Hypothesis matcher_local :
  forall prev x q b,
    matcher prev ((x :: q) ++ c0 :: b)
    = match matcher prev (x :: q) with
      | Some (g, m, r) => Some (g, m, r ++ c0 :: b)
      | None => None
      end.

Lemma scan_prev (fuel : nat) (p q : option ascii) (s : text) :
  scan matcher fuel p s = scan matcher fuel q s.
Proof.
  revert p q s. induction fuel as [|fuel IH]; intros p q s; [reflexivity|].
  destruct s as [|c s]; [reflexivity|]. simpl.
  rewrite (matcher_prev p q). destruct (matcher q (c :: s)) as [[[g m] rest]|].
  - f_equal. apply IH.
  - reflexivity.
Qed.

Lemma scan_cut (fuel : nat) :
  forall a b prev, List.length (a ++ c0 :: b) <= fuel ->
    scan matcher fuel prev (a ++ c0 :: b)
    = scan matcher fuel None a ++ scan matcher fuel None (c0 :: b).
Proof.
  induction fuel as [|fuel IH]; intros a b prev Hlen.
  - rewrite length_app in Hlen. simpl in Hlen. lia.
  - destruct a as [|x a].
    + exact (scan_prev (S fuel) prev None (c0 :: b)).
    + change (scan matcher (S fuel) prev ((x :: a) ++ c0 :: b))
        with (match matcher prev ((x :: a) ++ c0 :: b) with
              | Some (g, m, rest) => Hit g m :: scan matcher fuel (last_char m prev) rest
              | None => Lit x :: scan matcher fuel (Some x) (a ++ c0 :: b)
              end).
      rewrite matcher_local.
      change (scan matcher (S fuel) None (x :: a))
        with (match matcher None (x :: a) with
              | Some (g, m, rest) => Hit g m :: scan matcher fuel (last_char m None) rest
              | None => Lit x :: scan matcher fuel (Some x) a
              end).
      rewrite (matcher_prev None prev).
      assert (Hb : List.length (c0 :: b) <= fuel).
      { simpl in Hlen. rewrite length_app in Hlen. simpl in *. lia. }
      rewrite (scan_fuel G matcher matcher_sound (S fuel) fuel (c0 :: b) None)
        by (simpl in *; lia).
      destruct (matcher prev (x :: a)) as [[[g m] r]|] eqn:E.
      * pose proof (sound_shorter G matcher matcher_sound _ _ _ _ _ E) as Hs.
        rewrite (IH r b).
        -- simpl. f_equal. f_equal. apply scan_prev.
        -- simpl in Hlen, Hs. rewrite length_app in *. simpl in *. lia.
      * rewrite (IH a b).
        -- simpl. f_equal. f_equal. apply scan_prev.
        -- simpl in Hlen. lia.
Qed.

(** A substitution works on the text in front of a mark and on the text
    from the mark on apart. *)
Lemma re_sub_cut (repl : G -> text -> text) (a b : text) :
  re_sub matcher repl (a ++ c0 :: b)
  = re_sub matcher repl a ++ re_sub matcher repl (c0 :: b).
Proof.
  unfold re_sub, finditer.
  rewrite scan_cut by apply le_n. rewrite flat_map_app. f_equal.
  - f_equal. apply scan_fuel; [assumption| |apply le_n].
    rewrite length_app. lia.
  - f_equal. apply scan_fuel; [assumption| |apply le_n].
    rewrite length_app. lia.
Qed.

(** The mark stays at the head when every replacement starts with it. *)
Lemma re_sub_head (repl : G -> text -> text) (b : text) :
  (forall g m, exists t, repl g m = c0 :: t) ->
  exists t, re_sub matcher repl (c0 :: b) = c0 :: t.
Proof.
  intros H. unfold re_sub, finditer. simpl.
  destruct (matcher None (c0 :: b)) as [[[g m] rest]|].
  - simpl. destruct (H g m) as (t & ->). eexists. reflexivity.
  - simpl. eexists. reflexivity.
Qed.
End CutScan.

(** ** The tag patterns never read across a [<] *)

Lemma strip_prefix_cut (P q b : text) :
  lt_free P = true ->
  strip_prefix P (q ++ "<"%char :: b)
  = match strip_prefix P q with Some r => Some (r ++ "<"%char :: b) | None => None end.
Proof.
  revert q; induction P as [|y P IH]; intros q H; [reflexivity|].
  simpl in H. apply andb_prop in H as [Hy HP].
  destruct q as [|z q]; simpl.
  - destruct (Ascii.eqb y "<"); [discriminate|reflexivity].
  - destruct (Ascii.eqb y z); [now apply IH|reflexivity].
Qed.

Lemma m_tag_open_local (k : text) prev x q b :
  forallb is_word k = true ->
  m_tag_open k prev ((x :: q) ++ "<"%char :: b)
  = match m_tag_open k prev (x :: q) with
    | Some (g, m, r) => Some (g, m, r ++ "<"%char :: b)
    | None => None
    end.
Proof.
  intros Hk. unfold m_tag_open.
  change (strip_prefix ("<"%char :: k) ((x :: q) ++ "<"%char :: b))
    with (if Ascii.eqb "<" x then strip_prefix k (q ++ "<"%char :: b) else None).
  change (strip_prefix ("<"%char :: k) (x :: q))
    with (if Ascii.eqb "<" x then strip_prefix k q else None).
  destruct (Ascii.eqb "<" x); [|reflexivity].
  rewrite strip_prefix_cut by now apply name_lt_free.
  destruct (strip_prefix k q) as [[|c rest]|]; [reflexivity| |reflexivity].
  cbn [app]. destruct (is_space c); [reflexivity|].
  destruct (Ascii.eqb c "/").
  - destruct rest as [|d rest]; [reflexivity|].
    cbn [app]. destruct d as [[] [] [] [] [] [] [] []]; reflexivity.
  - destruct (Ascii.eqb c ">"); reflexivity.
Qed.

Lemma m_tag_close_local (k : text) prev x q b :
  forallb is_word k = true ->
  m_tag_close k prev ((x :: q) ++ "<"%char :: b)
  = match m_tag_close k prev (x :: q) with
    | Some (g, m, r) => Some (g, m, r ++ "<"%char :: b)
    | None => None
    end.
Proof.
  intros Hk. unfold m_tag_close, m_literal.
  change (strip_prefix (T "</" ++ k ++ T ">") ((x :: q) ++ "<"%char :: b))
    with (if Ascii.eqb "<" x
          then strip_prefix ("/"%char :: k ++ T ">") (q ++ "<"%char :: b) else None).
  change (strip_prefix (T "</" ++ k ++ T ">") (x :: q))
    with (if Ascii.eqb "<" x then strip_prefix ("/"%char :: k ++ T ">") q else None).
  destruct (Ascii.eqb "<" x); [|reflexivity].
  rewrite strip_prefix_cut.
  - destruct (strip_prefix ("/"%char :: k ++ T ">") q); reflexivity.
  - unfold lt_free. simpl. rewrite forallb_app. fold (lt_free k).
    now rewrite name_lt_free.
Qed.

Lemma scan_lt_free (G : Type)
  (matcher : option ascii -> text -> option (G * text * text)) (a : text) :
  (forall c t prev, Ascii.eqb c "<" = false -> matcher prev (c :: t) = None) ->
  lt_free a = true ->
  forall fuel prev, List.length a <= fuel -> scan matcher fuel prev a = map Lit a.
Proof.
  intros Hm Ha fuel prev Hlen.
  destruct (scan_lits G matcher a []) with (fuel := fuel) (prev := prev)
    as (f' & p' & _ & E).
  - intros q Hq prev'. destruct (lt_free_tails a q Ha Hq) as (c & q' & -> & Hc).
    apply Hm. now apply Ascii.eqb_neq.
  - now rewrite app_nil_r.
  - rewrite app_nil_r in E. rewrite E, scan_nil. apply app_nil_r.
Qed.

Lemma re_sub_lt_free (G : Type)
  (matcher : option ascii -> text -> option (G * text * text))
  (repl : G -> text -> text) (a : text) :
  (forall c t prev, Ascii.eqb c "<" = false -> matcher prev (c :: t) = None) ->
  lt_free a = true -> re_sub matcher repl a = a.
Proof.
  intros Hm Ha. unfold re_sub, finditer.
  rewrite (scan_lt_free G matcher a Hm Ha) by apply le_n.
  now apply flat_map_lits.
Qed.

Lemma lt_free_app (a b : text) : lt_free (a ++ b) = lt_free a && lt_free b.
Proof. apply forallb_app. Qed.

(** ** One piece: the text from a [<] to the next *)

Lemma starts_delim_split (r : text) :
  starts_delim r = true -> exists g rest, is_delim g /\ r = g ++ rest.
Proof.
  destruct r as [|c r]; [discriminate|]. simpl.
  destruct (is_space c) eqn:Hs.
  - intros _. exists [c], r. split; [left; now exists c|reflexivity].
  - destruct (Ascii.eqb c ">") eqn:Hg.
    + apply Ascii.eqb_eq in Hg. subst c. intros _. exists (T ">"), r.
      split; [right; now right|reflexivity].
    + destruct (Ascii.eqb c "/") eqn:Hc; [|discriminate].
      apply Ascii.eqb_eq in Hc. subst c.
      destruct r as [|d r]; [discriminate|]. simpl.
      destruct (Ascii.eqb d ">") eqn:Hd; [|discriminate].
      apply Ascii.eqb_eq in Hd. subst d. intros _. exists (T "/>"), r.
      split; [right; now left|reflexivity].
Qed.

Lemma delim_starts (g rest : text) : is_delim g -> starts_delim (g ++ rest) = true.
Proof.
  intros [(c & -> & Hc)|[-> | ->]]; simpl; [now rewrite Hc|reflexivity|].
  destruct (is_space ">"); reflexivity.
Qed.

Lemma starts_delim_head (r : text) : starts_delim r = true -> wordy (hd_error r) = false.
Proof.
  intros H. destruct (starts_delim_split r H) as (g & rest & Hg & ->).
  now apply delim_head.
Qed.

Lemma span_word_sep (n r : text) :
  forallb is_word n = true -> wordy (hd_error r) = false -> span is_word (n ++ r) = (n, r).
Proof.
  intros Hn Hr. rewrite span_all_app by assumption.
  destruct r as [|c r]; simpl; [now rewrite app_nil_r|].
  simpl in Hr. rewrite Hr. simpl. now rewrite app_nil_r.
Qed.

(** The opening pattern of [k] at a [<], read off the name behind it. *)
Lemma m_tag_open_piece (k p : text) prev :
  is_name k = true ->
  match m_tag_open k prev ("<"%char :: p) with
  | Some (g, m, rest) =>
      m = "<"%char :: k ++ g /\ span is_word p = (k, g ++ rest)
      /\ starts_delim (g ++ rest) = true
  | None =>
      text_eqb (fst (span is_word p)) k && starts_delim (snd (span is_word p)) = false
  end.
Proof.
  intros Hk. pose proof (is_name_forallb k Hk) as Hkw.
  destruct (m_tag_open k prev ("<"%char :: p)) as [[[g m] rest]|] eqn:E.
  - destruct (m_tag_open_shape k prev _ g m rest E) as (-> & Hs & Hg).
    split; [reflexivity|]. simpl in Hs. injection Hs as Hs. rewrite <- app_assoc in Hs.
    subst p. split; [|now apply delim_starts].
    apply span_word_sep; [assumption|now apply delim_head].
  - destruct (text_eqb (fst (span is_word p)) k) eqn:En; [|reflexivity].
    destruct (starts_delim (snd (span is_word p))) eqn:Ed; [|reflexivity].
    exfalso. apply text_eqb_eq in En.
    destruct (starts_delim_split _ Ed) as (g & rest & Hg & Hr).
    pose proof (span_app is_word p) as Hp. rewrite En, Hr in Hp.
    apply (m_tag_open_fires k g rest prev Hg).
    simpl. rewrite <- app_assoc, <- Hp. exact E.
Qed.

Lemma scan_piece (G : Type)
  (matcher : option ascii -> text -> option (G * text * text))
  (repl : G -> text -> text) (p : text) :
  sound matcher ->
  (forall c t prev, Ascii.eqb c "<" = false -> matcher prev (c :: t) = None) ->
  lt_free p = true ->
  re_sub matcher repl ("<"%char :: p)
  = match matcher None ("<"%char :: p) with
    | Some (g, m, rest) => repl g m ++ rest
    | None => "<"%char :: p
    end.
Proof.
  intros Hsound Hm Hp. unfold re_sub, finditer. simpl.
  destruct (matcher None ("<"%char :: p)) as [[[g m] rest]|] eqn:E.
  - destruct (Hsound _ _ _ _ _ E) as [Hs Hne].
    assert (Hr : lt_free rest = true).
    { destruct m as [|c m]; [congruence|]. simpl in Hs. injection Hs as _ Hs.
      rewrite Hs, lt_free_app in Hp. now apply andb_prop in Hp. }
    rewrite (scan_lt_free G matcher rest Hm Hr).
    + simpl. f_equal. now apply flat_map_lits.
    + assert (L : List.length ("<"%char :: p) = List.length (m ++ rest)) by now rewrite Hs.
      rewrite length_app in L. destruct m; [congruence|]. simpl in L. lia.
  - rewrite (scan_lt_free G matcher p Hm Hp) by apply le_n.
    simpl. f_equal. now apply flat_map_lits.
Qed.

Lemma tag_open_needs_lt (k : text) c t prev :
  Ascii.eqb c "<" = false -> m_tag_open k prev (c :: t) = None.
Proof. intros H. now apply tags_need_lt. Qed.

Lemma tag_close_needs_lt (k : text) c t prev :
  Ascii.eqb c "<" = false -> m_tag_close k prev (c :: t) = None.
Proof. intros H. now apply tags_need_lt. Qed.

(** What [tag_rewrite] does, by the form of the piece. *)
Lemma tag_rewrite_open (f : text -> text) (n r : text) :
  is_name n = true -> starts_delim r = true -> tag_rewrite f (n ++ r) = f n ++ r.
Proof.
  intros Hn Hr. destruct (is_name_cons n Hn) as (c & n' & -> & Hc & Hn').
  unfold tag_rewrite. cbn [app].
  destruct (word_not_mark c Hc) as (-> & _ & _).
  change (c :: n' ++ r) with ((c :: n') ++ r).
  rewrite span_word_sep; [now rewrite Hr|now apply is_name_forallb|now apply starts_delim_head].
Qed.

Lemma tag_rewrite_close (f : text -> text) (n r : text) :
  forallb is_word n = true ->
  tag_rewrite f ("/"%char :: n ++ ">"%char :: r) = "/"%char :: f n ++ ">"%char :: r.
Proof.
  intros Hn. unfold tag_rewrite. rewrite Ascii.eqb_refl.
  rewrite span_word_sep by (assumption || reflexivity). reflexivity.
Qed.

Lemma tag_rewrite_cases (p : text) :
  (exists n r, is_name n = true /\ starts_delim r = true /\ p = n ++ r)
  \/ (exists n r, forallb is_word n = true /\ p = "/"%char :: n ++ ">"%char :: r)
  \/ (forall f, f [] = [] -> tag_rewrite f p = p).
Proof.
  destruct p as [|c p']; [right; right; reflexivity|].
  destruct (Ascii.eqb c "/") eqn:Ec.
  - apply Ascii.eqb_eq in Ec. subst c.
    pose proof (span_app is_word p') as Hp. pose proof (span_fst_all is_word p') as Hn.
    destruct (span is_word p') as [n r] eqn:Es. simpl in Hp, Hn.
    destruct r as [|d r].
    + right; right. intros f _. unfold tag_rewrite. rewrite Ascii.eqb_refl, Es. reflexivity.
    + destruct (Ascii.eqb d ">") eqn:Ed.
      * apply Ascii.eqb_eq in Ed. subst d. right; left. exists n, r. now rewrite Hp.
      * right; right. intros f _. unfold tag_rewrite.
        rewrite Ascii.eqb_refl, Es, Ed. reflexivity.
  - pose proof (span_app is_word (c :: p')) as Hp.
    pose proof (span_fst_all is_word (c :: p')) as Hn.
    destruct (span is_word (c :: p')) as [n r] eqn:Es. simpl fst in *. simpl snd in *.
    destruct (starts_delim r) eqn:Ed.
    + destruct n as [|x n].
      * right; right. intros f Hf. unfold tag_rewrite. rewrite Ec, Es, Ed, Hf.
        now rewrite Hp.
      * left. exists (x :: n), r. repeat split; [|assumption|assumption].
        unfold is_name. exact Hn.
    + right; right. intros f _. unfold tag_rewrite. rewrite Ec, Es, Ed. reflexivity.
Qed.

Lemma tag_rewrite_ext (f g : text -> text) (p : text) :
  (forall n, f n = g n) -> tag_rewrite f p = tag_rewrite g p.
Proof.
  intros H. unfold tag_rewrite. destruct p as [|c p']; [reflexivity|].
  destruct (Ascii.eqb c "/").
  - destruct (span is_word p') as [n r]. now rewrite H.
  - destruct (span is_word (c :: p')) as [n r]. now rewrite H.
Qed.

Lemma tag_rewrite_compose (f g : text -> text) (p : text) :
  (forall n, is_name n = true -> is_name (f n) = true) ->
  f [] = [] -> g [] = [] ->
  tag_rewrite g (tag_rewrite f p) = tag_rewrite (fun n => g (f n)) p.
Proof.
  intros Hf Hf0 Hg0.
  destruct (tag_rewrite_cases p) as [(n & r & Hn & Hr & ->)|[(n & r & Hn & ->)|H]].
  - rewrite !tag_rewrite_open by auto. reflexivity.
  - rewrite (tag_rewrite_close f), (tag_rewrite_close (fun n => g (f n))) by assumption.
    apply tag_rewrite_close.
    destruct n as [|x n]; [now rewrite Hf0|].
    apply is_name_forallb, Hf. exact Hn.
  - rewrite (H f Hf0), (H g Hg0). symmetry. apply H. now rewrite Hf0.
Qed.

Lemma tag_rewrite_lt_free (f : text -> text) (p : text) :
  (forall n, is_name n = true -> is_name (f n) = true) -> f [] = [] ->
  lt_free p = true -> lt_free (tag_rewrite f p) = true.
Proof.
  intros Hf Hf0 Hp.
  destruct (tag_rewrite_cases p) as [(n & r & Hn & Hr & ->)|[(n & r & Hn & ->)|H]].
  - rewrite tag_rewrite_open by auto. rewrite lt_free_app in *.
    apply andb_prop in Hp as [_ Hp]. rewrite Hp.
    now rewrite name_lt_free by now apply is_name_forallb, Hf.
  - rewrite tag_rewrite_close by assumption.
    change ("/"%char :: n ++ ">"%char :: r) with (T "/" ++ n ++ ">"%char :: r) in Hp.
    change ("/"%char :: f n ++ ">"%char :: r) with (T "/" ++ f n ++ ">"%char :: r).
    rewrite !lt_free_app in *.
    apply andb_prop in Hp as [_ Hp]. apply andb_prop in Hp as [_ Hp]. rewrite Hp.
    destruct n as [|x n]; [now rewrite Hf0|].
    now rewrite (name_lt_free (f (x :: n))) by now apply is_name_forallb, Hf.
  - now rewrite H.
Qed.

(** The two substitutions of one entry, on one piece. *)
Lemma replace_tags_piece (k v p : text) :
  is_name k = true -> is_name v = true -> lt_free p = true ->
  ReplaceIcons.replace_tags k v ("<"%char :: p) = "<"%char :: tag_rewrite (swap k v) p.
Proof.
  intros Hk Hv Hp. pose proof (is_name_forallb k Hk) as Hkw.
  unfold ReplaceIcons.replace_tags.
  rewrite (scan_piece _ (m_tag_open k) _ p (m_tag_open_sound k) (tag_open_needs_lt k) Hp).
  pose proof (m_tag_open_piece k p None Hk) as Ho.
  destruct (m_tag_open k None ("<"%char :: p)) as [[[g m] rest]|].
  - destruct Ho as (-> & Hs & Hd).
    pose proof (span_app is_word p) as Hpp. rewrite Hs in Hpp. simpl in Hpp.
    assert (Hl : lt_free (v ++ g ++ rest) = true).
    { rewrite Hpp, lt_free_app in Hp. rewrite lt_free_app.
      apply andb_prop in Hp as [_ Hp]. rewrite Hp.
      now rewrite name_lt_free by now apply is_name_forallb. }
    change (("<"%char :: v ++ g) ++ rest) with ("<"%char :: (v ++ g) ++ rest).
    rewrite <- app_assoc.
    rewrite (scan_piece _ (m_tag_close k) _ _ (m_tag_close_sound k) (tag_close_needs_lt k) Hl).
    assert (Hc : m_tag_close k None ("<"%char :: v ++ g ++ rest) = None).
    { unfold m_tag_close, m_literal.
      destruct (is_name_cons v Hv) as (x & v' & -> & Hx & _).
      change (strip_prefix (T "</" ++ k ++ T ">") ("<"%char :: (x :: v') ++ g ++ rest))
        with (if Ascii.eqb "/" x then strip_prefix (k ++ T ">") (v' ++ g ++ rest) else None).
      destruct (word_not_mark x Hx) as (E & _ & _). rewrite Ascii.eqb_sym in E.
      now rewrite E. }
    rewrite Hc. f_equal. rewrite Hpp.
    rewrite tag_rewrite_open by assumption.
    unfold swap. now rewrite text_eqb_refl.
  - rewrite (scan_piece _ (m_tag_close k) _ _ (m_tag_close_sound k) (tag_close_needs_lt k) Hp).
    unfold m_tag_close, m_literal.
    change (strip_prefix (T "</" ++ k ++ T ">") ("<"%char :: p))
      with (strip_prefix ("/"%char :: k ++ T ">") p).
    destruct (strip_prefix ("/"%char :: k ++ T ">") p) as [rest|] eqn:Es.
    + apply strip_prefix_Some in Es. subst p.
      change (("/"%char :: k ++ T ">") ++ rest) with ("/"%char :: (k ++ T ">") ++ rest).
      rewrite <- (app_assoc k).
      change (T ">" ++ rest) with (">"%char :: rest).
      rewrite tag_rewrite_close by assumption.
      unfold swap. rewrite text_eqb_refl.
      change (T "</" ++ v ++ T ">") with ("<"%char :: "/"%char :: v ++ T ">").
      cbn [app]. now rewrite <- app_assoc.
    + f_equal.
      destruct (tag_rewrite_cases p) as [(n & r & Hn & Hr & ->)|[(n & r & Hn & ->)|H]].
      * rewrite tag_rewrite_open by assumption.
        rewrite span_word_sep in Ho
          by (now apply is_name_forallb || now apply starts_delim_head).
        simpl in Ho. rewrite Hr, andb_true_r in Ho. unfold swap. now rewrite Ho.
      * rewrite tag_rewrite_close by assumption. unfold swap.
        destruct (text_eqb n k) eqn:E; [|reflexivity].
        apply text_eqb_eq in E. subst n. exfalso.
        replace ("/"%char :: k ++ ">"%char :: r) with (("/"%char :: k ++ T ">") ++ r) in Es
          by (simpl; now rewrite <- app_assoc).
        rewrite strip_prefix_app in Es. discriminate.
      * symmetry. apply H. unfold swap.
        destruct (text_eqb [] k) eqn:E; [|reflexivity].
        apply text_eqb_eq in E. subst k. discriminate.
Qed.

(** ** The usage rewriter of [replace-icons.py], entry after entry *)

(** What the entries whose old name occurs in [icons_str] make of one name. *)
Definition applied (icons_str : text) (t : table) (n : text) : text :=
  fold_left (fun w kv => if occurs (fst kv) icons_str then swap (fst kv) (snd kv) w else w) t n.

Lemma applied_cons (icons_str k v : text) (t : table) (n : text) :
  applied icons_str ((k, v) :: t) n
  = applied icons_str t (if occurs k icons_str then swap k v n else n).
Proof. reflexivity. Qed.

Lemma applied_not_key (icons_str : text) (t : table) (n : text) :
  ~ In n (keys t) -> applied icons_str t n = n.
Proof.
  revert n; induction t as [|[k v] t IH]; intros n Hn; [reflexivity|].
  unfold applied. simpl. fold (applied icons_str t).
  simpl in Hn. unfold swap. destruct (text_eqb n k) eqn:E.
  - apply text_eqb_eq in E. subst. tauto.
  - destruct (occurs k icons_str); apply IH; tauto.
Qed.

Lemma targets_fresh_tail (kv : text * text) (t : table) :
  targets_fresh (kv :: t) = true ->
  ~ In (snd kv) (keys t) /\ targets_fresh t = true.
Proof.
  unfold targets_fresh. intros H. rewrite forallb_forall in H.
  assert (G : forall x, In x (kv :: t) -> ~ In (snd x) (keys t)).
  { intros x Hx Hin. specialize (H x Hx).
    assert (Hm : mem (snd x) (keys (kv :: t)) = true) by (apply mem_In; now right).
    rewrite Hm in H. discriminate. }
  split; [apply G; now left|].
  apply forallb_forall. intros x Hx.
  destruct (mem (snd x) (keys t)) eqn:E; [|reflexivity].
  apply mem_In in E. exfalso. apply (G x); [now right|assumption].
Qed.

(** These entries act as one lookup: no new name is an old one. *)
Lemma applied_spec (icons_str : text) (t : table) (n : text) :
  targets_fresh t = true ->
  applied icons_str t n = if occurs n icons_str then get_or_self t n else n.
Proof.
  revert n; induction t as [|[k v] t IH]; intros n Hf.
  - simpl. now destruct (occurs n icons_str).
  - destruct (targets_fresh_tail _ _ Hf) as [Hv Ht]. simpl in Hv.
    rewrite applied_cons.
    unfold get_or_self. simpl lookup. unfold swap.
    destruct (text_eqb n k) eqn:E.
    + apply text_eqb_eq in E. subst n. rewrite text_eqb_refl.
      destruct (occurs k icons_str) eqn:Eo.
      * now apply applied_not_key.
      * rewrite (IH k Ht), Eo. reflexivity.
    + assert (E' : text_eqb k n = false).
      { apply text_eqb_neq. apply text_eqb_neq in E. congruence. }
      rewrite E'. fold (get_or_self t n).
      destruct (occurs k icons_str); now apply IH.
Qed.

Lemma applied_name (icons_str : text) (t : table) :
  names_ok t = true -> forall n, is_name n = true -> is_name (applied icons_str t n) = true.
Proof.
  induction t as [|[k v] t IH]; intros Ht n Hn; [assumption|].
  simpl in Ht. apply andb_prop in Ht as [Hkv Ht]. apply andb_prop in Hkv as [_ Hv].
  unfold applied. simpl. fold (applied icons_str t).
  destruct (occurs k icons_str); apply IH; auto using swap_name.
Qed.

Lemma tag_rewrite_id (p : text) : tag_rewrite (fun n => n) p = p.
Proof.
  destruct (tag_rewrite_cases p) as [(n & r & Hn & Hr & ->)|[(n & r & Hn & ->)|H]].
  - now rewrite tag_rewrite_open.
  - now rewrite tag_rewrite_close.
  - now apply H.
Qed.

Section Usages.
Variable icons_str : text.

Let step (c : text) (kv : text * text) : text :=
  if occurs (fst kv) icons_str
  then ReplaceIcons.replace_tags (fst kv) (snd kv) c else c.

Lemma fold_tags_lt_free (t : table) (a : text) :
  lt_free a = true -> fold_left step t a = a.
Proof.
  intros Ha. induction t as [|[k v] t IH]; [reflexivity|].
  simpl. unfold step at 2. cbn [fst snd].
  destruct (occurs k icons_str); [|exact IH].
  unfold ReplaceIcons.replace_tags.
  rewrite (re_sub_lt_free _ (m_tag_open k) _ a (tag_open_needs_lt k) Ha).
  rewrite (re_sub_lt_free _ (m_tag_close k) _ a (tag_close_needs_lt k) Ha).
  exact IH.
Qed.

Lemma replace_tags_cut (k v a b : text) :
  is_name k = true ->
  exists b',
    ReplaceIcons.replace_tags k v (a ++ "<"%char :: b)
    = ReplaceIcons.replace_tags k v a ++ "<"%char :: b'
    /\ ReplaceIcons.replace_tags k v ("<"%char :: b) = "<"%char :: b'.
Proof.
  intros Hk. pose proof (is_name_forallb k Hk) as Hkw.
  unfold ReplaceIcons.replace_tags.
  rewrite (re_sub_cut _ (m_tag_open k) "<"%char (m_tag_open_sound k)
             (fun _ _ _ => eq_refl)
             (fun prev x q b0 => m_tag_open_local k prev x q b0 Hkw)).
  destruct (re_sub_head _ (m_tag_open k) "<"%char
              (fun g (_ : text) => "<"%char :: v ++ g) b) as (b1 & E1).
  { intros g m. eexists. reflexivity. }
  rewrite E1.
  rewrite (re_sub_cut _ (m_tag_close k) "<"%char (m_tag_close_sound k)
             (fun _ _ _ => eq_refl)
             (fun prev x q b0 => m_tag_close_local k prev x q b0 Hkw)).
  destruct (re_sub_head _ (m_tag_close k) "<"%char
              (fun (_ : unit) (_ : text) => T "</" ++ v ++ T ">") b1) as (b2 & E2).
  { intros g m. eexists. reflexivity. }
  rewrite E2. exists b2. split; reflexivity.
Qed.

Lemma fold_tags_cut (t : table) :
  names_ok t = true ->
  forall a b, fold_left step t (a ++ "<"%char :: b)
              = fold_left step t a ++ fold_left step t ("<"%char :: b).
Proof.
  induction t as [|[k v] t IH]; intros Ht a b; [reflexivity|].
  simpl in Ht. apply andb_prop in Ht as [Hkv Ht]. apply andb_prop in Hkv as [Hk _].
  simpl. unfold step at 2 4 6. cbn [fst snd].
  destruct (occurs k icons_str); [|now apply IH].
  destruct (replace_tags_cut k v a b Hk) as (b' & -> & ->). now apply IH.
Qed.

Lemma fold_tags_piece (t : table) :
  names_ok t = true ->
  forall f p,
    (forall n, is_name n = true -> is_name (f n) = true) -> f [] = [] ->
    lt_free p = true ->
    fold_left step t ("<"%char :: tag_rewrite f p)
    = "<"%char :: tag_rewrite (fun n => applied icons_str t (f n)) p.
Proof.
  induction t as [|[k v] t IH]; intros Ht f p Hf Hf0 Hp; [reflexivity|].
  simpl in Ht. apply andb_prop in Ht as [Hkv Ht]. apply andb_prop in Hkv as [Hk Hv].
  simpl fold_left. unfold step at 2. cbn [fst snd].
  destruct (occurs k icons_str) eqn:Eo.
  - rewrite replace_tags_piece by (auto using tag_rewrite_lt_free).
    rewrite tag_rewrite_compose; [|assumption|assumption|].
    + rewrite (IH Ht (fun n => swap k v (f n)) p); [| | |assumption].
      * f_equal. apply tag_rewrite_ext. intros n. now rewrite applied_cons, Eo.
      * intros n Hn. apply swap_name; auto.
      * rewrite Hf0. unfold swap. destruct (text_eqb [] k) eqn:E; [|reflexivity].
        apply text_eqb_eq in E. subst k. discriminate.
    + unfold swap. destruct (text_eqb [] k) eqn:E; [|reflexivity].
      apply text_eqb_eq in E. subst k. discriminate.
  - rewrite (IH Ht f p Hf Hf0 Hp). f_equal. apply tag_rewrite_ext.
    intros n. now rewrite applied_cons, Eo.
Qed.
End Usages.

(** The usage rewriter of [replace-icons.py] rewrites the names of tags, and
    only these: a name directly behind [<] or [</] and in front of
    whitespace, [/>] or [>] (behind [</]: in front of [>]) becomes the new
    name of the table when it is an old name that occurs in the specifier
    text of the import; every other character is copied. *)
Lemma replace_usages_tags (icons_str : text) :
  rewrites_tags_by (ReplaceIcons.replace_usages icons_str)
    (fun n => if occurs n icons_str
              then get_or_self ReplaceIcons.ICON_MAPPINGS n else n).
Proof.
  assert (Hf : targets_fresh ReplaceIcons.ICON_MAPPINGS = true) by (vm_compute; reflexivity).
  unfold ReplaceIcons.replace_usages. split; [|split].
  - intros a Ha. now apply fold_tags_lt_free.
  - intros a b. apply fold_tags_cut. exact replace_icons_names.
  - intros p Hp.
    rewrite <- (tag_rewrite_id p) at 1.
    rewrite fold_tags_piece; [|exact replace_icons_names|auto|reflexivity|assumption].
    f_equal. apply tag_rewrite_ext. intros n. now apply applied_spec.
Qed.

(** ** The legacy import declarations, character by character *)




(** ** Occurrences *)


Lemma occurs_iff (p s : text) :
  occurs p s = true <-> exists a b, s = a ++ p ++ b.
Proof.
  split.
  - induction s as [|c s IH]; simpl.
    + destruct (strip_prefix p []) as [r|] eqn:E; [|discriminate].
      intros _. apply strip_prefix_Some in E. now exists [], r.
    + destruct (strip_prefix p (c :: s)) as [r|] eqn:E.
      * intros _. apply strip_prefix_Some in E. now exists [], r.
      * intros H. destruct (IH H) as (a & b & ->). now exists (c :: a), b.
  - intros (a & b & ->). apply occurs_intro.
Qed.

Lemma occurs_in_context (p s a b : text) :
  occurs p s = true -> occurs p (a ++ s ++ b) = true.
Proof.
  rewrite !occurs_iff. intros (x & y & ->). exists (a ++ x), (y ++ b).
  now rewrite <- !app_assoc.
Qed.

Lemma not_occurs_part (p s a b : text) :
  occurs p (a ++ s ++ b) = false -> occurs p s = false.
Proof.
  intros H. destruct (occurs p s) eqn:E; [|reflexivity].
  now rewrite (occurs_in_context p s a b E) in H.
Qed.




(** ** The module name [lucide-react] in a text *)













(** ** Splitting and joining *)

Lemma join_cons (sep x : text) (l : list text) :
  l <> [] -> join sep (x :: l) = x ++ sep ++ join sep l.
Proof. destruct l; [congruence|reflexivity]. Qed.

Lemma split_chunks_nonempty (G : Type) (keep : bool) (cs : list (chunk G)) :
  forall acc, split_chunks keep acc cs <> [].
Proof.
  induction cs as [|[c|g m] cs IH]; intros acc; simpl; [discriminate|apply IH|discriminate].
Qed.

Lemma split_chunks_join (G : Type) (sep : text) (cs : list (chunk G)) :
  Forall (fun k => match k with Lit _ => True | Hit _ m => m = sep end) cs ->
  forall acc, join sep (split_chunks false acc cs) = rev acc ++ flat_map (@source G) cs.
Proof.
  induction cs as [|[c|g m] cs IH]; intros H acc.
  - simpl. now rewrite app_nil_r.
  - inversion H; subst. simpl split_chunks. rewrite IH by assumption.
    simpl. now rewrite <- app_assoc.
  - inversion H; subst. simpl split_chunks.
    rewrite join_cons by apply split_chunks_nonempty.
    rewrite IH by assumption. reflexivity.
Qed.

(** [sep.join(s.split(sep))] is [s]. *)
Lemma str_split_join (sep s : text) :
  sep <> [] -> join sep (str_split sep s) = s.
Proof.
  intros Hsep. unfold str_split, split_plain.
  rewrite split_chunks_join.
  - simpl. unfold finditer. apply scan_source; [now apply m_literal_sound|apply le_n].
  - unfold finditer.
    pose proof (scan_hits unit (m_literal sep) (List.length s) s None) as Hh.
    eapply Forall_impl; [|exact Hh].
    intros [c|g m]; [trivial|]. intros (p & t & rest & Hm).
    unfold m_literal in Hm. destruct (strip_prefix sep t); [|discriminate].
    now inversion Hm.
Qed.

Lemma forallb_join_inv (p : ascii -> bool) (sep : text) (l : list text) :
  forallb p (join sep l) = true -> Forall (fun x => forallb p x = true) l.
Proof.
  induction l as [|x l IH]; intros H; [constructor|].
  destruct l as [|y l].
  - constructor; [exact H|constructor].
  - rewrite join_cons in H by discriminate. rewrite !forallb_app in H.
    apply andb_prop in H as [Hx H]. apply andb_prop in H as [_ H].
    constructor; [assumption|now apply IH].
Qed.

Lemma forallb_rev (p : ascii -> bool) (s : text) : forallb p (rev s) = forallb p s.
Proof.
  induction s as [|c s IH]; [reflexivity|]. simpl.
  rewrite forallb_app, IH. simpl. rewrite andb_true_r. apply andb_comm.
Qed.

(** [s.strip()] takes whitespace off both ends. *)
Lemma strip_decompose (s : text) :
  exists w1 w2, forallb is_space w1 = true /\ forallb is_space w2 = true
                /\ s = w1 ++ strip s ++ w2.
Proof.
  unfold strip, lstrip.
  pose proof (span_app is_space s) as H1. pose proof (span_fst_all is_space s) as F1.
  destruct (span is_space s) as [w1 u]. simpl in *.
  pose proof (span_app is_space (rev u)) as H2.
  pose proof (span_fst_all is_space (rev u)) as F2.
  destruct (span is_space (rev u)) as [w2 v]. simpl in *.
  exists w1, (rev w2). split; [assumption|]. split; [now rewrite forallb_rev|].
  rewrite H1. f_equal. rewrite <- (rev_involutive u), H2, rev_app_distr. reflexivity.
Qed.

Lemma forallb_strip (p : ascii -> bool) (s : text) :
  forallb p s = true -> forallb p (strip s) = true.
Proof.
  intros H. destruct (strip_decompose s) as (w1 & w2 & _ & _ & E).
  rewrite E, !forallb_app in H.
  apply andb_prop in H as [_ H]. now apply andb_prop in H.
Qed.

(** ** Plain specifiers *)













(** ** [replace-lucide-icons.py] on a file with a single legacy import *)








(** ** [replace-icons.py]: the characters of the synthesized import *)

Lemma existsb_forallb (p : ascii -> bool) (s : text) :
  existsb p s = false <-> forallb (fun c => negb (p c)) s = true.
Proof.
  induction s as [|c s IH]; simpl; [tauto|].
  destruct (p c); simpl; [split; discriminate|exact IH].
Qed.

Lemma specifiers_forallb (p : ascii -> bool) (icons_str spec : text) :
  forallb p icons_str = true -> In spec (specifiers icons_str) -> forallb p spec = true.
Proof.
  intros H Hin. unfold specifiers in Hin. apply in_map_iff in Hin as (raw & <- & Hraw).
  apply forallb_strip.
  rewrite <- (str_split_join (T ",") icons_str) in H by discriminate.
  apply forallb_join_inv in H. rewrite Forall_forall in H. now apply H.
Qed.

Lemma get_or_self_forallb (p : ascii -> bool) (t : table) (x : text) :
  forallb (fun kv => forallb p (snd kv)) t = true ->
  forallb p x = true -> forallb p (get_or_self t x) = true.
Proof.
  intros Ht Hx. unfold get_or_self. destruct (lookup t x) as [v|] eqn:E; [|assumption].
  apply lookup_In in E. rewrite forallb_forall in Ht. exact (Ht _ E).
Qed.

(** The text that takes the place of the legacy import declarations, spelled
    out: the declaration for the new module with the specifiers that are not
    excluded, each under its new name, and behind it, when a specifier is
    excluded, a line break and the declaration that keeps the excluded
    specifiers on the legacy module. *)
Lemma import_for_text (icons_str : text) :
  import_for icons_str
  = T "import { "
      ++ join (T ", ")
           (map (get_or_self ReplaceIcons.ICON_MAPPINGS)
              (filter (fun i => negb (mem i ReplaceIcons.MISSING_ICONS))
                 (map strip (str_split (T ",") icons_str))))
      ++ T " } from " ++ DQ ++ T "@aliimam/icons" ++ DQ
      ++ match filter (fun i => mem i ReplaceIcons.MISSING_ICONS)
                 (map strip (str_split (T ",") icons_str)) with
         | [] => []
         | kept => NL ++ T "import { " ++ join (T ", ") kept ++ T " } from "
                     ++ DQ ++ T "lucide-react" ++ DQ
         end.
Proof.
  unfold import_for, ReplaceIcons.build_import, ReplaceIcons.new_module_decl,
    ReplaceIcons.legacy_decl, migratable, excluded, specifiers.
  destruct (filter (fun i => mem i ReplaceIcons.MISSING_ICONS)
              (map strip (str_split (T ",") icons_str)));
    rewrite <- !app_assoc; reflexivity.
Qed.

Section ImportChars.
Variable p : ascii -> bool.
Hypothesis p_fixed :
  forallb p (T "import {} from @aliimam/icons lucide-react," ++ DQ ++ NL) = true.
Hypothesis p_targets :
  forallb (fun kv => forallb p (snd kv)) ReplaceIcons.ICON_MAPPINGS = true.

Lemma fixed_text (s : text) :
  forallb (fun c => existsb (Ascii.eqb c)
                      (T "import {} from @aliimam/icons lucide-react," ++ DQ ++ NL)) s = true ->
  forallb p s = true.
Proof.
  rewrite !forallb_forall. intros H c Hc. specialize (H c Hc).
  apply existsb_exists in H as (d & Hd & E). apply Ascii.eqb_eq in E. subst d.
  rewrite forallb_forall in p_fixed. now apply p_fixed.
Qed.

Lemma import_for_forallb (icons_str : text) :
  forallb p icons_str = true -> forallb p (import_for icons_str) = true.
Proof.
  intros H. rewrite import_for_text.
  assert (Hs : forall spec, In spec (map strip (str_split (T ",") icons_str)) ->
                            forallb p spec = true).
  { intros spec Hin. now apply (specifiers_forallb p icons_str). }
  assert (Hmoved : forallb (forallb p)
             (map (get_or_self ReplaceIcons.ICON_MAPPINGS)
                (filter (fun i => negb (mem i ReplaceIcons.MISSING_ICONS))
                   (map strip (str_split (T ",") icons_str)))) = true).
  { rewrite forallb_forall. intros m Hm. apply in_map_iff in Hm as (x & <- & Hx).
    apply filter_In in Hx as [Hx _]. apply get_or_self_forallb; auto. }
  assert (Hkept : forallb (forallb p)
             (filter (fun i => mem i ReplaceIcons.MISSING_ICONS)
                (map strip (str_split (T ",") icons_str))) = true).
  { rewrite forallb_forall. intros m Hm. apply filter_In in Hm as [Hx _]. auto. }
  rewrite !forallb_app.
  rewrite (fixed_text (T "import { ")), (fixed_text (T " } from ")), (fixed_text DQ),
    (fixed_text (T "@aliimam/icons")) by reflexivity.
  rewrite (forallb_join p (T ", ") _ (fixed_text (T ", ") eq_refl) Hmoved).
  cbn [andb].
  destruct (filter (fun i => mem i ReplaceIcons.MISSING_ICONS)
              (map strip (str_split (T ",") icons_str))) as [|k kept]; [reflexivity|].
  rewrite !forallb_app.
  rewrite (fixed_text NL), (fixed_text (T "import { ")), (fixed_text (T " } from ")),
    (fixed_text DQ), (fixed_text (T "lucide-react")) by reflexivity.
  rewrite (forallb_join p (T ", ") _ (fixed_text (T ", ") eq_refl) Hkept).
  reflexivity.
Qed.
End ImportChars.

Lemma import_for_no_backslash (icons_str : text) :
  existsb (Ascii.eqb backslash) icons_str = false ->
  existsb (Ascii.eqb backslash) (import_for icons_str) = false.
Proof.
  rewrite !existsb_forallb. apply import_for_forallb; vm_compute; reflexivity.
Qed.




(** ** Words on both sides of a separator *)




Lemma get_or_self_not_key (t : table) (w : text) :
  ~ In w (keys t) -> get_or_self t w = w.
Proof. intros H. unfold get_or_self. now rewrite lookup_not_key. Qed.


(** ** Specifiers that are a name or a name with an alias *)



(** * The claims on whole files *)

(** ** C1: which occurrences of a mapped symbol are renamed *)

Definition plain_reference : text :=
  T "import { AlertCircle } from " ++ DQ ++ T "lucide-react" ++ DQ ++ NL
    ++ T "const x = AlertCircle;".

Definition plain_reference_after : text :=
  T "import { CircleAlert } from " ++ DQ ++ T "@aliimam/icons" ++ DQ ++ NL
    ++ T "const x = AlertCircle;".

(** C1, as stated, fails on [replace-icons.py]: a reference to the imported
    and mapped symbol [AlertCircle] that is not a JSX tag stays in the body of
    the processed file, while the import now brings [CircleAlert]. *)
Lemma C1_plain_reference_kept :
  ReplaceIcons.process_file plain_reference
  = ReplaceIcons.Done true "Updated" plain_reference_after
  /\ In (T "AlertCircle") (words plain_reference_after)
  /\ lookup ReplaceIcons.ICON_MAPPINGS (T "AlertCircle") = Some (T "CircleAlert").
Proof.
  split; [vm_compute; reflexivity|]. split; [|vm_compute; reflexivity].
  vm_compute. tauto.
Qed.

(** C1 (amended): in [replace_icons.py] and [replace-lucide-icons.py] the
    rewritten text is the text with every maximal run of word characters
    renamed by the table, so every whole-word occurrence of a mapped symbol
    [S] (inside string and comment literals too) has become its new name and
    no word [S] remains; in [replace-lucide-icons.py] this holds for the texts
    between the legacy import declarations that the rewriter still finds.
    [replace-icons.py] rewrites the names of tags only: a text without [<]
    is left as it is, the text is rewritten piece by piece, cut in front of
    every [<], and in a piece only the name right behind [<] (in front of
    whitespace, [/>] or [>]) or behind [</] (in front of [>]) changes, to its
    new name when it occurs in the specifier text of the import. *)
Theorem C1_whole_words_renamed :
  (forall content : text,
      let out := snd (Replace_icons.process_file content) in
      out = map_words (rename Replace_icons.ICON_MAPPINGS) []
              (Replace_icons.replace_imports content)
      /\ forall old new, In (old, new) Replace_icons.ICON_MAPPINGS ->
           rename Replace_icons.ICON_MAPPINGS old = new /\ ~ In old (words out))
  /\
  (forall content : text,
      let parts := re_split_capture ReplaceLucideIcons.pattern content in
      ReplaceLucideIcons.replace_icon_names_in_code content ReplaceLucideIcons.ICON_MAPPINGS
      = List.concat (ReplaceLucideIcons.on_even
                       (map_words (rename ReplaceLucideIcons.ICON_MAPPINGS) []) parts)
      /\ forall old new part, In (old, new) ReplaceLucideIcons.ICON_MAPPINGS ->
           rename ReplaceLucideIcons.ICON_MAPPINGS old = new
           /\ ~ In old (words (map_words (rename ReplaceLucideIcons.ICON_MAPPINGS) [] part)))
  /\
  (forall icons_str : text,
      rewrites_tags_by (ReplaceIcons.replace_usages icons_str)
        (fun name => if occurs name icons_str
                     then get_or_self ReplaceIcons.ICON_MAPPINGS name else name)).
Proof.
  split; [|split]; [intros content; cbv zeta|intros content; cbv zeta|].
  - rewrite Replace_icons_facts.process_file_content,
      Replace_icons_facts.replace_names_map_words.
    split; [reflexivity|]. intros old new Hin. split.
    + apply text_eqb_eq.
      apply (table_forall (fun k v => text_eqb (rename Replace_icons.ICON_MAPPINGS k) v)
               Replace_icons.ICON_MAPPINGS); [vm_compute; reflexivity|assumption].
    + apply renamed_words_fresh.
      * exact Replace_icons_facts.names.
      * exact Replace_icons_facts.fresh.
      * eapply in_keys; eassumption.
  - split; [apply ReplaceLucideIcons_facts.in_code_map_words|].
    intros old new part Hin. split.
    + apply text_eqb_eq.
      apply (table_forall (fun k v => text_eqb (rename ReplaceLucideIcons.ICON_MAPPINGS k) v)
               ReplaceLucideIcons.ICON_MAPPINGS); [vm_compute; reflexivity|assumption].
    + apply renamed_words_fresh.
      * exact ReplaceLucideIcons_facts.lucide_names.
      * exact ReplaceLucideIcons_facts.lucide_fresh.
      * eapply in_keys; eassumption.
  - exact replace_usages_tags.
Qed.

(** ** C2: a second run *)







(** ** C4: aliased specifiers *)












(** ** C5: which names the usage rewriter substitutes *)

Definition unrelated_local : text :=
  T "import { Clock } from 'lucide-react';" ++ NL ++ T "const Home = 1;".

Definition unrelated_local_after : text :=
  T "import { Clock } from " ++ DQ ++ T "@aliimam/icons" ++ DQ ++ T ";" ++ NL
    ++ T "const House = 1;".

(** C5, as stated, fails on [replace-lucide-icons.py]: the whole table is
    applied to the body, so the local [Home] of a file that imports only
    [Clock] is renamed. *)
Lemma C5_unimported_name_rewritten :
  ReplaceLucideIcons.process_file unrelated_local = (true, unrelated_local_after)
  /\ snd (ReplaceLucideIcons.extract_lucide_imports unrelated_local) = [T "Clock"].
Proof. split; vm_compute; reflexivity. Qed.

Definition clock_only : text :=
  T "import { Clock } from " ++ DQ ++ T "@aliimam/icons" ++ DQ ++ T ";" ++ NL
    ++ T "<Clock className='h-4' />".

(** C5 (amended): only old names of the mapping table are ever substituted.
    In [replace-lucide-icons.py] a text is returned as it is when no old name
    is a word of a piece that [re.split] cuts at the legacy import
    declarations, and a word of a piece that is not an old name (a specifier
    kept under an identity mapping) stays in place; the table is applied
    whole, whether or not an old name is imported.  In [replace-icons.py]
    only names of tags are rewritten, and the name of a tag is kept when it
    does not occur in the specifier text of the import or is no old name of
    the table. *)
Theorem C5_only_old_names_substituted :
  (forall content : text,
      (forall k part, In k (keys ReplaceLucideIcons.ICON_MAPPINGS) ->
                      In part (re_split_capture ReplaceLucideIcons.pattern content) ->
                      ~ In k (words part)) ->
      ReplaceLucideIcons.replace_icon_names_in_code content ReplaceLucideIcons.ICON_MAPPINGS
      = content)
  /\ (forall (w part : text) (i : nat),
         ~ In w (keys ReplaceLucideIcons.ICON_MAPPINGS) ->
         nth_error (words part) i = Some w ->
         nth_error (words (ReplaceLucideIcons.replace_names
                             ReplaceLucideIcons.ICON_MAPPINGS part)) i = Some w)
  /\ (forall icons_str : text,
         let f := fun name => if occurs name icons_str
                              then get_or_self ReplaceIcons.ICON_MAPPINGS name else name in
         rewrites_tags_by (ReplaceIcons.replace_usages icons_str) f
         /\ (forall name, occurs name icons_str = false -> f name = name)
         /\ (forall name, ~ In name (keys ReplaceIcons.ICON_MAPPINGS) -> f name = name)).
Proof.
  split; [|split].
  - intros content H. rewrite ReplaceLucideIcons_facts.in_code_map_words.
    rewrite on_even_id.
    + apply re_split_join. apply m_import_sound.
    + intros p Hp. apply rename_words_unchanged. intros k Hk. now apply H.
  - intros w part i Hw Hi. unfold ReplaceLucideIcons.replace_names.
    apply other_words_kept; [exact ReplaceLucideIcons_facts.lucide_names|assumption|assumption].
  - intros icons_str f. split; [apply replace_usages_tags|]. unfold f. split.
    + intros name ->. reflexivity.
    + intros name Hk. rewrite (get_or_self_not_key _ _ Hk). now destruct (occurs name icons_str).
Qed.

(** C5 at a file that uses only [Clock], a name the table does not hold, and
    at a tag of the old name [AlertCircle] in a file that imports only
    [Clock]. *)
Lemma C5_only_old_names_substituted_witness :
  ReplaceLucideIcons.replace_icon_names_in_code clock_only ReplaceLucideIcons.ICON_MAPPINGS
  = clock_only
  /\ ReplaceIcons.replace_usages (T " Clock ") (T "<AlertCircle />") = T "<AlertCircle />".
Proof.
  split.
  - apply (proj1 C5_only_old_names_substituted clock_only).
    intros k part Hk Hp. vm_compute in Hp. destruct Hp as [<-|[]].
    vm_compute in Hk. vm_compute.
    intuition (subst; discriminate).
  - destruct (proj2 (proj2 C5_only_old_names_substituted) (T " Clock "))
      as ((_ & _ & Hpiece) & _).
    change (T "<AlertCircle />") with ("<"%char :: T "AlertCircle />").
    rewrite (Hpiece (T "AlertCircle />") eq_refl). vm_compute. reflexivity.
Defined.

(** ** C6: the declaration that stays on the legacy module *)

Definition mixed_import : text :=
  T "import { AlertCircle, Home, BarChart } from " ++ DQ ++ T "lucide-react" ++ DQ ++ NL
    ++ T "<AlertCircle /><Home /><BarChart data={d} />".

Definition mixed_import_after : text :=
  T "import { CircleAlert, Home } from " ++ DQ ++ T "@aliimam/icons" ++ DQ ++ NL
    ++ T "import { BarChart } from " ++ DQ ++ T "lucide-react" ++ DQ ++ NL
    ++ T "<CircleAlert /><Home /><BarChart data={d} />".

Definition aliased_excluded : text :=
  T "import { Sun, BarChart as BC } from 'lucide-react'" ++ NL ++ T "<BC data={d} />".

Definition aliased_excluded_after : text :=
  T "import { Sun, BarChart as BC } from " ++ DQ ++ T "@aliimam/icons" ++ DQ ++ NL
    ++ T "<BC data={d} />".

(** C6, as stated, fails: the test for an excluded symbol is made on the
    whole text of a specifier, so the excluded symbol [BarChart], imported
    under an alias, goes to the new module with the migratable [Sun] and no
    declaration for the legacy module is left. *)
Lemma C6_aliased_symbol_migrated :
  ReplaceIcons.process_file aliased_excluded
  = ReplaceIcons.Done true "Updated" aliased_excluded_after
  /\ In (T "BarChart") ReplaceIcons.MISSING_ICONS
  /\ occurs (T "lucide-react") aliased_excluded_after = false.
Proof.
  split; [vm_compute; reflexivity|]. split; [|vm_compute; reflexivity].
  vm_compute. tauto.
Qed.

Lemma residual_text (icons_str : text) :
  residual icons_str
  = T "} from " ++ DQ ++ T "@aliimam/icons" ++ DQ ++ NL
      ++ T "import { "
      ++ join (T ", ") (filter (fun s => mem s ReplaceIcons.MISSING_ICONS)
                          (map strip (str_split (T ",") icons_str)))
      ++ T " } from " ++ DQ ++ T "lucide-react" ++ DQ.
Proof. reflexivity. Qed.

(** C6 (amended): [replace-icons.py] reads the first legacy import
    declaration of the file and takes for excluded the specifiers whose
    text, stripped, is a member of [MISSING_ICONS].  When that declaration
    holds at least one such specifier and at least one other, and no
    backslash between its braces, the output holds, right behind the closing
    [} from "@aliimam/icons"] of the declaration for the new module and a
    line break, the declaration [import { ... } from "lucide-react"] with
    exactly those specifiers, in their order, separated by a comma and a
    space.  The usage rewriter changes names of tags only, and keeps every
    member of [MISSING_ICONS] as the name of a tag. *)
Theorem C6_residual_declaration (content icons_str stmt : text) :
  re_search ReplaceIcons.pattern content = Some (icons_str, stmt) ->
  filter (fun s => negb (mem s ReplaceIcons.MISSING_ICONS))
    (map strip (str_split (T ",") icons_str)) <> [] ->
  filter (fun s => mem s ReplaceIcons.MISSING_ICONS)
    (map strip (str_split (T ",") icons_str)) <> [] ->
  existsb (Ascii.eqb backslash) icons_str = false ->
  let kept := filter (fun s => mem s ReplaceIcons.MISSING_ICONS)
                (map strip (str_split (T ",") icons_str)) in
  let f := fun name => if occurs name icons_str
                       then get_or_self ReplaceIcons.ICON_MAPPINGS name else name in
  (exists changed msg out,
      ReplaceIcons.process_file content = ReplaceIcons.Done changed msg out
      /\ changed = negb (text_eqb out content)
      /\ holds (T "} from " ++ DQ ++ T "@aliimam/icons" ++ DQ ++ NL
                  ++ T "import { " ++ join (T ", ") kept ++ T " } from "
                  ++ DQ ++ T "lucide-react" ++ DQ) out)
  /\ rewrites_tags_by (ReplaceIcons.replace_usages icons_str) f
  /\ (forall e, In e ReplaceIcons.MISSING_ICONS -> f e = e).
Proof.
  intros Hs Hm He Hb kept f. split; [|split].
  - pose proof (import_for_no_backslash icons_str Hb) as Hb'.
    set (rewritten := ReplaceIcons.replace_usages icons_str
           (re_sub ReplaceIcons.pattern (fun _ _ => import_for icons_str) content)).
    assert (Hh : holds (residual icons_str) rewritten).
    { unfold rewritten. apply replace_usages_holds; [reflexivity| |].
      - intros key _. apply lt_free_no_start. apply residual_lt_free.
      - unfold re_sub. fold (finditer ReplaceIcons.pattern content).
        destruct (first_hit_split _ _ _ _ Hs) as (pre & cs' & E).
        unfold re_search in E. rewrite E, flat_map_app.
        change (flat_map (render (fun _ _ : text => import_for icons_str))
                  (Hit icons_str stmt :: cs'))
          with (import_for icons_str
                  ++ flat_map (render (fun _ _ : text => import_for icons_str)) cs').
        apply holds_in_context. now apply import_for_holds_residual. }
    rewrite residual_text in Hh. fold kept in Hh.
    rewrite (replace_icons_run content icons_str stmt Hs Hm Hb').
    fold rewritten. unfold report.
    destruct (text_eqb rewritten content) eqn:E.
    + exists false, "No changes needed"%string, content.
      split; [reflexivity|]. split; [now rewrite text_eqb_refl|].
      apply text_eqb_eq in E. rewrite <- E. exact Hh.
    + exists true, "Updated"%string, rewritten.
      split; [reflexivity|]. split; [now rewrite E|exact Hh].
  - apply replace_usages_tags.
  - intros e Hin. unfold f. destruct (missing_are_names e Hin) as [_ Hk].
    rewrite (get_or_self_not_key _ _ Hk). now destruct (occurs e icons_str).
Qed.

(** C6 at the example of the specification. *)
Lemma C6_residual_declaration_witness :
  ReplaceIcons.process_file mixed_import
  = ReplaceIcons.Done true "Updated" mixed_import_after
  /\ exists changed msg out,
       ReplaceIcons.process_file mixed_import = ReplaceIcons.Done changed msg out
       /\ changed = negb (text_eqb out mixed_import)
       /\ holds (T "} from " ++ DQ ++ T "@aliimam/icons" ++ DQ ++ NL
                   ++ T "import { BarChart } from " ++ DQ ++ T "lucide-react" ++ DQ) out.
Proof.
  split; [vm_compute; reflexivity|].
  assert (H1 : re_search ReplaceIcons.pattern mixed_import
               = Some (T " AlertCircle, Home, BarChart ",
                       T "import { AlertCircle, Home, BarChart } from "
                         ++ DQ ++ T "lucide-react" ++ DQ))
    by (vm_compute; reflexivity).
  assert (H2 : filter (fun s => negb (mem s ReplaceIcons.MISSING_ICONS))
                 (map strip (str_split (T ",") (T " AlertCircle, Home, BarChart "))) <> [])
    by (vm_compute; discriminate).
  assert (H3 : filter (fun s => mem s ReplaceIcons.MISSING_ICONS)
                 (map strip (str_split (T ",") (T " AlertCircle, Home, BarChart "))) <> [])
    by (vm_compute; discriminate).
  exact (proj1 (C6_residual_declaration mixed_import _ _ H1 H2 H3 eq_refl)).
Defined.

(** ** C10: several legacy import declarations in one file *)

Definition two_legacy : text :=
  T "import { Sun } from 'lucide-react'" ++ NL
    ++ T "import { Moon } from 'lucide-react'" ++ NL ++ T "<Sun /><Moon />".

Definition two_legacy_after : text :=
  T "import { Sun } from " ++ DQ ++ T "@aliimam/icons" ++ DQ ++ NL
    ++ T "import { Sun } from " ++ DQ ++ T "@aliimam/icons" ++ DQ ++ NL
    ++ T "<Sun /><Moon />".

Definition first_excluded : text :=
  T "import { BarChart } from 'lucide-react'" ++ NL
    ++ T "import { Sun } from 'lucide-react'".

(** C10, as stated, fails: when the first legacy import declaration holds
    excluded specifiers only, [replace-icons.py] returns before any
    replacement and the later declaration stays as it is. *)
Lemma C10_later_import_kept :
  finditer ReplaceIcons.pattern first_excluded
  = [Hit (T " BarChart ") (T "import { BarChart } from 'lucide-react'"); Lit nl;
     Hit (T " Sun ") (T "import { Sun } from 'lucide-react'")]
  /\ ReplaceIcons.process_file first_excluded
     = ReplaceIcons.Done false "All icons are missing from @aliimam/icons" first_excluded.
Proof. split; vm_compute; reflexivity. Qed.

Lemma first_hit_lits (G : Type) (l : text) (cs : list (chunk G)) :
  first_hit (map Lit l ++ cs) = first_hit cs.
Proof. induction l as [|c l IH]; [reflexivity|exact IH]. Qed.

(** C10 (amended): [replace-icons.py] takes the specifiers from the first
    legacy import declaration of the text (in text order) only.  The text is
    the sequence of its chunks, copied characters and matched declarations:
    the characters in front of the first declaration, that declaration, and
    the chunks behind it.  When no specifier of the first declaration is left
    after those of [MISSING_ICONS] are set aside, the file is returned as it
    is and no declaration is replaced.  Otherwise, the specifier text holding
    no backslash, one replacement is synthesized from the specifiers of the
    first declaration (the declaration for the new module and, when a
    specifier is excluded, the declaration for the legacy module behind it);
    it takes the place of every matched declaration, whatever its own
    specifier list, and the usage rewriter, which changes names of tags only,
    runs on the result. *)
Theorem C10_every_import_replaced
        (content icons_str stmt before : text) (after : list (chunk text)) :
  finditer ReplaceIcons.pattern content = map Lit before ++ Hit icons_str stmt :: after ->
  existsb (Ascii.eqb backslash) icons_str = false ->
  let specs := map strip (str_split (T ",") icons_str) in
  let moved := filter (fun s => negb (mem s ReplaceIcons.MISSING_ICONS)) specs in
  let kept := filter (fun s => mem s ReplaceIcons.MISSING_ICONS) specs in
  let replacement :=
    T "import { " ++ join (T ", ") (map (get_or_self ReplaceIcons.ICON_MAPPINGS) moved)
      ++ T " } from " ++ DQ ++ T "@aliimam/icons" ++ DQ
      ++ match kept with
         | [] => []
         | _ => NL ++ T "import { " ++ join (T ", ") kept ++ T " } from "
                  ++ DQ ++ T "lucide-react" ++ DQ
         end in
  let rewritten :=
    ReplaceIcons.replace_usages icons_str
      (before ++ replacement
         ++ flat_map (fun k => match k with
                               | Lit c => [c]
                               | Hit _ _ => replacement
                               end) after) in
  content = before ++ stmt ++ flat_map (@source text) after
  /\ Forall (fun k => match k with
                      | Lit _ => True
                      | Hit g m => exists prev s rest,
                                     ReplaceIcons.pattern prev s = Some (g, m, rest)
                      end) after
  /\ (moved = [] ->
      ReplaceIcons.process_file content
      = ReplaceIcons.Done false "All icons are missing from @aliimam/icons" content)
  /\ (moved <> [] ->
      ReplaceIcons.process_file content
      = if text_eqb rewritten content
        then ReplaceIcons.Done false "No changes needed" content
        else ReplaceIcons.Done true "Updated" rewritten)
  /\ rewrites_tags_by (ReplaceIcons.replace_usages icons_str)
       (fun name => if occurs name icons_str
                    then get_or_self ReplaceIcons.ICON_MAPPINGS name else name).
Proof.
  intros Hc Hb specs moved kept replacement rewritten.
  assert (Hs : re_search ReplaceIcons.pattern content = Some (icons_str, stmt)).
  { unfold re_search. rewrite Hc, first_hit_lits. reflexivity. }
  split; [|split; [|split; [|split]]].
  - rewrite <- (scan_source text ReplaceIcons.pattern (m_import_sound false false)
                  (List.length content) content None (le_n _)) at 1.
    fold (finditer ReplaceIcons.pattern content). rewrite Hc, flat_map_app.
    rewrite flat_map_lits by reflexivity. reflexivity.
  - pose proof (scan_hits text ReplaceIcons.pattern (List.length content) content None) as H.
    fold (finditer ReplaceIcons.pattern content) in H. rewrite Hc in H.
    apply Forall_app in H as [_ H]. now inversion H.
  - intros Hm. unfold ReplaceIcons.process_file. rewrite Hs. cbv zeta.
    fold specs. fold moved. rewrite Hm. reflexivity.
  - intros Hm.
    rewrite (replace_icons_run content icons_str stmt Hs Hm
               (import_for_no_backslash icons_str Hb)).
    assert (Hrep : import_for icons_str = replacement).
    { rewrite import_for_text. unfold replacement, kept, moved, specs.
      destruct (filter (fun s => mem s ReplaceIcons.MISSING_ICONS)
                  (map strip (str_split (T ",") icons_str))); reflexivity. }
    assert (Hsub : re_sub ReplaceIcons.pattern (fun _ _ => import_for icons_str) content
                   = before ++ replacement
                       ++ flat_map (fun k => match k with
                                             | Lit c => [c]
                                             | Hit _ _ => replacement
                                             end) after).
    { unfold re_sub. rewrite Hc, flat_map_app, flat_map_lits by reflexivity.
      rewrite Hrep. reflexivity. }
    rewrite Hsub. reflexivity.
  - apply replace_usages_tags.
Qed.

(** C10 at a file with two legacy import declarations. *)
Lemma C10_every_import_replaced_witness :
  ReplaceIcons.process_file two_legacy
  = ReplaceIcons.Done true "Updated" two_legacy_after.
Proof.
  destruct (C10_every_import_replaced two_legacy (T " Sun ")
              (T "import { Sun } from 'lucide-react'") []
              (Lit nl :: Hit (T " Moon ") (T "import { Moon } from 'lucide-react'")
                 :: map Lit (NL ++ T "<Sun /><Moon />")))
    as (_ & _ & _ & E & _).
  - vm_compute. reflexivity.
  - reflexivity.
  - rewrite E; [vm_compute; reflexivity|vm_compute; discriminate].
Defined.
